(** * generate_random_inserts: schema parser, value generator and row builder

    A shallow embedding of [generate_random_inserts.py].  Python values
    are modelled as follows.

    - [str] is [string]; the model covers ASCII text (one [ascii] per
      character), so [\w], [\s], [\d] and [str.lower] are their ASCII
      restrictions.
    - [int] is [Z] (unbounded, as in Python); the conversion [int(s)] of
      a [str] refuses a literal of more than 4300 digits, the default
      of [sys.get_int_max_str_digits()].
    - a [dict] is an association list that keeps insertion order and is
      updated in place ([dict_set]), because the program iterates over its
      dictionaries.
    - exceptions are an [error] value threaded through a small
      state-and-error monad; the state is the random source.
    - the libraries that are not part of the repository ([random],
      [uuid], [Faker], the [repr] of floats) are the fields of the class
      [Runtime], constrained only by their documented contracts. *)

From Stdlib Require Import ZArith List String Ascii Bool Lia Arith.
From Stdlib Require Import Floats.SpecFloat.
Import ListNotations.

Local Open Scope string_scope.
Local Open Scope Z_scope.

(** ** Python [str] methods *)

Module PyStr.

(** [str.isspace] on one ASCII character: TAB, LF, VT, FF, CR, the four
    separators FS GS RS US, and the space. *)
Definition is_space (c : ascii) : bool :=
  let n := N_of_ascii c in
  (((9 <=? n) && (n <=? 13)) || ((28 <=? n) && (n <=? 32)))%N.

Definition is_digit (c : ascii) : bool :=
  let n := N_of_ascii c in ((48 <=? n) && (n <=? 57))%N.

Definition is_upper (c : ascii) : bool :=
  let n := N_of_ascii c in ((65 <=? n) && (n <=? 90))%N.

Definition is_lower (c : ascii) : bool :=
  let n := N_of_ascii c in ((97 <=? n) && (n <=? 122))%N.

(** [\w] restricted to ASCII: letters, digits and the underscore. *)
Definition is_word (c : ascii) : bool :=
  is_upper c || is_lower c || is_digit c || Ascii.eqb c "_".

Definition lower_char (c : ascii) : ascii :=
  if is_upper c then ascii_of_N (N_of_ascii c + 32) else c.

(** [s.lower()] *)
Fixpoint lower (s : string) : string :=
  match s with
  | EmptyString => EmptyString
  | String c s' => String (lower_char c) (lower s')
  end.

Fixpoint lstrip_by (p : ascii -> bool) (s : string) : string :=
  match s with
  | EmptyString => EmptyString
  | String c s' => if p c then lstrip_by p s' else s
  end.

Fixpoint rstrip_by (p : ascii -> bool) (s : string) : string :=
  match s with
  | EmptyString => EmptyString
  | String c s' =>
      match rstrip_by p s' with
      | EmptyString => if p c then EmptyString else String c EmptyString
      | t => String c t
      end
  end.

(** [s.strip()] *)
Definition strip (s : string) : string :=
  rstrip_by is_space (lstrip_by is_space s).

(** [s.rstrip(',')] *)
Definition rstrip_comma (s : string) : string :=
  rstrip_by (Ascii.eqb ",") s.

(** [s.startswith(p)] *)
Definition startswith (p s : string) : bool := String.prefix p s.

(** [s.startswith(t)] for a tuple [t] of prefixes. *)
Definition startswith_any (ps : list string) (s : string) : bool :=
  existsb (fun p => startswith p s) ps.

Fixpoint rev_acc (s acc : string) : string :=
  match s with
  | EmptyString => acc
  | String c s' => rev_acc s' (String c acc)
  end.

Definition rev (s : string) : string := rev_acc s EmptyString.

(** [s.endswith(p)] *)
Definition endswith (p s : string) : bool := String.prefix (rev p) (rev s).

(** [sub in s] *)
Fixpoint contains (sub s : string) : bool :=
  String.prefix sub s ||
  match s with
  | EmptyString => false
  | String _ s' => contains sub s'
  end.

(** [any(k in s for k in ks)] *)
Definition contains_any (ks : list string) (s : string) : bool :=
  existsb (fun k => contains k s) ks.

(** [s.replace(old, new)] for a non-empty [old]: occurrences are found
    left to right and do not overlap.  [skip] counts the characters of an
    occurrence that are still to be passed over. *)
Fixpoint replace_go (old new : string) (skip : nat) (s : string) : string :=
  match s with
  | EmptyString => EmptyString
  | String c s' =>
      match skip with
      | S k => replace_go old new k s'
      | O =>
          if String.prefix old s
          then new ++ replace_go old new (Nat.pred (String.length old)) s'
          else String c (replace_go old new O s')
      end
  end.

(** With an empty [old] Python inserts [new] before every character and
    at the end. *)
Fixpoint interleave (new s : string) : string :=
  match s with
  | EmptyString => new
  | String c s' => new ++ String c (interleave new s')
  end.

Definition replace (old new s : string) : string :=
  match old with
  | EmptyString => interleave new s
  | _ => replace_go old new O s
  end.

(** [s.split(sep)] for a one-character separator. *)
Fixpoint split (sep : ascii) (s : string) : list string :=
  match s with
  | EmptyString => [EmptyString]
  | String c s' =>
      if Ascii.eqb c sep then EmptyString :: split sep s'
      else match split sep s' with
           | h :: t => String c h :: t
           | [] => [String c EmptyString]
           end
  end.

(** [s.split(sep, 1)]: at most one cut, at the first separator. *)
Fixpoint split1 (sep : ascii) (s : string) : list string :=
  match s with
  | EmptyString => [EmptyString]
  | String c s' =>
      if Ascii.eqb c sep then [EmptyString; s']
      else match split1 sep s' with
           | h :: t => String c h :: t
           | [] => [String c EmptyString]
           end
  end.

(** [sep.join(parts)] *)
Fixpoint join (sep : string) (parts : list string) : string :=
  match parts with
  | [] => EmptyString
  | [p] => p
  | p :: rest => p ++ sep ++ join sep rest
  end.

Fixpoint take (n : nat) (s : string) : string :=
  match n, s with
  | S k, String c s' => String c (take k s')
  | _, _ => EmptyString
  end.

Fixpoint drop (n : nat) (s : string) : string :=
  match n, s with
  | S k, String _ s' => drop k s'
  | _, _ => s
  end.

(** [c * n] for a one-character string [c]. *)
Fixpoint repeat_char (c : ascii) (n : nat) : string :=
  match n with
  | O => EmptyString
  | S k => String c (repeat_char c k)
  end.

Definition is_empty (s : string) : bool :=
  match s with EmptyString => true | _ => false end.

End PyStr.

(** ** A backtracking matcher for the two patterns of the parser

    The patterns use literals (compared without case, [re.IGNORECASE]),
    character sets, sequence, greedy [?], greedy [*] and [+], named
    groups, [^] and [$].  The matcher tries alternatives in Python's order
    and calls a continuation on the rest of the input, so the first
    success is the match Python reports. *)

Module Re.
Import PyStr.

Inductive regex : Type :=
| REps
| RLit (c : ascii)
| RSet (p : ascii -> bool)
| RSeq (a b : regex)
| ROpt (a : regex)
| RStar (a : regex)
| RGroup (g : string) (a : regex)
| RBol
| REol.

Definition RPlus (a : regex) : regex := RSeq a (RStar a).

Fixpoint RWord (w : string) : regex :=
  match w with
  | EmptyString => REps
  | String c w' => RSeq (RLit c) (RWord w')
  end.

Fixpoint RSeqs (rs : list regex) : regex :=
  match rs with
  | [] => REps
  | r :: rest => RSeq r (RSeqs rest)
  end.

(** The groups that took part in a match, latest binding first. *)
Definition captures := list (string * string).

Definition cont := string -> captures -> option captures.

(** [rmatch fuel n0 r s caps k] matches [r] at the front of [s], the
    input being [n0] characters long in all.  [fuel] bounds the
    iterations of [*]; every iteration has to consume a character, so
    any [fuel] of at least the length of [s] is enough, and with none left
    there is no input left to iterate over. *)
Fixpoint rmatch (fuel : nat) (n0 : nat)
  : regex -> string -> captures -> cont -> option captures :=
  fix go (r : regex) (s : string) (caps : captures) (k : cont)
    {struct r} : option captures :=
    match r with
    | REps => k s caps
    | RLit c =>
        match s with
        | String d s' =>
            if Ascii.eqb (lower_char d) (lower_char c) then k s' caps else None
        | EmptyString => None
        end
    | RSet p =>
        match s with
        | String d s' => if p d then k s' caps else None
        | EmptyString => None
        end
    | RSeq a b => go a s caps (fun s1 c1 => go b s1 c1 k)
    | ROpt a =>
        match go a s caps k with
        | Some m => Some m
        | None => k s caps
        end
    | RStar a =>
        match fuel with
        | O => k s caps
        | S f =>
            match go a s caps
                    (fun s1 c1 =>
                       if (String.length s1 <? String.length s)%nat
                       then rmatch f n0 (RStar a) s1 c1 k
                       else None) with
            | Some m => Some m
            | None => k s caps
            end
        end
    | RGroup g a =>
        go a s caps
           (fun s1 c1 =>
              k s1 ((g, take (String.length s - String.length s1) s) :: c1))
    | RBol => if (String.length s =? n0)%nat then k s caps else None
    | REol =>
        match s with
        | EmptyString => k s caps
        | String c EmptyString =>
            if Ascii.eqb c "010" then k s caps else None
        | _ => None
        end
    end.

(** [pattern.match(s)] *)
Definition re_match (r : regex) (s : string) : option captures :=
  rmatch (S (String.length s)) (String.length s) r s []
         (fun _ c => Some c).

Fixpoint search_from (r : regex) (n0 : nat) (s : string) : option captures :=
  match rmatch (S (String.length s)) n0 r s [] (fun _ c => Some c) with
  | Some m => Some m
  | None =>
      match s with
      | EmptyString => None
      | String _ s' => search_from r n0 s'
      end
  end.

(** [pattern.search(s)] *)
Definition re_search (r : regex) (s : string) : option captures :=
  search_from r (String.length s) s.

(** [m.group(g)]: [None] when the group took no part in the match. *)
Fixpoint group (m : captures) (g : string) : option string :=
  match m with
  | [] => None
  | (g', v) :: rest => if String.eqb g g' then Some v else group rest g
  end.

End Re.

(** ** Schema parser *)

Import PyStr Re.

(** The column descriptor: the dict with keys ['name'], ['type'], ['lens']. *)
Record ColumnSpec : Type := mkCol {
  name : string;
  type : string;
  lens : string
}.

Definition ws : regex := RSet is_space.
Definition word : regex := RSet is_word.
Definition digit : regex := RSet is_digit.
Definition dquote : regex := RLit (ascii_of_N 34).

(** [table_re], verbose and without case; Q stands for the double quote:
    [CREATE\s+TABLE\s+(?:IF\s+NOT\s+EXISTS\s+)?
     (?:(?P<schema>Q?\w+Q?)\.)?Q?(?P<name>\w+)Q?] *)
Definition table_re : regex :=
  RSeqs [ RWord "CREATE"; RPlus ws; RWord "TABLE"; RPlus ws;
          ROpt (RSeqs [ RWord "IF"; RPlus ws; RWord "NOT"; RPlus ws;
                        RWord "EXISTS"; RPlus ws ]);
          ROpt (RSeqs [ RGroup "schema"
                          (RSeqs [ROpt dquote; RPlus word; ROpt dquote]);
                        RLit "." ]);
          ROpt dquote; RGroup "name" (RPlus word); ROpt dquote ].

(** One character of a type word: [[^(),\s]]. *)
Definition type_char (c : ascii) : bool :=
  negb (Ascii.eqb c "(" || Ascii.eqb c ")" || Ascii.eqb c "," || is_space c).

(** [col_re], verbose and without case (Q stands for the double quote,
    and the pattern is spaced out as verbose mode allows):
    [^ \s* Q? (?P<col> \w+ ) Q? \s+
     (?P<type> [^(),\s]+ (?: \s+ [^(),\s]+ )* )
     (?: \( (?P<lens> \d+ (?: , \d+ )? ) \) )?
     \s* (?: , )? \s* $] *)
Definition col_re : regex :=
  RSeqs [ RBol; RStar ws; ROpt dquote; RGroup "col" (RPlus word);
          ROpt dquote; RPlus ws;
          RGroup "type"
            (RSeq (RPlus (RSet type_char))
                  (RStar (RSeq (RPlus ws) (RPlus (RSet type_char)))));
          ROpt (RSeqs [ RLit "(";
                        RGroup "lens"
                          (RSeq (RPlus digit)
                                (ROpt (RSeq (RLit ",") (RPlus digit))));
                        RLit ")" ]);
          RStar ws; ROpt (RLit ","); RStar ws; REol ].

Definition constraint_starts : list string :=
  [ "primary key"; "foreign key"; "unique"; "check"; "constraint";
    "index"; "key"; "references" ].

(** [x or ''] for an optional string. *)
Definition or_empty (o : option string) : string :=
  match o with Some s => s | None => EmptyString end.

(** The loop of [parse_schema_file] over the lines the file yields, from
    the state ([tbl], [cols]).  [break] returns at once. *)
Fixpoint parse_lines (tbl : option string) (cols : list ColumnSpec)
    (lines : list string) : option string * list ColumnSpec :=
  match lines with
  | [] => (tbl, cols)
  | raw :: rest =>
      let line := strip raw in
      if is_empty line then parse_lines tbl cols rest
      else
        match tbl with
        | None =>
            match re_search table_re line with
            | Some m => parse_lines (group m "name") cols rest
            | None => parse_lines None cols rest
            end
        | Some _ =>
            if startswith ")" line || endswith ");" line then (tbl, cols)
            else if startswith_any constraint_starts (lower line)
            then parse_lines tbl cols rest
            else
              match re_match col_re (rstrip_comma line) with
              | Some m =>
                  parse_lines tbl
                    (cols ++ [ mkCol (or_empty (group m "col"))
                                     (strip (or_empty (group m "type")))
                                     (strip (or_empty (group m "lens"))) ])
                    rest
              | None => parse_lines tbl cols rest
              end
        end
  end.

(** A schema file is the list of its lines, as iteration over the open
    file yields them. *)
Definition parse_schema_file (lines : list string)
  : option string * list ColumnSpec :=
  parse_lines None [] lines.

(** ** Numbers and their text *)

Module PyNum.
Import PyStr.

Definition digit_char (d : Z) : ascii := ascii_of_N (48 + Z.to_N d).

Definition digit_val (c : ascii) : Z := Z.of_N (N_of_ascii c) - 48.

(** The decimal digits of [n >= 0], most significant first.  [fuel]
    bounds the number of digits. *)
Fixpoint digits_go (fuel : nat) (n : Z) (acc : string) : string :=
  match fuel with
  | O => acc
  | S f =>
      let acc' := String (digit_char (n mod 10)) acc in
      if n <? 10 then acc' else digits_go f (n / 10) acc'
  end.

(** [str(n)] for [n >= 0]; a number has at most [log2 n + 1] digits. *)
Definition nat_str (n : Z) : string :=
  digits_go (S (Z.to_nat (Z.log2 n))) n EmptyString.

(** [str(z)] for an [int]. *)
Definition int_str (z : Z) : string :=
  if z <? 0 then String "-" (nat_str (- z)) else nat_str z.

(** [len(str(n))] for [n >= 0]. *)
Definition ndigits (n : Z) : Z := Z.of_nat (String.length (nat_str n)).

(** ['%0*d' % (width, n)] for [n >= 0]. *)
Definition zpad (width : nat) (n : Z) : string :=
  let s := nat_str n in
  repeat_char "0" (width - String.length s) ++ s.

(** The white space [int] skips around an ASCII literal: TAB, LF, VT, FF,
    CR and the space (the separators FS to US are not skipped). *)
Definition is_c_space (c : ascii) : bool :=
  let n := N_of_ascii c in (((9 <=? n) && (n <=? 13)) || (n =? 32))%N.

(** The digits of a literal, with single underscores between them, read
    from the left; [None] where the text is not of that form. *)
Fixpoint int_digits (s : string) (acc : Z) (after_digit : bool) : option Z :=
  match s with
  | EmptyString => if after_digit then Some acc else None
  | String c s' =>
      if is_digit c then int_digits s' (10 * acc + digit_val c) true
      else if Ascii.eqb c "_" && after_digit then
        match s' with
        | EmptyString => None
        | _ => int_digits s' acc false
        end
      else None
  end.

(** The number of digits in a text. *)
Fixpoint count_digits (s : string) : nat :=
  match s with
  | EmptyString => O
  | String c s' =>
      if is_digit c then S (count_digits s') else count_digits s'
  end.

(** [sys.get_int_max_str_digits()], at its default: [int] refuses a
    decimal literal of more digits, leading zeros counted, underscores
    not (CPython 3.11 and later, and the releases of 3.7 to 3.10 that
    carry the same limit). *)
Definition int_max_str_digits : nat := 4300.

(** The literal after the sign: digits within the limit. *)
Definition int_literal (t : string) : option Z :=
  if (count_digits t <=? int_max_str_digits)%nat
  then int_digits t 0 false
  else None.

(** [int(s)] for a [str]: surrounding white space, an optional sign,
    decimal digits, single underscores between digits, at most
    [int_max_str_digits] digits.  [None] stands for the [ValueError],
    which is what a malformed literal and a literal over the limit both
    raise. *)
Definition py_int (s : string) : option Z :=
  match rstrip_by is_c_space (lstrip_by is_c_space s) with
  | String "-" t => option_map Z.opp (int_literal t)
  | String "+" t => int_literal t
  | t => int_literal t
  end.

End PyNum.

(** ** [decimal.Decimal] in the default context

    A finite decimal is a sign, a coefficient and an exponent:
    [(-1)^sign * coefficient * 10^exponent].  The default context has
    precision 28, rounding [ROUND_HALF_EVEN], [Emax = 999999],
    [Emin = -999999], no clamping, and traps [Overflow],
    [DivisionByZero] and [InvalidOperation]; a trapped signal is [None]
    here.  NaNs and infinities do not arise. *)

Module Dec.
Import PyStr PyNum.

Record Decimal : Type := mkDec {
  d_sign : bool;
  d_int : Z;
  d_exp : Z
}.

Definition prec : Z := 28.
Definition Emax : Z := 999999.
Definition Emin : Z := -999999.
Definition Etiny : Z := Emin - prec + 1.
Definition Etop : Z := Emax - prec + 1.

(** [Decimal(n)] for an [int]: exact, whatever the context. *)
Definition dec_of_int (n : Z) : Decimal := mkDec (n <? 0) (Z.abs n) 0.

(** Keep the first [digits] digits of the coefficient [c] and report
    whether [ROUND_HALF_EVEN] rounds the kept part up:
    the part cut off is more than a half, or exactly a half with an odd
    digit before it. *)
Definition cut_half_even (c digits : Z) : Z * bool :=
  let k := ndigits c - digits in
  let q := c / 10 ^ k in
  let r := c mod 10 ^ k in
  let half := 5 * 10 ^ (k - 1) in
  (q, (half <? r) || ((r =? half) && Z.odd q)).

(** [Decimal._fix]: round to the precision of the context. *)
Definition dec_fix (d : Decimal) : option Decimal :=
  if d_int d =? 0 then
    Some (mkDec (d_sign d) 0 (Z.min (Z.max (d_exp d) Etiny) Emax))
  else
    let exp_min0 := ndigits (d_int d) + d_exp d - prec in
    if exp_min0 >? Etop then None
    else
      let exp_min := Z.max exp_min0 Etiny in
      if d_exp d <? exp_min then
        let digits0 := ndigits (d_int d) + d_exp d - exp_min in
        let '(c, digits) :=
          if digits0 <? 0 then (1, 0) else (d_int d, digits0) in
        let '(q, up) := cut_half_even c digits in
        let '(coeff, exp_min') :=
          if up then
            if ndigits (q + 1) >? prec then ((q + 1) / 10, exp_min + 1)
            else (q + 1, exp_min)
          else (q, exp_min) in
        if exp_min' >? Etop then None
        else Some (mkDec (d_sign d) coeff exp_min')
      else Some d.

(** [Decimal._rescale(exp, ROUND_HALF_EVEN)] *)
Definition dec_rescale (d : Decimal) (exp : Z) : Decimal :=
  if d_int d =? 0 then mkDec (d_sign d) 0 exp
  else if d_exp d >=? exp then
    mkDec (d_sign d) (d_int d * 10 ^ (d_exp d - exp)) exp
  else
    let digits0 := ndigits (d_int d) + d_exp d - exp in
    let '(c, digits) :=
      if digits0 <? 0 then (1, 0) else (d_int d, digits0) in
    let '(q, up) := cut_half_even c digits in
    mkDec (d_sign d) (if up then q + 1 else q) exp.

(** The loop of [__truediv__] on an exact quotient: drop trailing zeros
    while the exponent is below the ideal one.  [n] is the distance to the
    ideal exponent, which each turn reduces by one. *)
Fixpoint strip_zeros (n : nat) (coeff exp : Z) : Z * Z :=
  match n with
  | O => (coeff, exp)
  | S n' =>
      if coeff mod 10 =? 0 then strip_zeros n' (coeff / 10) (exp + 1)
      else (coeff, exp)
  end.

(** [a / b] *)
Definition dec_div (a b : Decimal) : option Decimal :=
  let sign := xorb (d_sign a) (d_sign b) in
  if d_int b =? 0 then None
  else if d_int a =? 0 then dec_fix (mkDec sign 0 (d_exp a - d_exp b))
  else
    let shift := ndigits (d_int b) - ndigits (d_int a) + prec + 1 in
    let exp := d_exp a - d_exp b - shift in
    let '(coeff, remainder) :=
      if shift >=? 0
      then (d_int a * 10 ^ shift / d_int b, (d_int a * 10 ^ shift) mod d_int b)
      else (d_int a / (d_int b * 10 ^ (- shift)),
            d_int a mod (d_int b * 10 ^ (- shift))) in
    let '(coeff, exp) :=
      if negb (remainder =? 0) then
        ((if coeff mod 5 =? 0 then coeff + 1 else coeff), exp)
      else
        let ideal_exp := d_exp a - d_exp b in
        strip_zeros (Z.to_nat (ideal_exp - exp)) coeff exp in
    dec_fix (mkDec sign coeff exp).

(** [_normalize(op1, op2, prec)]: bring both operands to one exponent. *)
Definition normalize (op1 op2 : Z * Z) : (Z * Z) * (Z * Z) :=
  let swap := snd op1 <? snd op2 in
  let tmp := if swap then op2 else op1 in
  let other := if swap then op1 else op2 in
  let exp := snd tmp + Z.min (-1) (ndigits (fst tmp) - prec - 2) in
  let other :=
    if ndigits (fst other) + snd other - 1 <? exp then (1, exp) else other in
  let tmp := (fst tmp * 10 ^ (snd tmp - snd other), snd other) in
  if swap then (other, tmp) else (tmp, other).

(** [a + b] *)
Definition dec_add (a b : Decimal) : option Decimal :=
  let exp := Z.min (d_exp a) (d_exp b) in
  if (d_int a =? 0) && (d_int b =? 0) then
    dec_fix (mkDec (d_sign a && d_sign b) 0 exp)
  else if d_int a =? 0 then
    dec_fix (dec_rescale b (Z.max exp (d_exp b - prec - 1)))
  else if d_int b =? 0 then
    dec_fix (dec_rescale a (Z.max exp (d_exp a - prec - 1)))
  else
    let '(op1, op2) := normalize (d_int a, d_exp a) (d_int b, d_exp b) in
    if negb (Bool.eqb (d_sign a) (d_sign b)) then
      if fst op1 =? fst op2 then dec_fix (mkDec false 0 exp)
      else
        let '(big, small, big_sign) :=
          if fst op1 <? fst op2 then (op2, op1, d_sign b)
          else (op1, op2, d_sign a) in
        dec_fix (mkDec big_sign (fst big - fst small) (snd big))
    else
      dec_fix (mkDec (d_sign a) (fst op1 + fst op2) (snd op1)).

(** [Decimal(10) ** n] for an [int] [n > 0], the one power the program
    takes.  An exponent of seven digits or more overflows at once;
    otherwise the power is exact, written with up to [prec] zeros. *)
Definition dec_pow10 (n : Z) : option Decimal :=
  if ndigits n - 1 >=? ndigits Emax then dec_fix (mkDec false 1 (Emax + 1))
  else
    let zeros := Z.min n prec in
    dec_fix (mkDec false (10 ^ zeros) (n - zeros)).

(** ['%+d' % n] *)
Definition signed_str (n : Z) : string :=
  if n <? 0 then int_str n else String "+" (int_str n).

(** The three parts [intpart], [fracpart], [exp] that [__str__] joins. *)
Definition dec_str_parts (d : Decimal) : string * string * string :=
  let digits := nat_str (d_int d) in
  let len := Z.of_nat (String.length digits) in
  let leftdigits := d_exp d + len in
  let dotplace :=
    if (d_exp d <=? 0) && (leftdigits >? -6) then leftdigits else 1 in
  let '(intpart, fracpart) :=
    if dotplace <=? 0 then
      ("0", String "." (repeat_char "0" (Z.to_nat (- dotplace)) ++ digits))
    else if dotplace >=? len then
      (digits ++ repeat_char "0" (Z.to_nat (dotplace - len)), EmptyString)
    else
      (take (Z.to_nat dotplace) digits,
       String "." (drop (Z.to_nat dotplace) digits)) in
  let exp :=
    if leftdigits =? dotplace then EmptyString
    else String "E" (signed_str (leftdigits - dotplace)) in
  (intpart, fracpart, exp).

(** [str(d)] *)
Definition dec_str (d : Decimal) : string :=
  let '(intpart, fracpart, exp) := dec_str_parts d in
  (if d_sign d then "-" else EmptyString) ++ intpart ++ fracpart ++ exp.

End Dec.

(** ** Dates, times and generated values *)

Import PyNum Dec.

(** [datetime.date] *)
Record date : Type := mkDate { year : Z; month : Z; day : Z }.

(** [datetime.time] without time zone. *)
Record time : Type := mkTime {
  hour : Z; minute : Z; second : Z; microsecond : Z
}.

(** [datetime.datetime] without time zone. *)
Record datetime : Type := mkDateTime { dt_date : date; dt_time : time }.

(** [date.isoformat()] *)
Definition date_iso (d : date) : string :=
  zpad 4 (year d) ++ "-" ++ zpad 2 (month d) ++ "-" ++ zpad 2 (day d).

(** [time.isoformat(timespec='seconds')] *)
Definition time_iso_seconds (t : time) : string :=
  zpad 2 (hour t) ++ ":" ++ zpad 2 (minute t) ++ ":" ++ zpad 2 (second t).

(** [datetime.isoformat(sep=' ', timespec='seconds')] *)
Definition datetime_iso_seconds (dt : datetime) : string :=
  date_iso (dt_date dt) ++ " " ++ time_iso_seconds (dt_time dt).

(** The values a row holds, by Python type.  A [float] is an IEEE
    binary64 number ([spec_float] at precision 53). *)
Inductive value : Type :=
| VNone
| VBool (b : bool)
| VInt (z : Z)
| VFloat (f : spec_float)
| VDecimal (d : Decimal)
| VDateTime (dt : datetime)
| VDate (d : date)
| VTime (t : time)
| VStr (s : string).

(** *** Python's [==] on values

    Numbers ([bool], [int], [float], [Decimal]) compare by exact
    numerical value across types.  A finite number is kept as
    [m * 2^e2 * 10^e10]. *)
Definition exact : Type := (Z * Z * Z)%type.

Definition exact_eqb (a b : exact) : bool :=
  let '(m1, a1, b1) := a in
  let '(m2, a2, b2) := b in
  let a0 := Z.min a1 a2 in
  let b0 := Z.min b1 b2 in
  m1 * 2 ^ (a1 - a0) * 10 ^ (b1 - b0) =? m2 * 2 ^ (a2 - a0) * 10 ^ (b2 - b0).

Definition signed (s : bool) (m : Z) : Z := if s then - m else m.

(** The exact value of a number; [None] for a NaN or an infinity and for
    what is not a number. *)
Definition exact_of (v : value) : option exact :=
  match v with
  | VBool b => Some ((if b then 1 else 0), 0, 0)
  | VInt z => Some (z, 0, 0)
  | VFloat (S754_zero _) => Some (0, 0, 0)
  | VFloat (S754_finite s m e) => Some (signed s (Zpos m), e, 0)
  | VDecimal d => Some (signed (d_sign d) (d_int d), 0, d_exp d)
  | _ => None
  end.

Definition is_number (v : value) : bool :=
  match v with
  | VBool _ | VInt _ | VFloat _ | VDecimal _ => true
  | _ => false
  end.

Definition date_eqb (a b : date) : bool :=
  (year a =? year b) && (month a =? month b) && (day a =? day b).

Definition time_eqb (a b : time) : bool :=
  (hour a =? hour b) && (minute a =? minute b) && (second a =? second b)
  && (microsecond a =? microsecond b).

(** [a == b] *)
Definition py_eq (a b : value) : bool :=
  match a, b with
  | VNone, VNone => true
  | VFloat (S754_infinity s1), VFloat (S754_infinity s2) => Bool.eqb s1 s2
  | VStr s1, VStr s2 => String.eqb s1 s2
  | VDate d1, VDate d2 => date_eqb d1 d2
  | VTime t1, VTime t2 => time_eqb t1 t2
  | VDateTime d1, VDateTime d2 =>
      date_eqb (dt_date d1) (dt_date d2) && time_eqb (dt_time d1) (dt_time d2)
  | _, _ =>
      match exact_of a, exact_of b with
      | Some x, Some y => exact_eqb x y
      | _, _ => false
      end
  end.

(** Equality of two tuples: same length, equal item by item. *)
Fixpoint tuple_eq (a b : list value) : bool :=
  match a, b with
  | [], [] => true
  | x :: a', y :: b' => py_eq x y && tuple_eq a' b'
  | _, _ => false
  end.

(** ** Dictionaries that keep insertion order *)

Section Dict.
Context {V : Type}.

(** [d[k] = v]: a key already present keeps its place. *)
Fixpoint dict_set (k : string) (v : V) (d : list (string * V))
  : list (string * V) :=
  match d with
  | [] => [(k, v)]
  | (k', v') :: rest =>
      if String.eqb k k' then (k', v) :: rest
      else (k', v') :: dict_set k v rest
  end.

(** [d.get(k)] *)
Fixpoint dict_get (k : string) (d : list (string * V)) : option V :=
  match d with
  | [] => None
  | (k', v') :: rest => if String.eqb k k' then Some v' else dict_get k rest
  end.

(** [k in d] *)
Definition dict_mem (k : string) (d : list (string * V)) : bool :=
  match dict_get k d with Some _ => true | None => false end.

End Dict.

Definition Row : Type := list (string * value).
Definition Schemas : Type := list (string * list ColumnSpec).

(** ** Errors *)

Inductive error : Type :=
| SystemExit (msg : string)
| RuntimeError (msg : string)
| KeyError (key : string)
| ValueError
| DecimalSignal.

Inductive result (A : Type) : Type :=
| Ok (a : A)
| Err (e : error).
Arguments Ok {A} a.
Arguments Err {A} e.

(** ** The libraries outside the repository

    [rng] is the state of every source of randomness the program reads:
    the generator of the [random] module, the one inside [Faker], and the
    entropy behind [uuid4].  Each operation returns its result and the
    next state.  The laws are the documented contracts the program relies
    on. *)
Class Runtime : Type := {
  rng : Type;
  (** [random.randint(a, b)]: an integer [n] with [a <= n <= b]. *)
  randint : Z -> Z -> rng -> Z * rng;
  randint_range : forall a b r, a <= b -> a <= fst (randint a b r) <= b;
  (** [random.uniform(a, b)] for integer bounds. *)
  uniform : Z -> Z -> rng -> spec_float * rng;
  (** [random.choice(seq)]: an element of a non-empty sequence. *)
  choice : list value -> rng -> value * rng;
  choice_In : forall l r, l <> [] -> In (fst (choice l r)) l;
  (** [str(uuid.uuid4())] *)
  uuid4_str : rng -> string * rng;
  (** [fake.pystr(min_chars=lo, max_chars=hi)]: a string of letters whose
      length lies between [lo] and [hi]. *)
  pystr : Z -> Z -> rng -> string * rng;
  pystr_length : forall lo hi r, 0 <= lo <= hi ->
    lo <= Z.of_nat (String.length (fst (pystr lo hi r))) <= hi;
  (** [fake.date_object()], [fake.date_time()] *)
  date_object : rng -> date * rng;
  date_time : rng -> datetime * rng;
  (** [fake.paragraph(nb_sentences=n)], [fake.word()] *)
  paragraph : Z -> rng -> string * rng;
  fake_word : rng -> string * rng;
  (** [str(x)] for a [float]. *)
  float_str : spec_float -> string
}.

(** ** Computations that draw random values and may raise *)

Section Generation.
Context {RT : Runtime}.

Definition M (A : Type) : Type := rng -> result (A * rng).

Definition ret {A} (a : A) : M A := fun r => Ok (a, r).

Definition bind {A B} (c : M A) (f : A -> M B) : M B :=
  fun r =>
    match c r with
    | Ok (a, r') => f a r'
    | Err e => Err e
    end.

Definition raise {A} (e : error) : M A := fun _ => Err e.

(** A call into the runtime: it draws and cannot raise. *)
Definition draw {A} (f : rng -> A * rng) : M A := fun r => Ok (f r).

(** [None] raises [e]. *)
Definition try_or {A} (e : error) (o : option A) : M A :=
  match o with
  | Some a => ret a
  | None => raise e
  end.

Notation "x <- c ;; k" := (bind c (fun x => k))
  (at level 61, c at next level, right associativity).

(** ** Value generator *)

Definition _int_between (max_value : Z) : M Z := draw (randint 0 max_value).

Definition _decimal_random (precision scale : Z) : M Decimal :=
  let precision := if precision <=? 0 then 10 else precision in
  let scale := if scale <? 0 then 0 else scale in
  let left := Z.max 0 (precision - scale) in
  let max_whole := if left >? 0 then 10 ^ left - 1 else 0 in
  whole <- (if left >? 0 then draw (randint 0 max_whole) else ret 0) ;;
  frac <- (if scale >? 0 then draw (randint 0 (10 ^ scale - 1)) else ret 0) ;;
  let val := dec_of_int whole in
  if scale >? 0 then
    p10 <- try_or DecimalSignal (dec_pow10 scale) ;;
    q <- try_or DecimalSignal (dec_div (dec_of_int frac) p10) ;;
    try_or DecimalSignal (dec_add val q)
  else ret val.

Definition clamp_len (n : Z) : Z := Z.max 1 (Z.min n 255).

Definition _char_exact (n : Z) : M string :=
  let n := clamp_len n in
  draw (pystr n n).

Definition _char_up_to (n : Z) : M string :=
  let n := clamp_len n in
  draw (pystr 1 n).

(** [time(hour=h, minute=m, second=s)]; a field out of range is a
    [ValueError]. *)
Definition make_time (h m s : Z) : M time :=
  if (0 <=? h) && (h <? 24) && (0 <=? m) && (m <? 60)
     && (0 <=? s) && (s <? 60)
  then ret (mkTime h m s 0)
  else raise ValueError.

(** [int(lens.split(',')[0]) if lens else default] *)
Definition first_len (lens : string) (default : Z) : M Z :=
  if is_empty lens then ret default
  else try_or ValueError (py_int (hd EmptyString (split "," lens))).

(** The precision and scale of a [numeric]: the [try] block falls back
    to [(10, 0)] when [int] refuses either number. *)
Definition precision_scale (lens : string) : Z * Z :=
  if is_empty lens then (10, 0)
  else
    match split "," lens with
    | p0 :: rest =>
        match py_int p0 with
        | Some p =>
            match rest with
            | s0 :: _ =>
                match py_int s0 with
                | Some s => (p, s)
                | None => (10, 0)
                end
            | [] => (p, 0)
            end
        | None => (10, 0)
        end
    | [] => (10, 0)
    end.

(** The type string the dispatch looks at. *)
Definition normalize_type (ty : string) : string :=
  replace "double precision" "float8"
    (replace "character varying" "varchar" (lower (strip ty))).

Definition generate_random (col_def : ColumnSpec) : M value :=
  let t_norm := normalize_type (type col_def) in
  let lens := strip (lens col_def) in
  if contains_any ["bigint"; "int8"] t_norm then
    z <- _int_between 9000000000 ;; ret (VInt z)
  else if contains_any ["smallint"; "int2"] t_norm then
    z <- _int_between 32000 ;; ret (VInt z)
  else if contains_any ["integer"; "int"; "int4"] t_norm then
    z <- _int_between 1000000 ;; ret (VInt z)
  else if contains "numeric" t_norm || contains "decimal" t_norm then
    let '(p, s) := precision_scale lens in
    d <- _decimal_random p s ;; ret (VDecimal d)
  else if contains_any ["float"; "double"; "real"] t_norm then
    f <- draw (uniform 0 1000000) ;; ret (VFloat f)
  else if contains "uuid" t_norm then
    u <- draw uuid4_str ;; ret (VStr u)
  else if contains "bool" t_norm then
    draw (choice [VBool true; VBool false])
  else if String.eqb (strip t_norm) "date" then
    d <- draw date_object ;; ret (VDate d)
  else if contains "timestamp" t_norm then
    dt <- draw date_time ;; ret (VDateTime dt)
  else if String.eqb (strip t_norm) "time" || startswith "time " t_norm then
    h <- draw (randint 0 23) ;;
    m <- draw (randint 0 59) ;;
    s <- draw (randint 0 59) ;;
    t <- make_time h m s ;; ret (VTime t)
  else if contains "varchar" t_norm || contains "nvarchar" t_norm
          || contains "varying" t_norm then
    max_len <- first_len lens 32 ;;
    s <- _char_up_to max_len ;; ret (VStr s)
  else if contains "bpchar" t_norm || startswith "char" t_norm then
    n <- first_len lens 1 ;;
    s <- _char_exact n ;; ret (VStr s)
  else if existsb (String.eqb t_norm) ["text"; "json"; "jsonb"] then
    s <- draw (paragraph 2) ;; ret (VStr s)
  else
    w <- draw fake_word ;; ret (VStr w).

(** ** SQL text *)

Definition sq : string := "'".

Definition to_sql_literal (val : value) : string :=
  match val with
  | VNone => "NULL"
  | VBool b => if b then "TRUE" else "FALSE"
  | VInt z => int_str z
  | VFloat f => float_str f
  | VDecimal d => dec_str d
  | VDateTime dt => sq ++ datetime_iso_seconds dt ++ sq
  | VDate d => sq ++ date_iso d ++ sq
  | VTime t => sq ++ time_iso_seconds t ++ sq
  | VStr s => sq ++ replace "'" "''" s ++ sq
  end.

(** [row[k]] *)
Definition row_get (row : Row) (k : string) : result value :=
  match dict_get k row with
  | Some v => Ok v
  | None => Err (KeyError k)
  end.

(** [[f(x) for x in xs]] where [f] may raise. *)
Fixpoint map_result {A B} (f : A -> result B) (xs : list A)
  : result (list B) :=
  match xs with
  | [] => Ok []
  | x :: rest =>
      match f x with
      | Err e => Err e
      | Ok y =>
          match map_result f rest with
          | Err e => Err e
          | Ok ys => Ok (y :: ys)
          end
      end
  end.

Definition dq : string := String (ascii_of_N 34) EmptyString.
Definition nl : string := String (ascii_of_N 10) EmptyString.

Definition values_line (cols : list ColumnSpec) (row : Row) : result string :=
  match map_result (fun c => row_get row (name c)) cols with
  | Err e => Err e
  | Ok vals => Ok ("(" ++ join ", " (map to_sql_literal vals) ++ ")")
  end.

Definition emit_insert_sql (table : string) (cols : list ColumnSpec)
    (rows : list Row) : result string :=
  match rows with
  | [] => Ok EmptyString
  | _ =>
      let quoted_cols := map (fun c => dq ++ name c ++ dq) cols in
      match map_result (values_line cols) rows with
      | Err e => Err e
      | Ok values_lines =>
          let cols_part := join ", " quoted_cols in
          let values_part := join ("," ++ nl ++ "  ") values_lines in
          Ok ("INSERT INTO " ++ dq ++ table ++ dq ++ " (" ++ cols_part ++ ")"
              ++ nl ++ "VALUES" ++ nl ++ "  " ++ values_part ++ ";" ++ nl)
      end
  end.

(** What [write_outputs] leaves for one table: the rows (the JSON file
    holds exactly these, its text is not modelled) and the SQL text. *)
Record Output : Type := mkOutput {
  o_table : string;
  o_cols : list ColumnSpec;
  o_rows : list Row;
  o_sql : string
}.

Definition write_outputs (table : string) (cols : list ColumnSpec)
    (rows : list Row) : result Output :=
  match emit_insert_sql table cols rows with
  | Err e => Err e
  | Ok sql => Ok (mkOutput table cols rows sql)
  end.

(** ** Configuration strings *)

(** The loop of [parse_keyval_map] over the pieces of the string. *)
Fixpoint keyval_loop (pieces : list string) (out : list (string * string))
  : list (string * string) :=
  match pieces with
  | [] => out
  | p :: rest =>
      let piece := strip p in
      if is_empty piece then keyval_loop rest out
      else if negb (contains "=" piece) then keyval_loop rest out
      else
        match split1 "=" piece with
        | k :: v :: _ => keyval_loop rest (dict_set (strip k) (strip v) out)
        | _ => keyval_loop rest out
        end
  end.

Definition parse_keyval_map (s : string) : list (string * string) :=
  if is_empty s then [] else keyval_loop (split "," s) [].

(** ** Directory scan *)

(** The loop of [parse_schema_dir] over the directory listing; an entry
    is a file name and the lines of the file. *)
Fixpoint schema_dir_loop (entries : list (string * list string))
    (schemas : Schemas) : Schemas :=
  match entries with
  | [] => schemas
  | (fname, lines) :: rest =>
      if negb (endswith ".sql" (lower fname)) then schema_dir_loop rest schemas
      else
        match parse_schema_file lines with
        | (Some tbl, (_ :: _) as cols) =>
            if is_empty tbl then schema_dir_loop rest schemas
            else schema_dir_loop rest (dict_set tbl cols schemas)
        | _ => schema_dir_loop rest schemas
        end
  end.

Definition parse_schema_dir (entries : list (string * list string)) : Schemas :=
  schema_dir_loop entries [].

(** ** Row builder and command line *)

Definition nonempty {A} (l : list A) : bool :=
  match l with [] => false | _ => true end.

(** [[k.strip() for k in key_fields.split(',') if k.strip()]] *)
Definition key_list (key_fields : string) : list string :=
  filter (fun k => negb (is_empty k)) (map strip (split "," key_fields)).

(** [keys.issubset(colset)] *)
Definition issubset (keys colset : list string) : bool :=
  forallb (fun k => existsb (String.eqb k) colset) keys.

(** The loop that looks for a table holding every key field; it leaves
    [parent_table] alone when it finds none. *)
Fixpoint choose_parent (keys : list string) (items : Schemas)
    (parent_table : string) : string :=
  match items with
  | [] => parent_table
  | (tname, cols) :: rest =>
      if nonempty keys && issubset keys (map name cols) then tname
      else choose_parent keys rest parent_table
  end.

(** The parent table of a non-empty [schemas]. *)
Definition select_parent (schemas : Schemas) (key_fields : string)
  : option string :=
  match schemas with
  | [] => None
  | (first, _) :: _ =>
      Some (if is_empty key_fields then first
            else choose_parent (key_list key_fields) schemas first)
  end.

Definition composite_key (row : Row) (keys : list string)
  : result (list value) :=
  map_result (row_get row) keys.

(** [comp in seen_keys] *)
Definition key_seen (comp : list value) (seen_keys : list (list value)) : bool :=
  existsb (tuple_eq comp) seen_keys.

(** One row: every column in order, into a fresh dict. *)
Fixpoint fill_row (cols : list ColumnSpec) (row : Row) : M Row :=
  match cols with
  | [] => ret row
  | c :: rest =>
      v <- generate_random c ;;
      fill_row rest (dict_set (name c) v row)
  end.

Definition duplicate_key_error : error :=
  RuntimeError "Could not generate a unique composite key after many attempts".

(** The inner loop: [attempts] tries at one parent row.  It returns the
    accepted row and the keys seen so far; running out of tries is the
    [else] branch of the [for]. *)
Fixpoint attempt_loop (attempts : nat) (parent_cols : list ColumnSpec)
    (parent_keys : list string) (seen_keys : list (list value))
  : M (Row * list (list value)) :=
  match attempts with
  | O => raise duplicate_key_error
  | S n =>
      row <- fill_row parent_cols [] ;;
      if nonempty parent_keys then
        match composite_key row parent_keys with
        | Err e => raise e
        | Ok comp =>
            if key_seen comp seen_keys
            then attempt_loop n parent_cols parent_keys seen_keys
            else ret (row, comp :: seen_keys)
        end
      else ret (row, seen_keys)
  end.

(** The outer loop: [n] more rows after [parent_rows]. *)
Fixpoint parent_loop (n : nat) (parent_cols : list ColumnSpec)
    (parent_keys : list string) (seen_keys : list (list value))
    (parent_rows : list Row) : M (list Row) :=
  match n with
  | O => ret parent_rows
  | S n' =>
      rs <- attempt_loop 200 parent_cols parent_keys seen_keys ;;
      parent_loop n' parent_cols parent_keys (snd rs) (parent_rows ++ [fst rs])
  end.

(** [for _ in range(num_rows)] from empty [seen_keys] and [parent_rows]. *)
Definition gen_parent_rows (parent_cols : list ColumnSpec)
    (parent_keys : list string) (num_rows : Z) : M (list Row) :=
  parent_loop (Z.to_nat num_rows) parent_cols parent_keys [] [].

(** One child row under the parent row [prow]. *)
Fixpoint fill_child_row (cols : list ColumnSpec)
    (fkey_map : list (string * string)) (prow : Row) (crow : Row) : M Row :=
  match cols with
  | [] => ret crow
  | c :: rest =>
      let cname := name c in
      match dict_get cname fkey_map with
      | Some pcol =>
          match dict_get pcol prow with
          | Some v => fill_child_row rest fkey_map prow (dict_set cname v crow)
          | None =>
              v <- generate_random c ;;
              fill_child_row rest fkey_map prow (dict_set cname v crow)
          end
      | None =>
          v <- generate_random c ;;
          fill_child_row rest fkey_map prow (dict_set cname v crow)
      end
  end.

(** [for _ in range(m)] under one parent row. *)
Fixpoint repeat_child (m : nat) (cols : list ColumnSpec)
    (fkey_map : list (string * string)) (prow : Row) (child_rows : list Row)
  : M (list Row) :=
  match m with
  | O => ret child_rows
  | S m' =>
      crow <- fill_child_row cols fkey_map prow [] ;;
      repeat_child m' cols fkey_map prow (child_rows ++ [crow])
  end.

(** [for prow in parent_rows] *)
Fixpoint child_loop (parent_rows : list Row) (m : Z) (cols : list ColumnSpec)
    (fkey_map : list (string * string)) (child_rows : list Row)
  : M (list Row) :=
  match parent_rows with
  | [] => ret child_rows
  | prow :: rest =>
      rows <- repeat_child (Z.to_nat m) cols fkey_map prow child_rows ;;
      child_loop rest m cols fkey_map rows
  end.

Definition gen_child_rows (cols : list ColumnSpec)
    (fkey_map : list (string * string)) (m : Z) (parent_rows : list Row)
  : M (list Row) :=
  child_loop parent_rows m cols fkey_map [].

(** [{k: int(v) for k, v in parse_keyval_map(multipliers).items()}] *)
Fixpoint int_values (kvs : list (string * string))
  : result (list (string * Z)) :=
  match kvs with
  | [] => Ok []
  | (k, v) :: rest =>
      match py_int v with
      | None => Err ValueError
      | Some n =>
          match int_values rest with
          | Err e => Err e
          | Ok out => Ok ((k, n) :: out)
          end
      end
  end.

(** What a run leaves behind: the outputs written, oldest first, and how
    it ended. *)
Record Run : Type := mkRun {
  written : list Output;
  ended : result rng
}.

(** The loop over the child tables. *)
Fixpoint children_loop (items : Schemas) (parent_table : string)
    (mult_map : list (string * Z)) (fkey_map : list (string * string))
    (parent_rows : list Row) (outs : list Output) (r : rng) : Run :=
  match items with
  | [] => mkRun outs (Ok r)
  | (tbl, cols) :: rest =>
      if String.eqb tbl parent_table
      then children_loop rest parent_table mult_map fkey_map parent_rows outs r
      else
        let m := match dict_get tbl mult_map with Some m => m | None => 1 end in
        match gen_child_rows cols fkey_map m parent_rows r with
        | Err e => mkRun outs (Err e)
        | Ok (child_rows, r') =>
            match write_outputs tbl cols child_rows with
            | Err e => mkRun outs (Err e)
            | Ok out =>
                children_loop rest parent_table mult_map fkey_map parent_rows
                              (outs ++ [out]) r'
            end
        end
  end.

Definition no_schema_error : error :=
  SystemExit "No .sql schema files found in --schema-dir.".

(** [main_cli]; [entries] is the listing of [schema_dir], in the order
    the system gives it. *)
Definition main_cli (entries : list (string * list string))
    (key_fields : string) (num_rows : Z) (multipliers foreign_map : string)
    (r : rng) : Run :=
  let schemas := parse_schema_dir entries in
  match select_parent schemas key_fields with
  | None => mkRun [] (Err no_schema_error)
  | Some parent_table =>
      match dict_get parent_table schemas with
      | None => mkRun [] (Err (KeyError parent_table))
      | Some parent_cols =>
          let parent_keys := key_list key_fields in
          match gen_parent_rows parent_cols parent_keys num_rows r with
          | Err e => mkRun [] (Err e)
          | Ok (parent_rows, r1) =>
              match write_outputs parent_table parent_cols parent_rows with
              | Err e => mkRun [] (Err e)
              | Ok out0 =>
                  match int_values (parse_keyval_map multipliers) with
                  | Err e => mkRun [out0] (Err e)
                  | Ok mult_map =>
                      children_loop schemas parent_table mult_map
                        (parse_keyval_map foreign_map) parent_rows [out0] r1
                  end
              end
          end
      end
  end.

End Generation.

(** ** A deterministic runtime

    A runtime whose draws are read off a list of integers (a draw from the
    empty list is 0).  It obeys the contracts of [Runtime] and serves to
    run the program on concrete inputs. *)

Module Tape.

Definition tape : Type := list Z.

Definition next (t : tape) : Z * tape :=
  match t with
  | [] => (0, [])
  | x :: t' => (x, t')
  end.

Definition t_randint (a b : Z) (t : tape) : Z * tape :=
  let '(x, t') := next t in
  ((if a <=? b then a + x mod (b - a + 1) else a), t').

Definition t_choice (l : list value) (t : tape) : value * tape :=
  let '(x, t') := next t in
  (nth (Z.to_nat (x mod Z.of_nat (List.length l))) l VNone, t').

Definition letter (x : Z) : ascii := ascii_of_N (97 + Z.to_N (x mod 26)).

Fixpoint letters (n : nat) (t : tape) : string * tape :=
  match n with
  | O => (EmptyString, t)
  | S k =>
      let '(x, t1) := next t in
      let '(s, t2) := letters k t1 in
      (String (letter x) s, t2)
  end.

Definition t_pystr (lo hi : Z) (t : tape) : string * tape :=
  let '(n, t1) := t_randint lo hi t in
  letters (Z.to_nat n) t1.

Definition t_date (t : tape) : date * tape :=
  let '(y, t1) := t_randint 1970 2024 t in
  let '(m, t2) := t_randint 1 12 t1 in
  let '(d, t3) := t_randint 1 28 t2 in
  (mkDate y m d, t3).

Definition t_datetime (t : tape) : datetime * tape :=
  let '(d, t1) := t_date t in
  let '(h, t2) := t_randint 0 23 t1 in
  let '(m, t3) := t_randint 0 59 t2 in
  let '(s, t4) := t_randint 0 59 t3 in
  (mkDateTime d (mkTime h m s 0), t4).

(** The text of the floats this runtime hands out (zero only); any other
    float is shown by its mantissa and binary exponent. *)
Definition t_float_str (f : spec_float) : string :=
  match f with
  | S754_zero false => "0.0"
  | S754_zero true => "-0.0"
  | S754_infinity false => "inf"
  | S754_infinity true => "-inf"
  | S754_nan => "nan"
  | S754_finite s m e =>
      (if s then "-" else EmptyString) ++ int_str (Zpos m) ++ "p" ++ int_str e
  end.

Definition runtime : Runtime.
Proof.
  refine {|
    rng := tape;
    randint := t_randint;
    uniform := fun _ _ t => (S754_zero false, snd (next t));
    choice := t_choice;
    uuid4_str := fun t => ("00000000-0000-4000-8000-000000000000", snd (next t));
    pystr := t_pystr;
    date_object := t_date;
    date_time := t_datetime;
    paragraph := fun _ t => ("Lorem ipsum. Dolor sit.", snd (next t));
    fake_word := fun t => ("lorem", snd (next t));
    float_str := t_float_str
  |}.
  - (* randint_range *)
    intros a b r Hab. unfold t_randint.
    destruct (next r) as [x t']. cbn [fst].
    destruct (Z.leb_spec a b); [|lia].
    pose proof (Z.mod_pos_bound x (b - a + 1)). lia.
  - (* choice_In *)
    intros l r Hl. unfold t_choice.
    destruct (next r) as [x t']. cbn [fst].
    apply nth_In.
    assert (0 < Z.of_nat (List.length l))
      by (destruct l; [congruence | cbn; lia]).
    pose proof (Z.mod_pos_bound x (Z.of_nat (List.length l))). lia.
  - (* pystr_length *)
    intros lo hi r H. unfold t_pystr, t_randint.
    destruct (next r) as [x t1].
    destruct (Z.leb_spec lo hi); [|lia].
    pose proof (Z.mod_pos_bound x (hi - lo + 1) ltac:(lia)) as Hx.
    assert (Hlen : forall n t, String.length (fst (letters n t)) = n).
    { induction n as [|n IH]; intro t; cbn; [reflexivity|].
      destruct (next t) as [y t2]. specialize (IH t2).
      destruct (letters n t2) as [s t3]. cbn in *. now rewrite IH. }
    rewrite Hlen. lia.
Defined.

End Tape.

(** ** Notions used to state the properties *)

(** Every character is a decimal digit. *)
Definition all_digits (s : string) : bool :=
  (fix go (s : string) : bool :=
     match s with
     | EmptyString => true
     | String c s' => is_digit c && go s'
     end) s.

(** The text with every single quote written twice. *)
Fixpoint double_quotes (s : string) : string :=
  match s with
  | EmptyString => EmptyString
  | String c s' =>
      if Ascii.eqb c "'" then String "'" (String "'" (double_quotes s'))
      else String c (double_quotes s')
  end.

(** The table [parent] is the first of [schemas] whose columns include
    every key. *)
Definition first_with_keys (keys : list string) (schemas : Schemas)
    (parent : string) : Prop :=
  exists before cols after,
    schemas = (before ++ (parent, cols) :: after)%list /\
    incl keys (map name cols) /\
    Forall (fun tc => ~ incl keys (map name (snd tc))) before.

(** No table of [schemas] has every key among its columns. *)
Definition no_table_with_keys (keys : list string) (schemas : Schemas) : Prop :=
  Forall (fun tc => ~ incl keys (map name (snd tc))) schemas.

(** The condition under which the dispatch of [generate_random] reaches
    the rule for [varchar], [nvarchar] and [varying]: no earlier rule
    fires and this one does. *)
Definition varchar_rule (t_norm : string) : bool :=
  negb (contains_any ["bigint"; "int8"] t_norm)
  && negb (contains_any ["smallint"; "int2"] t_norm)
  && negb (contains_any ["integer"; "int"; "int4"] t_norm)
  && negb (contains "numeric" t_norm || contains "decimal" t_norm)
  && negb (contains_any ["float"; "double"; "real"] t_norm)
  && negb (contains "uuid" t_norm)
  && negb (contains "bool" t_norm)
  && negb (String.eqb (strip t_norm) "date")
  && negb (contains "timestamp" t_norm)
  && negb (String.eqb (strip t_norm) "time" || startswith "time " t_norm)
  && (contains "varchar" t_norm || contains "nvarchar" t_norm
      || contains "varying" t_norm).

(** The rule for [numeric] and [decimal] is reached. *)
Definition decimal_rule (t_norm : string) : bool :=
  negb (contains_any ["bigint"; "int8"] t_norm)
  && negb (contains_any ["smallint"; "int2"] t_norm)
  && negb (contains_any ["integer"; "int"; "int4"] t_norm)
  && (contains "numeric" t_norm || contains "decimal" t_norm).

(** The declared maximum length of a character column, as [int] reads
    it: the first component of the length spec, or [default] without
    one; [None] when [int] refuses that component, which is then not an
    integer literal or has more than [int_max_str_digits] digits. *)
Definition declared_len (lens : string) (default : Z) : option Z :=
  if is_empty (strip lens) then Some default
  else py_int (hd EmptyString (split "," (strip lens))).


Definition valid_time (t : time) : Prop :=
  0 <= hour t <= 23 /\ 0 <= minute t <= 59 /\ 0 <= second t <= 59.

(** A text of [n] decimal digits. *)
Definition digits_of_width (n : nat) (s : string) : Prop :=
  String.length s = n /\ all_digits s = true.


Definition time_shaped (s : string) : Prop :=
  exists h m x, s = h ++ ":" ++ m ++ ":" ++ x /\
    digits_of_width 2 h /\ digits_of_width 2 m /\ digits_of_width 2 x.

Section RowNotions.
Context {RT : Runtime}.

(** The generator of the column cannot raise. *)
Definition never_raises (c : ColumnSpec) : Prop :=
  forall r, exists v r', generate_random c r = Ok (v, r').

(** [v] is a value the generator returns for a column of [cols] named
    [n]. *)
Definition generated (cols : list ColumnSpec) (n : string) (v : value) : Prop :=
  exists c r r', In c cols /\ name c = n /\ generate_random c r = Ok (v, r').

(** What the child column [n] must hold under the parent row [prow]: the
    parent's value at the mapped column when [n] is in the foreign-key
    map and the mapped column is in the parent row, a generated value
    otherwise. *)
Definition child_value_ok (cols : list ColumnSpec)
    (fkey_map : list (string * string)) (prow : Row) (n : string) (v : value)
  : Prop :=
  match dict_get n fkey_map with
  | Some pcol =>
      match dict_get pcol prow with
      | Some pv => v = pv
      | None => generated cols n v
      end
  | None => generated cols n v
  end.

Definition child_row_ok (cols : list ColumnSpec)
    (fkey_map : list (string * string)) (prow : Row) (crow : Row) : Prop :=
  forall c, In c cols ->
    exists v, dict_get (name c) crow = Some v /\
              child_value_ok cols fkey_map prow (name c) v.

(** While a child row is being filled, every entry it has so far is as
    [child_value_ok] wants it. *)
Definition entries_ok (cols : list ColumnSpec)
    (fkey_map : list (string * string)) (prow : Row) (crow : Row) : Prop :=
  forall n v, dict_get n crow = Some v -> child_value_ok cols fkey_map prow n v.

(** The composite keys of a list of rows. *)
Definition keys_of (rows : list Row) (keys : list string)
  : result (list (list value)) :=
  map_result (fun row => composite_key row keys) rows.

(** No two tuples at different positions are equal. *)
Definition pairwise_distinct (ts : list (list value)) : Prop :=
  forall i j a b,
    nth_error ts i = Some a -> nth_error ts j = Some b -> i <> j ->
    tuple_eq a b = false.

End RowNotions.

(** *** The end-to-end scenario *)

(** The two schema files, one column per line. *)
Definition customer_file : list string :=
  [ "CREATE TABLE " ++ dq ++ "Customer" ++ dq ++ " (";
    "  id integer,";
    "  code varchar(5)";
    ");" ].

Definition order_file : list string :=
  [ "CREATE TABLE " ++ dq ++ "Order" ++ dq ++ " (";
    "  id integer,";
    "  customer_id integer";
    ");" ].

(** The same declaration written on a single line. *)
Definition customer_file_one_line : list string :=
  [ "CREATE TABLE " ++ dq ++ "Customer" ++ dq
    ++ " (id integer, code varchar(5));" ].

Definition customer_cols : list ColumnSpec :=
  [ mkCol "id" "integer" EmptyString; mkCol "code" "varchar" "5" ].

Definition order_cols : list ColumnSpec :=
  [ mkCol "id" "integer" EmptyString;
    mkCol "customer_id" "integer" EmptyString ].

(** [row[k]] for every row, [None] where the key is missing. *)
Definition column_values (k : string) (rows : list Row) : list (option value) :=
  map (dict_get k) rows.

(** The draws of one run of the scenario on the deterministic runtime. *)
Definition scenario_tape : Tape.tape :=
  [5; 3; 1; 2; 5; 9; 9; 9; 7; 1; 2; 3; 4; 5; 6; 7; 8; 9].

Section Scenario.
Context {RT : Runtime}.

(** The run of the scenario over a directory listing. *)
Definition run_scenario (entries : list (string * list string)) (r : rng) : Run :=
  main_cli entries "id" 3 "Order=2" "customer_id=id" r.

(** The outcome the scenario describes: the run ends well, and among
    its outputs are [Customer] with three rows of pairwise distinct [id]
    and [Order] with six rows whose [customer_id] are the three [id], each
    twice in a row. *)
Definition scenario_outcome (run : Run) : Prop :=
  exists r' cust ord a b c,
    ended run = Ok r' /\
    In cust (written run) /\ In ord (written run) /\
    o_table cust = "Customer" /\ o_table ord = "Order" /\
    column_values "id" (o_rows cust) =
      [Some (VInt a); Some (VInt b); Some (VInt c)] /\
    a <> b /\ a <> c /\ b <> c /\
    column_values "customer_id" (o_rows ord) =
      [Some (VInt a); Some (VInt a); Some (VInt b); Some (VInt b);
       Some (VInt c); Some (VInt c)].

End Scenario.

(** *** Digits in the text of a decimal *)

(** The leading decimal digits of a text, and what follows them. *)
Fixpoint span_digits (s : string) : string * string :=
  match s with
  | EmptyString => (EmptyString, EmptyString)
  | String c s' =>
      if is_digit c
      then let '(d, rest) := span_digits s' in (String c d, rest)
      else (EmptyString, s)
  end.

(** The number of digits before the decimal point (or before the end or
    the exponent mark, when there is no point). *)
Definition digits_before_point (s : string) : nat :=
  String.length (fst (span_digits s)).




Section AttemptNotions.
Context {RT : Runtime}.

(** [n] attempts in a row, from the random state [r], each generate a
    row whose composite key is among [seen_keys]. *)
Fixpoint all_duplicates (n : nat) (cols : list ColumnSpec)
    (keys : list string) (seen_keys : list (list value)) (r : rng) : Prop :=
  match n with
  | O => True
  | S n' =>
      exists row r1 comp,
        fill_row cols [] r = Ok (row, r1) /\
        composite_key row keys = Ok comp /\
        key_seen comp seen_keys = true /\
        all_duplicates n' cols keys seen_keys r1
  end.

(** Among the next [n] parent rows there is one for which 200 attempts
    in a row are duplicates, the rows before it having been accepted. *)
Fixpoint some_row_exhausted (n : nat) (cols : list ColumnSpec)
    (keys : list string) (seen_keys : list (list value)) (r : rng) : Prop :=
  match n with
  | O => False
  | S n' =>
      all_duplicates 200 cols keys seen_keys r \/
      exists row seen' r1,
        attempt_loop 200 cols keys seen_keys r = Ok ((row, seen'), r1) /\
        some_row_exhausted n' cols keys seen' r1
  end.

End AttemptNotions.

(** ** Notions for the parser's matches *)

(** Every character of the text satisfies [p]. *)
Fixpoint all_chars (p : ascii -> bool) (s : string) : bool :=
  match s with
  | EmptyString => true
  | String c s' => p c && all_chars p s'
  end.

(** What a match of a pattern is: [matches n0 r s c s1 c1] says that [r]
    matches at the front of [s] leaving [s1], and turns the groups [c]
    into [c1]; the whole input has [n0] characters. *)
Inductive matches (n0 : nat)
  : regex -> string -> captures -> string -> captures -> Prop :=
| M_eps : forall s c, matches n0 REps s c s c
| M_lit : forall ch d s c,
    lower_char d = lower_char ch -> matches n0 (RLit ch) (String d s) c s c
| M_set : forall (p : ascii -> bool) d s c,
    p d = true -> matches n0 (RSet p) (String d s) c s c
| M_seq : forall a b s c s1 c1 s2 c2,
    matches n0 a s c s1 c1 -> matches n0 b s1 c1 s2 c2 ->
    matches n0 (RSeq a b) s c s2 c2
| M_opt_some : forall a s c s1 c1,
    matches n0 a s c s1 c1 -> matches n0 (ROpt a) s c s1 c1
| M_opt_none : forall a s c, matches n0 (ROpt a) s c s c
| M_star_nil : forall a s c, matches n0 (RStar a) s c s c
| M_star_cons : forall a s c s1 c1 s2 c2,
    matches n0 a s c s1 c1 -> matches n0 (RStar a) s1 c1 s2 c2 ->
    matches n0 (RStar a) s c s2 c2
| M_group : forall g a s c s1 c1,
    matches n0 a s c s1 c1 ->
    matches n0 (RGroup g a) s c s1
            ((g, take (String.length s - String.length s1) s) :: c1)
| M_bol : forall s c, String.length s = n0 -> matches n0 RBol s c s c
| M_eol : forall s c,
    s = EmptyString \/ s = String "010" EmptyString ->
    matches n0 REol s c s c.

(** A non-empty text of decimal digits. *)
Definition digit_string (s : string) : Prop :=
  s <> EmptyString /\ all_chars is_digit s = true.

(** A non-empty text of word characters. *)
Definition word_string (s : string) : Prop :=
  s <> EmptyString /\ all_chars is_word s = true.

(** The length spec of a column as the pattern lets it through: absent,
    one number, or two numbers with a comma between. *)
Definition lens_shaped (s : string) : Prop :=
  s = EmptyString \/ digit_string s \/
  exists p q, s = p ++ "," ++ q /\ digit_string p /\ digit_string q.

(** A character allowed in a type, blanks included. *)
Definition type_or_space (c : ascii) : bool := type_char c || is_space c.

(** The shape of a column descriptor the parser builds. *)
Definition column_shaped (c : ColumnSpec) : Prop :=
  word_string (name c) /\
  (type c <> EmptyString /\ all_chars type_or_space (type c) = true) /\
  lens_shaped (lens c).

(** The pattern has no group. *)
Fixpoint nocap (r : regex) : bool :=
  match r with
  | RSeq a b => nocap a && nocap b
  | ROpt a | RStar a => nocap a
  | RGroup _ _ => false
  | _ => true
  end.

(** The characters a match of a group-free pattern may consume all
    satisfy [p]. *)
Fixpoint only_chars (p : ascii -> bool) (r : regex) : Prop :=
  match r with
  | RLit c => forall d, lower_char d = lower_char c -> p d = true
  | RSet q => forall d, q d = true -> p d = true
  | RSeq a b => only_chars p a /\ only_chars p b
  | ROpt a | RStar a | RGroup _ a => only_chars p a
  | _ => True
  end.

(** ** Rules of the dispatch *)

(** The rule for [bool] is reached: no earlier rule fires. *)
Definition bool_rule (t_norm : string) : bool :=
  negb (contains_any ["bigint"; "int8"] t_norm)
  && negb (contains_any ["smallint"; "int2"] t_norm)
  && negb (contains_any ["integer"; "int"; "int4"] t_norm)
  && negb (contains "numeric" t_norm || contains "decimal" t_norm)
  && negb (contains_any ["float"; "double"; "real"] t_norm)
  && negb (contains "uuid" t_norm)
  && contains "bool" t_norm.

(** The rule for [time] is reached. *)
Definition time_rule (t_norm : string) : bool :=
  negb (contains_any ["bigint"; "int8"] t_norm)
  && negb (contains_any ["smallint"; "int2"] t_norm)
  && negb (contains_any ["integer"; "int"; "int4"] t_norm)
  && negb (contains "numeric" t_norm || contains "decimal" t_norm)
  && negb (contains_any ["float"; "double"; "real"] t_norm)
  && negb (contains "uuid" t_norm)
  && negb (contains "bool" t_norm)
  && negb (String.eqb (strip t_norm) "date")
  && negb (contains "timestamp" t_norm)
  && (String.eqb (strip t_norm) "time" || startswith "time " t_norm).

(** The rule for [bpchar] and [char...] is reached. *)
Definition char_rule (t_norm : string) : bool :=
  negb (contains_any ["bigint"; "int8"] t_norm)
  && negb (contains_any ["smallint"; "int2"] t_norm)
  && negb (contains_any ["integer"; "int"; "int4"] t_norm)
  && negb (contains "numeric" t_norm || contains "decimal" t_norm)
  && negb (contains_any ["float"; "double"; "real"] t_norm)
  && negb (contains "uuid" t_norm)
  && negb (contains "bool" t_norm)
  && negb (String.eqb (strip t_norm) "date")
  && negb (contains "timestamp" t_norm)
  && negb (String.eqb (strip t_norm) "time" || startswith "time " t_norm)
  && negb (contains "varchar" t_norm || contains "nvarchar" t_norm
           || contains "varying" t_norm)
  && (contains "bpchar" t_norm || startswith "char" t_norm).

(** ** Lines of a schema file *)

(** The line ends the column list: trimmed, it starts with [)] or ends
    with [);]. *)
Definition closes_columns (raw : string) : bool :=
  startswith ")" (strip raw) || endswith ");" (strip raw).

(** The line is empty once trimmed. *)
Definition blank (raw : string) : bool := is_empty (strip raw).

(** The number of lines that are not blank. *)
Definition count_lines (lines : list string) : nat :=
  List.length (filter (fun l => negb (blank l)) lines).

(** The table names of a schema set are distinct, non-empty words, and
    every table has at least one column, each well shaped. *)
Definition schemas_ok (schemas : Schemas) : Prop :=
  NoDup (map fst schemas) /\
  Forall (fun tc => word_string (fst tc) /\ snd tc <> [] /\
                    Forall column_shaped (snd tc)) schemas.

(** ** Notions for the row builder and the runs *)

(** The row has an entry for every column. *)
Definition has_columns (cols : list ColumnSpec) (row : Row) : Prop :=
  forall c, In c cols -> dict_mem (name c) row = true.

(** The tables a complete run writes, in order: the parent table, then
    the others in the order of the schema set. *)
Definition expected_tables (parent : string) (schemas : Schemas) : list string :=
  parent :: filter (fun t => negb (String.eqb t parent)) (map fst schemas).

(** The first number of a length spec, as text: what the character
    rules hand to [int]. *)
Definition first_numeral (lens : string) : string :=
  hd EmptyString (split "," (strip lens)).

(** A column of a parsed schema on which the generator can raise: a
    [numeric] column, by a signal of [decimal], or a character column
    whose declared length is over the limit of [int]. *)
Definition failing_column (e : error) (c : ColumnSpec) : Prop :=
  (e = DecimalSignal /\ decimal_rule (normalize_type (type c)) = true) \/
  (e = ValueError /\
   (varchar_rule (normalize_type (type c)) = true \/
    char_rule (normalize_type (type c)) = true) /\
   (int_max_str_digits < String.length (first_numeral (lens c)))%nat).

Section RunNotions.
Context {RT : Runtime}.

(** The generator can raise [e] on a column of [cols]. *)
Definition column_raises (cols : list ColumnSpec) (e : error) : Prop :=
  exists c r, In c cols /\ generate_random c r = Err e.

End RunNotions.

(** [mult_map.get(tbl, 1)] *)
Definition multiplier_of (mult_map : list (string * Z)) (tbl : string) : Z :=
  match dict_get tbl mult_map with Some m => m | None => 1 end.

(** ** Notions for the configuration strings and the SQL text *)

(** The text has no comma, no equals sign. *)
Definition no_comma (s : string) : bool :=
  all_chars (fun c => negb (Ascii.eqb c ",")) s.

Definition no_equals (s : string) : bool :=
  all_chars (fun c => negb (Ascii.eqb c "=")) s.

(** A list of pairs written as [k1=v1,k2=v2,...]. *)
Definition render_pairs (kvs : list (string * string)) : string :=
  join "," (map (fun kv => fst kv ++ "=" ++ snd kv) kvs).

(** The dict built by assigning the trimmed pairs in order. *)
Definition assign_pairs (kvs : list (string * string))
    (out : list (string * string)) : list (string * string) :=
  fold_left (fun d kv => dict_set (strip (fst kv)) (strip (snd kv)) d) kvs out.

(** ** Notions for the lines the parser accepts *)

(** The text is empty or starts with a character that does not satisfy
    [p]. *)
Definition stops (p : ascii -> bool) (s : string) : Prop :=
  match s with
  | EmptyString => True
  | String c _ => p c = false
  end.

(** A length spec as a column line writes it: nothing, or the spec in
    parentheses. *)
Definition lens_text (l : string) : string :=
  if is_empty l then EmptyString else "(" ++ l ++ ")".

(** Non-empty white space; one word of a type. *)
Definition white (s : string) : Prop :=
  s <> EmptyString /\ all_chars is_space s = true.

Definition type_word (s : string) : Prop :=
  s <> EmptyString /\ all_chars type_char s = true.

(** The further words of a type, each after its white space. *)
Fixpoint more_words (more : list (string * string)) : string :=
  match more with
  | [] => EmptyString
  | (sp, w) :: rest => sp ++ w ++ more_words rest
  end.

(** A type of one or more words. *)
Definition type_text (ty : string) (more : list (string * string)) : string :=
  ty ++ more_words more.

(** The text of a column line: name, white space, type, length spec. *)
Definition column_text (sp : string) (c : ColumnSpec) : string :=
  name c ++ sp ++ type c ++ lens_text (lens c).

(** The raw line [raw] declares the column [c]: trimmed and without its
    trailing commas it is the text of [c], whose name is a word, whose
    type is one or more words and whose length spec is well shaped; it
    neither closes the column list nor starts with a constraint
    keyword. *)
Definition column_line (raw : string) (c : ColumnSpec) : Prop :=
  exists sp ty more,
    word_string (name c) /\ white sp /\ type_word ty /\
    Forall (fun sw => white (fst sw) /\ type_word (snd sw)) more /\
    type c = type_text ty more /\
    lens_shaped (lens c) /\
    rstrip_comma (strip raw) = column_text sp c /\
    closes_columns raw = false /\
    startswith_any constraint_starts (lower (strip raw)) = false.

(** The line that opens the declaration of table [t], the name in
    double quotes. *)
Definition header_text (t : string) : string :=
  "CREATE TABLE " ++ dq ++ t ++ dq ++ " (".

(** * Properties *)

(** ** Parent-table selection *)

Lemma issubset_incl : forall keys colset,
  issubset keys colset = true <-> incl keys colset.
Proof.
  intros keys colset. unfold issubset, incl.
  rewrite forallb_forall. split; intros H k Hk.
  - apply H in Hk. apply existsb_exists in Hk as [x [Hx Heq]].
    apply String.eqb_eq in Heq. now subst.
  - apply existsb_exists. exists k. split; [now apply H | apply String.eqb_refl].
Qed.

Lemma choose_parent_cases : forall keys items default,
  keys <> [] ->
  first_with_keys keys items (choose_parent keys items default) \/
  (no_table_with_keys keys items /\ choose_parent keys items default = default).
Proof.
  intros keys items default Hk.
  induction items as [|[tname cols] rest IH]; cbn.
  - right. split; [constructor | reflexivity].
  - assert (Hne : nonempty keys = true) by (destruct keys; [congruence | reflexivity]).
    rewrite Hne. cbn [andb].
    destruct (issubset keys (map name cols)) eqn:Hs.
    + left. exists [], cols, rest. repeat split; [|constructor].
      now apply issubset_incl.
    + assert (Hn : ~ incl keys (map name cols)).
      { intro Hi. apply issubset_incl in Hi. congruence. }
      destruct IH as [(before & c & after & Heq & Hin & Hall) | [Hall Heq]].
      * left. exists ((tname, cols) :: before), c, after.
        repeat split; [cbn; f_equal; exact Heq | assumption | now constructor].
      * right. split; [now constructor | assumption].
Qed.

Lemma choose_parent_no_keys : forall items default,
  choose_parent [] items default = default.
Proof.
  induction items as [|[t c] l IH]; intro d; cbn; [reflexivity | apply IH].
Qed.

Lemma key_list_empty : forall key_fields,
  is_empty key_fields = true -> key_list key_fields = [].
Proof. intros [|c s] H; [reflexivity | discriminate]. Qed.

(** C6.  The parent table is the first table of the schema set when no
    key field is given; with key fields it is the first table, in the
    order of the schema set, whose column names include every key field;
    and when no table has them all it is the first table again. *)
Theorem parent_table_selection :
  forall (first : string) (cols0 : list ColumnSpec) (rest : Schemas)
         (key_fields : string),
    let schemas := (first, cols0) :: rest in
    let keys := key_list key_fields in
    exists parent,
      select_parent schemas key_fields = Some parent /\
      ((keys = [] /\ parent = first) \/
       (keys <> [] /\ first_with_keys keys schemas parent) \/
       (keys <> [] /\ no_table_with_keys keys schemas /\ parent = first)).
Proof.
  intros first cols0 rest key_fields schemas keys.
  unfold select_parent. cbn [schemas].
  destruct (is_empty key_fields) eqn:He.
  - exists first. split; [reflexivity|]. left.
    split; [now apply key_list_empty | reflexivity].
  - fold keys. fold schemas.
    destruct keys as [|k ks] eqn:Hk.
    + exists first. split; [|left; now split].
      f_equal. apply choose_parent_no_keys.
    + eexists. split; [reflexivity|]. right.
      destruct (choose_parent_cases (k :: ks) schemas first ltac:(discriminate))
        as [Hf | [Hn Heq]].
      * left. split; [discriminate | exact Hf].
      * right. split; [discriminate | now split].
Qed.

(** ** Text of numbers *)

Lemma str_length_app : forall a b : string,
  String.length (a ++ b) = (String.length a + String.length b)%nat.
Proof. induction a as [|c a IH]; intro b; cbn; [reflexivity | now rewrite IH]. Qed.

Lemma app_assoc_s : forall a b c : string, (a ++ b) ++ c = a ++ (b ++ c).
Proof. induction a as [|x a IH]; intros b c; cbn; [reflexivity | now rewrite IH]. Qed.

Lemma app_empty_r : forall a : string, a ++ EmptyString = a.
Proof. induction a as [|x a IH]; cbn; [reflexivity | now rewrite IH]. Qed.

Lemma all_digits_app : forall a b,
  all_digits (a ++ b) = all_digits a && all_digits b.
Proof.
  induction a as [|c a IH]; intro b; cbn; [reflexivity|].
  change ((fix go (s : string) : bool :=
             match s with
             | EmptyString => true
             | String c0 s' => is_digit c0 && go s'
             end) (a ++ b)) with (all_digits (a ++ b)).
  rewrite IH. unfold all_digits. now rewrite andb_assoc.
Qed.

Lemma digit_char_is_digit : forall d, 0 <= d <= 9 -> is_digit (digit_char d) = true.
Proof.
  intros d H. destruct d as [|p|p]; [reflexivity | | lia].
  do 4 (try (destruct p as [p|p|]; try lia; try reflexivity)).
Qed.

Lemma repeat_char_length : forall c n, String.length (repeat_char c n) = n.
Proof. induction n as [|n IH]; cbn; [reflexivity | now rewrite IH]. Qed.

Lemma repeat_zero_digits : forall n, all_digits (repeat_char "0" n) = true.
Proof. induction n as [|n IH]; [reflexivity | exact IH]. Qed.

(** The digits [digits_go] puts in front of [acc], given enough fuel. *)
Lemma digits_go_spec : forall fuel n acc,
  (0 < fuel)%nat -> 0 <= n < 2 ^ Z.of_nat fuel ->
  exists ds, digits_go fuel n acc = ds ++ acc /\
    all_digits ds = true /\
    (1 <= String.length ds)%nat /\
    (n = 0 -> String.length ds = 1%nat) /\
    (0 < n -> 10 ^ (Z.of_nat (String.length ds) - 1) <= n
              < 10 ^ Z.of_nat (String.length ds)).
Proof.
  induction fuel as [|f IH]; intros n acc Hf Hn; [lia|].
  cbn [digits_go].
  assert (Hd : is_digit (digit_char (n mod 10)) = true).
  { apply digit_char_is_digit. pose proof (Z.mod_pos_bound n 10). lia. }
  destruct (Z.ltb_spec n 10) as [Hlt | Hge].
  - exists (String (digit_char (n mod 10)) EmptyString).
    cbn. rewrite Hd. repeat split; try lia; reflexivity.
  - assert (Hf3 : (3 <= f)%nat).
    { destruct f as [|[|[|f]]]; cbn in Hn; try lia. }
    assert (Hq : 0 <= n / 10 < 2 ^ Z.of_nat f).
    { split; [apply Z.div_pos; lia|].
      apply Z.div_lt_upper_bound; [lia|].
      rewrite Nat2Z.inj_succ, Z.pow_succ_r in Hn by lia. lia. }
    destruct (IH (n / 10) (String (digit_char (n mod 10)) acc) ltac:(lia) Hq)
      as (ds & Heq & Hall & Hlen & _ & Hpos).
    exists (ds ++ String (digit_char (n mod 10)) EmptyString).
    rewrite Heq, app_assoc_s. cbn [append].
    rewrite all_digits_app, Hall, str_length_app. cbn. rewrite Hd.
    assert (Hq0 : 0 < n / 10) by (apply Z.div_str_pos; lia).
    specialize (Hpos Hq0).
    assert (E1 : 10 ^ (Z.of_nat (String.length ds + 1) - 1)
                 = 10 * 10 ^ (Z.of_nat (String.length ds) - 1)).
    { rewrite <- Z.pow_succ_r by lia. f_equal. lia. }
    assert (E2 : 10 ^ Z.of_nat (String.length ds + 1)
                 = 10 * 10 ^ Z.of_nat (String.length ds)).
    { rewrite <- Z.pow_succ_r by lia. f_equal. lia. }
    pose proof (Z.div_mod n 10 ltac:(lia)).
    pose proof (Z.mod_pos_bound n 10 ltac:(lia)).
    repeat split; try lia.
Qed.

Lemma nat_str_spec : forall n, 0 <= n ->
  all_digits (nat_str n) = true /\
  1 <= ndigits n /\
  (n = 0 -> ndigits n = 1) /\
  (0 < n -> 10 ^ (ndigits n - 1) <= n < 10 ^ ndigits n).
Proof.
  intros n Hn. unfold ndigits, nat_str.
  assert (Hb : 0 <= n < 2 ^ Z.of_nat (S (Z.to_nat (Z.log2 n)))).
  { split; [assumption|]. rewrite Nat2Z.inj_succ, Z2Nat.id by apply Z.log2_nonneg.
    destruct (Z.eq_dec n 0) as [->|Hz]; [reflexivity|].
    apply Z.log2_spec. lia. }
  destruct (digits_go_spec (S (Z.to_nat (Z.log2 n))) n EmptyString
              ltac:(lia) Hb) as (ds & Heq & Hall & Hlen & Hz & Hpos).
  rewrite Heq, app_empty_r.
  split; [assumption|]. split; [lia|]. split.
  - intro H0. rewrite (Hz H0). reflexivity.
  - exact Hpos.
Qed.

Lemma ndigits_le : forall n k, 0 <= n < 10 ^ k -> 1 <= k -> ndigits n <= k.
Proof.
  intros n k Hn Hk.
  destruct (nat_str_spec n ltac:(lia)) as (_ & H1 & Hz & Hpos).
  destruct (Z.eq_dec n 0) as [H0|H0]; [rewrite (Hz H0); lia|].
  destruct (Hpos ltac:(lia)) as [Hlo _].
  destruct (Z_le_gt_dec (ndigits n) k) as [|Hgt]; [assumption|].
  assert (10 ^ k <= 10 ^ (ndigits n - 1)) by (apply Z.pow_le_mono_r; lia).
  lia.
Qed.

Lemma zpad_width : forall w n, 0 <= n < 10 ^ Z.of_nat w -> (1 <= w)%nat ->
  digits_of_width w (zpad w n).
Proof.
  intros w n Hn Hw. unfold digits_of_width, zpad.
  pose proof (ndigits_le n (Z.of_nat w) Hn ltac:(lia)) as Hle.
  destruct (nat_str_spec n ltac:(lia)) as (Hall & H1 & _).
  unfold ndigits in *.
  rewrite str_length_app, repeat_char_length, all_digits_app, repeat_zero_digits, Hall.
  split; [lia | reflexivity].
Qed.


Lemma prefix_empty : forall s, String.prefix EmptyString s = true.
Proof. now destruct s. Qed.

Lemma replace_quote : forall s, replace "'" "''" s = double_quotes s.
Proof.
  intro s. unfold replace.
  induction s as [|c s IH]; [reflexivity|].
  cbn [replace_go double_quotes String.prefix String.length Nat.pred].
  destruct (ascii_dec "'" c) as [<-|Hne].
  - rewrite prefix_empty, IH. reflexivity.
  - rewrite IH. destruct (Ascii.eqb_spec c "'") as [->|_]; [congruence | reflexivity].
Qed.

Section Values.
Context {RT : Runtime}.

(** ** Integer families *)

Lemma int_between_range : forall m r, 0 <= m ->
  exists z r', _int_between m r = Ok (z, r') /\ 0 <= z <= m.
Proof.
  intros m r Hm. unfold _int_between, draw.
  pose proof (randint_range 0 m r Hm) as H.
  destruct (randint 0 m r) as [z r']. exists z, r'. now split.
Qed.

(** C7.  A column whose normalized type contains [bigint] or [int8]
    gets an integer in [0, 9000000000]; otherwise one that contains
    [smallint] or [int2] gets an integer in [0, 32000]; otherwise one that
    contains [integer], [int] or [int4] gets an integer in [0, 1000000].
    The three tests are tried in this order and the first that holds
    decides. *)
Theorem integer_family_ranges :
  forall (col : ColumnSpec) (r : rng),
    let t := normalize_type (type col) in
    (contains_any ["bigint"; "int8"] t = true ->
     exists z r', generate_random col r = Ok (VInt z, r')
                  /\ 0 <= z <= 9000000000) /\
    (contains_any ["bigint"; "int8"] t = false ->
     contains_any ["smallint"; "int2"] t = true ->
     exists z r', generate_random col r = Ok (VInt z, r')
                  /\ 0 <= z <= 32000) /\
    (contains_any ["bigint"; "int8"] t = false ->
     contains_any ["smallint"; "int2"] t = false ->
     contains_any ["integer"; "int"; "int4"] t = true ->
     exists z r', generate_random col r = Ok (VInt z, r')
                  /\ 0 <= z <= 1000000).
Proof.
  intros col r t. unfold generate_random. fold t.
  repeat split.
  - intros H1. rewrite H1.
    destruct (int_between_range 9000000000 r ltac:(lia)) as (z & r' & He & Hz).
    exists z, r'. unfold bind. rewrite He. now split.
  - intros H1 H2. rewrite H1, H2.
    destruct (int_between_range 32000 r ltac:(lia)) as (z & r' & He & Hz).
    exists z, r'. unfold bind. rewrite He. now split.
  - intros H1 H2 H3. rewrite H1, H2, H3.
    destruct (int_between_range 1000000 r ltac:(lia)) as (z & r' & He & Hz).
    exists z, r'. unfold bind. rewrite He. now split.
Qed.

(** ** SQL literals *)


Lemma time_iso_shaped : forall t, valid_time t -> time_shaped (time_iso_seconds t).
Proof.
  intros t (Hh & Hm & Hs). unfold time_shaped, time_iso_seconds.
  exists (zpad 2 (hour t)), (zpad 2 (minute t)), (zpad 2 (second t)).
  split; [reflexivity|].
  repeat split; apply zpad_width; cbn; lia.
Qed.


End Values.

(** ** Constraint lines of the schema parser *)

Lemma rstrip_by_keep : forall p c s,
  p c = false -> rstrip_by p (String c s) = String c (rstrip_by p s).
Proof.
  intros p c s Hc. cbn [rstrip_by]. rewrite Hc.
  now destruct (rstrip_by p s).
Qed.

Lemma lstrip_by_keep : forall p c s,
  p c = false -> lstrip_by p (String c s) = String c s.
Proof. intros p c s Hc. cbn [lstrip_by]. now rewrite Hc. Qed.

Lemma constraint_line_step : forall tbl cols raw rest,
  startswith_any constraint_starts (lower (strip raw)) = true ->
  parse_lines (Some tbl) cols (raw :: rest) =
    if startswith ")" (strip raw) || endswith ");" (strip raw)
    then (Some tbl, cols)
    else parse_lines (Some tbl) cols rest.
Proof.
  intros tbl cols raw rest H. cbn [parse_lines].
  destruct (strip raw) as [|c s] eqn:Hs; [discriminate H|].
  cbn [is_empty]. rewrite H. reflexivity.
Qed.

(** C9.  After the table name, a line whose trimmed, lower-cased text
    starts with the characters of a constraint keyword yields no column:
    the parser moves on to the next line (or stops, if the line also
    closes the column list).  The test is on the characters, not on a
    whole word, so the declarations of columns named [key_id],
    [checksum], [index_no] and [references_count] are skipped. *)
Theorem constraint_prefix_skips_column :
  (forall tbl cols raw rest,
     startswith_any constraint_starts (lower (strip raw)) = true ->
     parse_lines (Some tbl) cols (raw :: rest) =
       if startswith ")" (strip raw) || endswith ");" (strip raw)
       then (Some tbl, cols)
       else parse_lines (Some tbl) cols rest) /\
  (forall cname decl,
     In cname ["key_id"; "checksum"; "index_no"; "references_count"] ->
     startswith_any constraint_starts (lower (strip (cname ++ " " ++ decl)))
       = true) /\
  parse_schema_file
    [ "CREATE TABLE t ("; "  id integer,"; "  key_id integer,";
      "  checksum varchar(32),"; "  index_no integer,";
      "  references_count integer,"; "  name text"; ");" ]
    = (Some "t", [ mkCol "id" "integer" EmptyString;
                   mkCol "name" "text" EmptyString ]).
Proof.
  split; [exact constraint_line_step|]. split; [|vm_compute; reflexivity].
  intros cname decl Hin. unfold strip.
  cbn in Hin.
  destruct Hin as [<-|[<-|[<-|[<-|[]]]]];
    cbn [append];
    rewrite lstrip_by_keep by reflexivity;
    (rewrite !rstrip_by_keep by reflexivity); reflexivity.
Qed.

(** ** Length of generated character data *)

Section Chars.
Context {RT : Runtime}.

Lemma clamp_len_eq : forall n, clamp_len n = Z.min (Z.max n 1) 255.
Proof. intro n. unfold clamp_len. lia. Qed.

Lemma char_up_to_length : forall n r,
  exists s r', _char_up_to n r = Ok (s, r') /\
    1 <= Z.of_nat (String.length s) <= clamp_len n.
Proof.
  intros n r. unfold _char_up_to, draw.
  pose proof (pystr_length 1 (clamp_len n) r) as H.
  destruct (pystr 1 (clamp_len n) r) as [s r'].
  exists s, r'. split; [reflexivity|]. apply H. unfold clamp_len. lia.
Qed.

Lemma first_len_declared : forall l default n r,
  declared_len l default = Some n -> first_len (strip l) default r = Ok (n, r).
Proof.
  intros l default n r. unfold declared_len, first_len.
  destruct (is_empty (strip l)).
  - intros [= <-]. reflexivity.
  - intros ->. reflexivity.
Qed.

(** A length spec that [int] refuses: the [ValueError] is not caught. *)
Lemma first_len_refused : forall l default r,
  declared_len l default = None ->
  first_len (strip l) default r = Err ValueError.
Proof.
  intros l default r. unfold declared_len, first_len.
  destruct (is_empty (strip l)); [discriminate|].
  intros ->. reflexivity.
Qed.

Lemma generate_varchar_column : forall col r max_len,
  varchar_rule (normalize_type (type col)) = true ->
  declared_len (lens col) 32 = Some max_len ->
  exists s r',
    generate_random col r = Ok (VStr s, r') /\
    1 <= Z.of_nat (String.length s) <= Z.min (Z.max max_len 1) 255.
Proof.
  intros col r max_len Hrule Hlen.
  unfold varchar_rule in Hrule.
  repeat (apply andb_true_iff in Hrule as [Hrule ?]).
  repeat match goal with H : negb _ = true |- _ => apply negb_true_iff in H end.
  unfold generate_random.
  repeat match goal with H : _ = false |- _ => rewrite H; clear H end.
  match goal with H : _ = true |- _ => rewrite H; clear H end.
  unfold bind. rewrite (first_len_declared _ _ _ r Hlen).
  destruct (char_up_to_length max_len r) as (s & r' & He & Hs).
  rewrite He. exists s, r'. rewrite clamp_len_eq in Hs.
  split; [reflexivity | exact Hs].
Qed.

(** C10.  For a column dispatched to the [varchar] rule, the declared
    maximum length, as [int] reads it from the length spec, is clamped
    to [1, 255] before the length is drawn: the string has between 1
    and [min (max maxLen 1) 255] characters; so it never has more than
    255 when the declared length exceeds 255, and it has exactly one
    when the declared length is 0. *)
Theorem varchar_length_clamped :
  forall (col : ColumnSpec) (r : rng) (max_len : Z),
    varchar_rule (normalize_type (type col)) = true ->
    declared_len (lens col) 32 = Some max_len ->
    exists s r',
      generate_random col r = Ok (VStr s, r') /\
      1 <= Z.of_nat (String.length s) <= Z.min (Z.max max_len 1) 255 /\
      (255 < max_len -> Z.of_nat (String.length s) <= 255) /\
      (max_len = 0 -> String.length s = 1%nat).
Proof.
  intros col r max_len Hrule Hlen.
  destruct (generate_varchar_column col r max_len Hrule Hlen)
    as (s & r' & He & Hs).
  exists s, r'. split; [exact He|]. split; [exact Hs|]. split; intros; lia.
Qed.

(** Where [int] refuses the length spec there is no string: the rule
    raises before any draw. *)
Lemma varchar_refused_length_raises : forall (col : ColumnSpec) (r : rng),
  varchar_rule (normalize_type (type col)) = true ->
  declared_len (lens col) 32 = None ->
  generate_random col r = Err ValueError.
Proof.
  intros col r Hrule Hlen.
  unfold varchar_rule in Hrule.
  repeat (apply andb_true_iff in Hrule as [Hrule ?]).
  repeat match goal with H : negb _ = true |- _ => apply negb_true_iff in H end.
  unfold generate_random.
  repeat match goal with H : _ = false |- _ => rewrite H; clear H end.
  match goal with H : _ = true |- _ => rewrite H; clear H end.
  unfold bind. now rewrite (first_len_refused _ _ r Hlen).
Qed.

End Chars.

(** ** Dictionaries *)

Lemma dict_get_set_same : forall (V : Type) k (v : V) d,
  dict_get k (dict_set k v d) = Some v.
Proof.
  intros V k v d. induction d as [|[k' v'] d IH]; cbn.
  - now rewrite String.eqb_refl.
  - destruct (String.eqb k k') eqn:E; cbn; rewrite E; [reflexivity | exact IH].
Qed.

Lemma dict_get_set_other : forall (V : Type) k k' (v : V) d,
  k <> k' -> dict_get k (dict_set k' v d) = dict_get k d.
Proof.
  intros V k k' v d Hne. induction d as [|[k0 v0] d IH]; cbn.
  - apply String.eqb_neq in Hne. now rewrite Hne.
  - destruct (String.eqb k' k0) eqn:E; cbn.
    + apply String.eqb_eq in E. subst k0.
      apply String.eqb_neq in Hne. now rewrite Hne.
    + destruct (String.eqb k k0); [reflexivity | exact IH].
Qed.

Lemma dict_get_set : forall (V : Type) k k' (v : V) d,
  dict_get k (dict_set k' v d) = if String.eqb k k' then Some v else dict_get k d.
Proof.
  intros V k k' v d. destruct (String.eqb_spec k k') as [->|Hne].
  - apply dict_get_set_same.
  - now apply dict_get_set_other.
Qed.

(** ** Child rows *)

Section Children.
Context {RT : Runtime}.

Lemma bind_ok : forall A B (c : M A) (f : A -> M B) r b r',
  bind c f r = Ok (b, r') ->
  exists a r1, c r = Ok (a, r1) /\ f a r1 = Ok (b, r').
Proof.
  intros A B c f r b r' H. unfold bind in H.
  destruct (c r) as [[a r1]|e]; [|discriminate].
  now exists a, r1.
Qed.

Lemma bind_err : forall A B (c : M A) (f : A -> M B) r e,
  bind c f r = Err e ->
  c r = Err e \/ exists a r1, c r = Ok (a, r1) /\ f a r1 = Err e.
Proof.
  intros A B c f r e H. unfold bind in H.
  destruct (c r) as [[a r1]|e']; [right; now exists a, r1 | left; congruence].
Qed.

Section OneParent.
Variables (cols : list ColumnSpec) (fkey_map : list (string * string))
          (prow : Row).

Lemma entries_ok_set : forall crow n v,
  entries_ok cols fkey_map prow crow ->
  child_value_ok cols fkey_map prow n v ->
  entries_ok cols fkey_map prow (dict_set n v crow).
Proof.
  intros crow n v Hok Hv n' v' Hget. rewrite dict_get_set in Hget.
  destruct (String.eqb_spec n' n) as [->|_].
  - injection Hget as <-. exact Hv.
  - now apply Hok.
Qed.

Lemma dict_mem_set : forall (crow : Row) n v n',
  dict_mem n' crow = true \/ n' = n -> dict_mem n' (dict_set n v crow) = true.
Proof.
  intros crow n v n' H. unfold dict_mem in *. rewrite dict_get_set.
  destruct (String.eqb_spec n' n); [reflexivity|].
  destruct H as [H|H]; [exact H | contradiction].
Qed.

Lemma fill_child_row_ok : forall cs crow0 r crow r',
  incl cs cols ->
  fill_child_row cs fkey_map prow crow0 r = Ok (crow, r') ->
  entries_ok cols fkey_map prow crow0 ->
  entries_ok cols fkey_map prow crow /\
  (forall n, dict_mem n crow0 = true -> dict_mem n crow = true) /\
  (forall c, In c cs -> dict_mem (name c) crow = true).
Proof.
  induction cs as [|c cs IH]; intros crow0 r crow r' Hincl Hrun Hok.
  - cbn in Hrun. injection Hrun as <- <-. repeat split; auto; contradiction.
  - assert (Hc : In c cols) by (apply Hincl; now left).
    assert (Hcs : incl cs cols) by (intros x Hx; apply Hincl; now right).
    cbn [fill_child_row] in Hrun.
    assert (Hstep : exists v r1,
               child_value_ok cols fkey_map prow (name c) v /\
               fill_child_row cs fkey_map prow (dict_set (name c) v crow0) r1
                 = Ok (crow, r')).
    { unfold child_value_ok.
      destruct (dict_get (name c) fkey_map) as [pcol|].
      - destruct (dict_get pcol prow) as [pv|].
        + exists pv, r. now split.
        + apply bind_ok in Hrun as (v & r1 & Hg & Hrest).
          exists v, r1. split; [|exact Hrest]. now exists c, r, r1.
      - apply bind_ok in Hrun as (v & r1 & Hg & Hrest).
        exists v, r1. split; [|exact Hrest]. now exists c, r, r1. }
    destruct Hstep as (v & r1 & Hv & Hrest).
    destruct (IH _ _ _ _ Hcs Hrest (entries_ok_set _ _ _ Hok Hv))
      as (Hok' & Hkeep & Hnew).
    repeat split; [exact Hok' | |].
    + intros n Hn. apply Hkeep. apply dict_mem_set. now left.
    + intros c' [<-|Hin]; [|now apply Hnew].
      apply Hkeep. apply dict_mem_set. now right.
Qed.

Lemma fill_child_row_row_ok : forall r crow r',
  fill_child_row cols fkey_map prow [] r = Ok (crow, r') ->
  child_row_ok cols fkey_map prow crow.
Proof.
  intros r crow r' Hrun.
  destruct (fill_child_row_ok cols [] r crow r' (incl_refl _) Hrun)
    as (Hok & _ & Hnew).
  { intros n v H. discriminate H. }
  intros c Hc. specialize (Hnew c Hc). unfold dict_mem in Hnew.
  destruct (dict_get (name c) crow) as [v|] eqn:Hg; [|discriminate].
  exists v. split; [reflexivity | now apply Hok].
Qed.

Lemma repeat_child_ok : forall m acc r rows r',
  repeat_child m cols fkey_map prow acc r = Ok (rows, r') ->
  exists block, rows = (acc ++ block)%list /\ List.length block = m /\
                Forall (child_row_ok cols fkey_map prow) block.
Proof.
  induction m as [|m IH]; intros acc r rows r' Hrun.
  - cbn in Hrun. injection Hrun as <- <-.
    exists []. now rewrite app_nil_r.
  - cbn [repeat_child] in Hrun.
    apply bind_ok in Hrun as (crow & r1 & Hrow & Hrest).
    apply IH in Hrest as (block & -> & Hlen & Hall).
    exists (crow :: block). rewrite <- app_assoc. cbn.
    repeat split; [now rewrite Hlen|].
    constructor; [now apply fill_child_row_row_ok in Hrow | exact Hall].
Qed.

End OneParent.

Lemma child_loop_ok : forall prows m cols fkey_map acc r rows r',
  child_loop prows m cols fkey_map acc r = Ok (rows, r') ->
  exists blocks, rows = (acc ++ List.concat blocks)%list /\
    Forall2 (fun prow block =>
               List.length block = Z.to_nat m /\
               Forall (child_row_ok cols fkey_map prow) block)
            prows blocks.
Proof.
  induction prows as [|prow prows IH]; intros m cols fkey_map acc r rows r' Hrun.
  - cbn in Hrun. injection Hrun as <- <-. exists []. cbn.
    now rewrite app_nil_r.
  - cbn [child_loop] in Hrun.
    apply bind_ok in Hrun as (rows1 & r1 & Hblock & Hrest).
    apply repeat_child_ok in Hblock as (block & -> & Hlen & Hall).
    apply IH in Hrest as (blocks & -> & HF).
    exists (block :: blocks). cbn. rewrite app_assoc.
    split; [reflexivity|]. constructor; [now split | exact HF].
Qed.

Lemma concat_blocks_length : forall (A B : Type) (P : A -> list B -> Prop)
    (xs : list A) (blocks : list (list B)) (m : nat),
  Forall2 (fun x b => List.length b = m /\ P x b) xs blocks ->
  List.length (List.concat blocks) = (List.length xs * m)%nat.
Proof.
  intros A B P xs blocks m H. induction H as [|x b xs bs [Hl _] _ IH]; cbn.
  - reflexivity.
  - rewrite List.length_app, IH, Hl. reflexivity.
Qed.

(** *** The generators cannot fail on columns that never raise *)

Lemma fill_child_row_total : forall fkey_map prow cs crow0 r,
  Forall never_raises cs ->
  exists crow r', fill_child_row cs fkey_map prow crow0 r = Ok (crow, r').
Proof.
  intros fkey_map prow cs. induction cs as [|c cs IH]; intros crow0 r Hs.
  - now exists crow0, r.
  - inversion Hs as [|? ? Hc Hcs]; subst. cbn [fill_child_row].
    destruct (Hc r) as (v & r1 & Hg).
    destruct (dict_get (name c) fkey_map) as [pcol|];
      [destruct (dict_get pcol prow) as [pv|]|];
      try (unfold bind; rewrite Hg); now apply IH.
Qed.

Lemma repeat_child_total : forall cols fkey_map prow m acc r,
  Forall never_raises cols ->
  exists rows r', repeat_child m cols fkey_map prow acc r = Ok (rows, r').
Proof.
  intros cols fkey_map prow m. induction m as [|m IH]; intros acc r Hs.
  - now exists acc, r.
  - cbn [repeat_child].
    destruct (fill_child_row_total fkey_map prow cols [] r Hs)
      as (crow & r1 & Hrow).
    unfold bind. rewrite Hrow. now apply IH.
Qed.

Lemma child_loop_total : forall prows m cols fkey_map acc r,
  Forall never_raises cols ->
  exists rows r', child_loop prows m cols fkey_map acc r = Ok (rows, r').
Proof.
  induction prows as [|prow prows IH]; intros m cols fkey_map acc r Hs.
  - now exists acc, r.
  - cbn [child_loop].
    destruct (repeat_child_total cols fkey_map prow (Z.to_nat m) acc r Hs)
      as (rows & r1 & Hb).
    unfold bind. rewrite Hb. now apply IH.
Qed.

(** C5.  For a child table with multiplier [m >= 0] and [N] parent
    rows, [N * m] child rows are produced (when no column's generator can
    raise): they are [N] blocks of [m] rows, one block per parent row in
    the order of the parent rows.  In every row of a block, a column that
    is in the foreign-key map and whose mapped column is in the block's
    parent row holds that parent row's value, and every other column
    holds a value returned by the value generator for that column. *)
Theorem child_rows_by_parent_blocks :
  forall (cols : list ColumnSpec) (fkey_map : list (string * string)) (m : Z)
         (parent_rows : list Row) (r : rng),
    0 <= m ->
    Forall never_raises cols ->
    exists rows r' blocks,
      gen_child_rows cols fkey_map m parent_rows r = Ok (rows, r') /\
      Z.of_nat (List.length rows) = Z.of_nat (List.length parent_rows) * m /\
      rows = List.concat blocks /\
      Forall2 (fun prow block =>
                 Z.of_nat (List.length block) = m /\
                 Forall (child_row_ok cols fkey_map prow) block)
              parent_rows blocks.
Proof.
  intros cols fkey_map m parent_rows r Hm Hs. unfold gen_child_rows.
  destruct (child_loop_total parent_rows m cols fkey_map [] r Hs)
    as (rows & r' & Hrun).
  destruct (child_loop_ok _ _ _ _ _ _ _ _ Hrun) as (blocks & Hrows & HF).
  cbn [app] in Hrows. exists rows, r', blocks.
  split; [exact Hrun|]. split; [|split; [exact Hrows|]].
  - rewrite Hrows, (concat_blocks_length _ _ _ _ _ _ HF). lia.
  - eapply Forall2_impl; [|exact HF].
    intros prow block [Hl Hall]. split; [lia | exact Hall].
Qed.

End Children.

(** ** Equality of keys *)

Lemma exact_eqb_sym : forall a b, exact_eqb a b = exact_eqb b a.
Proof.
  intros [[m1 a1] b1] [[m2 a2] b2]. unfold exact_eqb.
  rewrite (Z.min_comm a1 a2), (Z.min_comm b1 b2). apply Z.eqb_sym.
Qed.

Lemma date_eqb_sym : forall a b, date_eqb a b = date_eqb b a.
Proof.
  intros a b. unfold date_eqb.
  now rewrite (Z.eqb_sym (year a)), (Z.eqb_sym (month a)), (Z.eqb_sym (day a)).
Qed.

Lemma time_eqb_sym : forall a b, time_eqb a b = time_eqb b a.
Proof.
  intros a b. unfold time_eqb.
  now rewrite (Z.eqb_sym (hour a)), (Z.eqb_sym (minute a)),
    (Z.eqb_sym (second a)), (Z.eqb_sym (microsecond a)).
Qed.

Lemma eqb_bool_sym : forall a b, Bool.eqb a b = Bool.eqb b a.
Proof. now intros [] []. Qed.

Lemma py_eq_sym : forall a b, py_eq a b = py_eq b a.
Proof.
  intros a b.
  destruct a as [| |z|f|d|dt|d|t|s]; destruct b as [| |z'|f'|d'|dt'|d'|t'|s'];
    try destruct f; try destruct f'; cbn [py_eq exact_of];
    try reflexivity;
    auto using exact_eqb_sym, date_eqb_sym, time_eqb_sym, String.eqb_sym,
      eqb_bool_sym.
  now rewrite date_eqb_sym, time_eqb_sym.
Qed.

Lemma tuple_eq_sym : forall a b, tuple_eq a b = tuple_eq b a.
Proof.
  induction a as [|x a IH]; intros [|y b]; cbn; try reflexivity.
  now rewrite py_eq_sym, IH.
Qed.

Lemma ordered_pairs_snoc : forall (A : Type) (R : A -> A -> Prop) l x,
  ForallOrdPairs R l -> (forall a, In a l -> R a x) ->
  ForallOrdPairs R (l ++ [x])%list.
Proof.
  intros A R l x H. induction H as [|a l Ha Hl IH]; intro Hx; cbn.
  - constructor; constructor.
  - constructor.
    + apply Forall_app. split.
      * exact Ha.
      * constructor; [apply Hx; now left | constructor].
    + apply IH. intros b Hb. apply Hx. now right.
Qed.

Lemma ordered_pairs_nth : forall (A : Type) (R : A -> A -> Prop) l,
  ForallOrdPairs R l ->
  forall i j a b, (i < j)%nat ->
    nth_error l i = Some a -> nth_error l j = Some b -> R a b.
Proof.
  intros A R l H. induction H as [|x l Hx Hl IH]; intros i j a b Hij Hi Hj.
  - destruct i; discriminate.
  - destruct j as [|j]; [lia|]. cbn in Hj.
    destruct i as [|i]; cbn in Hi.
    + injection Hi as <-. rewrite Forall_forall in Hx.
      apply Hx. eapply nth_error_In; eassumption.
    + eapply IH; [|eassumption|eassumption]. lia.
Qed.

(** ** Parent rows *)

Section Parents.
Context {RT : Runtime}.

Lemma map_result_app : forall (A B : Type) (f : A -> result B) xs x ys y,
  map_result f xs = Ok ys -> f x = Ok y ->
  map_result f (xs ++ [x])%list = Ok (ys ++ [y])%list.
Proof.
  intros A B f xs. induction xs as [|a xs IH]; intros x ys y Hxs Hx; cbn in *.
  - injection Hxs as <-. now rewrite Hx.
  - destruct (f a) as [b|e]; [|discriminate].
    destruct (map_result f xs) as [bs|e]; [|discriminate].
    injection Hxs as <-. now rewrite (IH x bs y eq_refl Hx).
Qed.

Lemma map_result_length : forall (A B : Type) (f : A -> result B) xs ys,
  map_result f xs = Ok ys -> List.length ys = List.length xs.
Proof.
  intros A B f xs. induction xs as [|a xs IH]; intros ys H; cbn in *.
  - now injection H as <-.
  - destruct (f a) as [b|e]; [|discriminate].
    destruct (map_result f xs) as [bs|e]; [|discriminate].
    injection H as <-. cbn. now rewrite (IH bs eq_refl).
Qed.

Lemma map_result_total : forall (A B : Type) (f : A -> result B) xs,
  (forall x, In x xs -> exists y, f x = Ok y) ->
  exists ys, map_result f xs = Ok ys.
Proof.
  intros A B f xs. induction xs as [|a xs IH]; intro H; cbn.
  - now exists [].
  - destruct (H a (or_introl eq_refl)) as [b Hb]. rewrite Hb.
    destruct IH as [bs Hbs]; [intros x Hx; apply H; now right|].
    rewrite Hbs. now exists (b :: bs).
Qed.

Lemma key_seen_false : forall comp seen_keys,
  key_seen comp seen_keys = false ->
  forall t, In t seen_keys -> tuple_eq comp t = false.
Proof.
  intros comp seen_keys H t Ht. unfold key_seen in H.
  destruct (tuple_eq comp t) eqn:E; [|reflexivity].
  assert (existsb (tuple_eq comp) seen_keys = true)
    by (apply existsb_exists; now exists t).
  congruence.
Qed.

(** An accepted row comes out of [fill_row]; with key fields, its key is
    new and is added to the keys seen. *)
Lemma attempt_loop_ok : forall n cols keys seen_keys r row seen' r',
  attempt_loop n cols keys seen_keys r = Ok ((row, seen'), r') ->
  (exists r0, fill_row cols [] r0 = Ok (row, r')) /\
  (keys = [] -> seen' = seen_keys) /\
  (keys <> [] ->
   exists comp, composite_key row keys = Ok comp /\
                key_seen comp seen_keys = false /\
                seen' = comp :: seen_keys).
Proof.
  induction n as [|n IH]; intros cols keys seen_keys r row seen' r' H;
    cbn [attempt_loop] in H; [discriminate|].
  apply bind_ok in H as (row0 & r1 & Hrow & H).
  destruct keys as [|k ks]; cbn [nonempty] in H.
  - injection H as <- <- <-. split; [now exists r|]. split; [auto | congruence].
  - destruct (composite_key row0 (k :: ks)) as [comp|e] eqn:Hk; [|discriminate].
    destruct (key_seen comp seen_keys) eqn:Hs.
    + now apply IH in H.
    + injection H as <- <- <-. split; [now exists r|].
      split; [discriminate|]. intros _. now exists comp.
Qed.

(** The keys of the accepted rows stay pairwise distinct, newest against
    every older one. *)
Lemma parent_loop_distinct : forall n cols keys seen_keys acc r rows r' ts0,
  keys <> [] ->
  parent_loop n cols keys seen_keys acc r = Ok (rows, r') ->
  keys_of acc keys = Ok ts0 ->
  (forall t, In t seen_keys <-> In t ts0) ->
  ForallOrdPairs (fun a b => tuple_eq b a = false) ts0 ->
  exists ts, keys_of rows keys = Ok ts /\
             ForallOrdPairs (fun a b => tuple_eq b a = false) ts.
Proof.
  induction n as [|n IH]; intros cols keys seen_keys acc r rows r' ts0
    Hk Hrun Hacc Hseen Hd; cbn [parent_loop] in Hrun.
  - injection Hrun as <- <-. now exists ts0.
  - apply bind_ok in Hrun as ([row seen'] & r1 & Hatt & Hrun). cbn [fst snd] in Hrun.
    apply attempt_loop_ok in Hatt as (_ & _ & Hnew).
    destruct (Hnew Hk) as (comp & Hcomp & Hfresh & ->).
    eapply IH; [exact Hk | exact Hrun | | | ].
    + unfold keys_of. apply map_result_app; [exact Hacc | exact Hcomp].
    + intro t. rewrite in_app_iff. cbn. rewrite Hseen. tauto.
    + apply ordered_pairs_snoc; [exact Hd|].
      intros a Ha. apply (key_seen_false _ _ Hfresh). now apply Hseen.
Qed.

Lemma parent_loop_length : forall n cols keys seen_keys acc r rows r',
  parent_loop n cols keys seen_keys acc r = Ok (rows, r') ->
  exists new, rows = (acc ++ new)%list /\ List.length new = n /\
    Forall (fun row => exists r0 r1, fill_row cols [] r0 = Ok (row, r1)) new.
Proof.
  induction n as [|n IH]; intros cols keys seen_keys acc r rows r' Hrun;
    cbn [parent_loop] in Hrun.
  - injection Hrun as <- <-. exists []. now rewrite app_nil_r.
  - apply bind_ok in Hrun as ([row seen'] & r1 & Hatt & Hrun). cbn [fst snd] in Hrun.
    apply attempt_loop_ok in Hatt as ((r0 & Hfill) & _).
    apply IH in Hrun as (new & -> & Hlen & Hall).
    exists (row :: new). rewrite <- app_assoc. cbn.
    repeat split; [now rewrite Hlen|].
    constructor; [now exists r0, r1 | exact Hall].
Qed.

Lemma distinct_of_ordered : forall ts,
  ForallOrdPairs (fun a b => tuple_eq b a = false) ts -> pairwise_distinct ts.
Proof.
  intros ts H i j a b Hi Hj Hne.
  destruct (Nat.lt_ge_cases i j) as [Hlt|Hge].
  - rewrite tuple_eq_sym.
    exact (ordered_pairs_nth _ _ _ H i j a b Hlt Hi Hj).
  - exact (ordered_pairs_nth _ _ _ H j i b a ltac:(lia) Hj Hi).
Qed.

Lemma gen_parent_rows_distinct : forall cols keys num_rows r rows r',
  keys <> [] ->
  gen_parent_rows cols keys num_rows r = Ok (rows, r') ->
  exists ts, keys_of rows keys = Ok ts /\ pairwise_distinct ts.
Proof.
  intros cols keys num_rows r rows r' Hk Hrun. unfold gen_parent_rows in Hrun.
  destruct (parent_loop_distinct _ _ _ _ _ _ _ _ [] Hk Hrun eq_refl)
    as (ts & Hts & Hd); [tauto | constructor |].
  exists ts. split; [exact Hts | now apply distinct_of_ordered].
Qed.

(** C3.  With a non-empty list of key fields, the composite keys of the
    accepted parent rows exist and no two of them, at different rows, are
    equal. *)
Theorem parent_keys_pairwise_distinct :
  forall (parent_cols : list ColumnSpec) (parent_keys : list string)
         (num_rows : Z) (r : rng) (parent_rows : list Row) (r' : rng),
    parent_keys <> [] ->
    gen_parent_rows parent_cols parent_keys num_rows r = Ok (parent_rows, r') ->
    exists ts, keys_of parent_rows parent_keys = Ok ts /\ pairwise_distinct ts.
Proof. exact gen_parent_rows_distinct. Qed.

End Parents.

(** ** Runs that cannot raise *)

Section Totality.
Context {RT : Runtime}.

Lemma fill_row_names : forall cs (row0 : Row) r row r',
  fill_row cs row0 r = Ok (row, r') ->
  (forall n, dict_mem n row0 = true -> dict_mem n row = true) /\
  (forall c, In c cs -> dict_mem (name c) row = true) /\
  (forall n, dict_mem n row = true ->
             dict_mem n row0 = true \/ In n (map name cs)).
Proof.
  induction cs as [|c cs IH]; intros row0 r row r' H; cbn [fill_row] in H.
  - injection H as <- <-. repeat split; auto; contradiction.
  - apply bind_ok in H as (v & r1 & _ & H).
    apply IH in H as (Hkeep & Hnew & Hold).
    split; [|split].
    + intros n Hn. apply Hkeep. apply dict_mem_set. now left.
    + intros c' [<-|Hin]; [|now apply Hnew].
      apply Hkeep. apply dict_mem_set. now right.
    + intros n Hn. apply Hold in Hn as [Hn|Hn]; [|right; now right].
      unfold dict_mem in Hn. rewrite dict_get_set in Hn.
      destruct (String.eqb_spec n (name c)) as [E|_].
      * right. left. now rewrite E.
      * now left.
Qed.

Lemma fill_row_total : forall cs (row0 : Row) r,
  Forall never_raises cs -> exists row r', fill_row cs row0 r = Ok (row, r').
Proof.
  induction cs as [|c cs IH]; intros row0 r Hs.
  - now exists row0, r.
  - inversion Hs as [|? ? Hc Hcs]; subst. cbn [fill_row].
    destruct (Hc r) as (v & r1 & Hg). unfold bind. rewrite Hg. now apply IH.
Qed.

Lemma row_get_total : forall (row : Row) k,
  dict_mem k row = true -> exists v, row_get row k = Ok v.
Proof.
  intros row k H. unfold row_get, dict_mem in *.
  destruct (dict_get k row) as [v|]; [now exists v | discriminate].
Qed.

Lemma composite_key_total : forall (row : Row) keys,
  (forall k, In k keys -> dict_mem k row = true) ->
  exists comp, composite_key row keys = Ok comp.
Proof.
  intros row keys H. apply map_result_total.
  intros k Hk. apply row_get_total. now apply H.
Qed.

Lemma attempt_loop_safe : forall n cols keys seen_keys r,
  Forall never_raises cols -> incl keys (map name cols) ->
  (exists res r', attempt_loop n cols keys seen_keys r = Ok (res, r')) \/
  attempt_loop n cols keys seen_keys r = Err duplicate_key_error.
Proof.
  induction n as [|n IH]; intros cols keys seen_keys r Hs Hk; cbn [attempt_loop].
  - now right.
  - destruct (fill_row_total cols [] r Hs) as (row & r1 & Hrow).
    unfold bind. rewrite Hrow.
    destruct (nonempty keys); [|left; now eexists _, _].
    destruct (composite_key_total row keys) as [comp Hcomp].
    { intros k Hin. apply Hk in Hin. apply in_map_iff in Hin as (c & <- & Hc).
      apply (fill_row_names _ _ _ _ _ Hrow). exact Hc. }
    rewrite Hcomp. destruct (key_seen comp seen_keys).
    + now apply IH.
    + left. now eexists _, _.
Qed.

Lemma parent_loop_safe : forall n cols keys seen_keys acc r,
  Forall never_raises cols -> incl keys (map name cols) ->
  (exists rows r', parent_loop n cols keys seen_keys acc r = Ok (rows, r')) \/
  parent_loop n cols keys seen_keys acc r = Err duplicate_key_error.
Proof.
  induction n as [|n IH]; intros cols keys seen_keys acc r Hs Hk;
    cbn [parent_loop].
  - left. now exists acc, r.
  - unfold bind.
    destruct (attempt_loop_safe 200 cols keys seen_keys r Hs Hk)
      as [([row seen'] & r1 & ->) | ->]; [|now right].
    now apply IH.
Qed.

Lemma values_line_total : forall cols (row : Row),
  (forall c, In c cols -> dict_mem (name c) row = true) ->
  exists line, values_line cols row = Ok line.
Proof.
  intros cols row H. unfold values_line.
  destruct (map_result_total _ _ (fun c => row_get row (name c)) cols)
    as [vals ->]; [|now eexists].
  intros c Hc. apply row_get_total. now apply H.
Qed.

Lemma write_outputs_total : forall table cols (rows : list Row),
  (forall row, In row rows -> forall c, In c cols -> dict_mem (name c) row = true) ->
  exists sql, write_outputs table cols rows = Ok (mkOutput table cols rows sql).
Proof.
  intros table cols rows H. unfold write_outputs, emit_insert_sql.
  destruct rows as [|row rows]; [now eexists|].
  destruct (map_result_total _ _ (values_line cols) (row :: rows)) as [ls ->];
    [|now eexists].
  intros x Hx. apply values_line_total. now apply H.
Qed.

(** *** The columns of the scenario *)

Lemma generate_int_column : forall col r,
  contains_any ["bigint"; "int8"] (normalize_type (type col)) = false ->
  contains_any ["smallint"; "int2"] (normalize_type (type col)) = false ->
  contains_any ["integer"; "int"; "int4"] (normalize_type (type col)) = true ->
  exists z r', generate_random col r = Ok (VInt z, r') /\ 0 <= z <= 1000000.
Proof.
  intros col r H1 H2 H3. unfold generate_random. rewrite H1, H2, H3.
  destruct (int_between_range 1000000 r ltac:(lia)) as (z & r' & He & Hz).
  exists z, r'. unfold bind. rewrite He. now split.
Qed.

Lemma integer_column : forall n r,
  exists z r', generate_random (mkCol n "integer" EmptyString) r = Ok (VInt z, r').
Proof.
  intros n r.
  destruct (generate_int_column (mkCol n "integer" EmptyString) r)
    as (z & r' & H & _); try (vm_compute; reflexivity).
  now exists z, r'.
Qed.

Lemma varchar5_column : forall n r,
  exists s r', generate_random (mkCol n "varchar" "5") r = Ok (VStr s, r').
Proof.
  intros n r.
  destruct (generate_varchar_column (mkCol n "varchar" "5") r 5)
    as (s & r' & H & _); try (vm_compute; reflexivity).
  now exists s, r'.
Qed.

Lemma customer_cols_safe : Forall never_raises customer_cols.
Proof.
  repeat constructor; intro r.
  - destruct (integer_column "id" r) as (z & r' & H). now exists (VInt z), r'.
  - destruct (varchar5_column "code" r) as (s & r' & H). now exists (VStr s), r'.
Qed.

Lemma order_cols_safe : Forall never_raises order_cols.
Proof.
  repeat constructor; intro r.
  - destruct (integer_column "id" r) as (z & r' & H). now exists (VInt z), r'.
  - destruct (integer_column "customer_id" r) as (z & r' & H).
    now exists (VInt z), r'.
Qed.

Lemma customer_row_shape : forall r0 row r1,
  fill_row customer_cols [] r0 = Ok (row, r1) ->
  exists z s, row = [("id", VInt z); ("code", VStr s)].
Proof.
  intros r0 row r1 H. unfold customer_cols in H. cbn [fill_row] in H.
  apply bind_ok in H as (v1 & ra & H1 & H).
  apply bind_ok in H as (v2 & rb & H2 & H).
  destruct (integer_column "id" r0) as (z & r' & Hz).
  destruct (varchar5_column "code" ra) as (s & r'' & Hs).
  rewrite Hz in H1. rewrite Hs in H2.
  injection H1 as <- <-. injection H2 as <- <-.
  injection H as <- <-. now exists z, s.
Qed.

End Totality.

(** ** Exhausting the key space *)

Section Exhaustion.
Context {RT : Runtime}.

Lemma try_or_error : forall (A : Type) e (o : option A) r e',
  try_or e o r = Err e' -> e' = e.
Proof.
  intros A e o r e' H. unfold try_or, raise, ret in H.
  destruct o; [discriminate | now injection H].
Qed.

Lemma decimal_random_error : forall p s r e,
  _decimal_random p s r = Err e -> e = DecimalSignal.
Proof.
  intros p s r e H. unfold _decimal_random in H. cbv zeta in H.
  apply bind_err in H as [H | (whole & r1 & _ & H)].
  { destruct (_ >? 0); discriminate H. }
  apply bind_err in H as [H | (frac & r2 & _ & H)].
  { destruct (_ >? 0); discriminate H. }
  destruct (_ >? 0); [|discriminate H].
  apply bind_err in H as [H | (p10 & r3 & _ & H)];
    [now apply try_or_error in H|].
  apply bind_err in H as [H | (q & r4 & _ & H)];
    now apply try_or_error in H.
Qed.

Lemma first_len_error : forall l d r e,
  first_len l d r = Err e -> e = ValueError.
Proof.
  intros l d r e H. unfold first_len in H.
  destruct (is_empty l); [discriminate | now apply try_or_error in H].
Qed.

Lemma make_time_error : forall h m s r e,
  make_time h m s r = Err e -> e = ValueError.
Proof.
  intros h m s r e H. unfold make_time in H.
  unfold raise, ret in H.
  destruct (_ && _); [discriminate | now injection H].
Qed.

(** The generator raises nothing but [ValueError] and the signals of
    [decimal]. *)
Lemma generate_random_error : forall col r e,
  generate_random col r = Err e -> e = ValueError \/ e = DecimalSignal.
Proof.
  intros col r e H. unfold generate_random in H.
  repeat match type of H with
         | (if ?b then _ else _) _ = _ => destruct b
         end;
    try (destruct (precision_scale _) as [p s]);
    repeat match type of H with
           | bind _ _ _ = Err _ =>
               apply bind_err in H as [H | (? & ? & _ & H)]
           end;
    try discriminate H;
    try (apply decimal_random_error in H; now right);
    try (apply first_len_error in H; now left);
    try (apply make_time_error in H; now left).
Qed.

Lemma fill_row_error : forall cs row0 r e,
  fill_row cs row0 r = Err e -> e = ValueError \/ e = DecimalSignal.
Proof.
  induction cs as [|c cs IH]; intros row0 r e H; cbn [fill_row] in H.
  - discriminate.
  - apply bind_err in H as [H | (v & r1 & _ & H)].
    + now apply generate_random_error in H.
    + now apply IH in H.
Qed.

Lemma map_result_row_get_error : forall (row : Row) keys e,
  map_result (row_get row) keys = Err e -> exists k, e = KeyError k.
Proof.
  intros row keys. induction keys as [|k keys IH]; intros e H; cbn in H.
  - discriminate.
  - unfold row_get at 1 in H. destruct (dict_get k row).
    + destruct (map_result (row_get row) keys); [discriminate|].
      injection H as <-. now apply IH.
    + injection H as <-. now exists k.
Qed.

(** The inner loop ends in the duplicate-key error exactly when every
    one of its attempts is a duplicate. *)
Lemma attempt_loop_exhausted : forall n cols keys seen_keys r,
  keys <> [] ->
  attempt_loop n cols keys seen_keys r = Err duplicate_key_error <->
  all_duplicates n cols keys seen_keys r.
Proof.
  induction n as [|n IH]; intros cols keys seen_keys r Hk;
    cbn [attempt_loop all_duplicates].
  - split; [trivial | reflexivity].
  - assert (Hne : nonempty keys = true)
      by (destruct keys; [congruence | reflexivity]).
    unfold bind. rewrite Hne. split.
    + intro H. destruct (fill_row cols [] r) as [[row r1]|e] eqn:Hrow.
      * destruct (composite_key row keys) as [comp|e] eqn:Hcomp.
        -- destruct (key_seen comp seen_keys) eqn:Hseen; [|discriminate H].
           exists row, r1, comp. repeat split; try assumption.
           now apply IH.
        -- cbn in H. injection H as ->.
           apply map_result_row_get_error in Hcomp as [k Hk']. discriminate.
      * injection H as ->. apply fill_row_error in Hrow as [?|?]; discriminate.
    + intros (row & r1 & comp & -> & -> & -> & H). now apply IH.
Qed.

(** The outer loop ends in the duplicate-key error exactly when some row
    runs out of attempts. *)
Lemma parent_loop_exhausted : forall n cols keys seen_keys acc r,
  keys <> [] ->
  parent_loop n cols keys seen_keys acc r = Err duplicate_key_error <->
  some_row_exhausted n cols keys seen_keys r.
Proof.
  induction n as [|n IH]; intros cols keys seen_keys acc r Hk;
    cbn [parent_loop some_row_exhausted].
  - split; [discriminate | contradiction].
  - unfold bind. split.
    + intro H.
      destruct (attempt_loop 200 cols keys seen_keys r) as [[[row seen'] r1]|e]
        eqn:Hatt.
      * right. exists row, seen', r1. split; [reflexivity|].
        cbn [fst snd] in H. now apply IH in H.
      * injection H as ->. left. now apply attempt_loop_exhausted.
    + intros [H | (row & seen' & r1 & Hatt & H)].
      * apply attempt_loop_exhausted in H; [|exact Hk]. now rewrite H.
      * rewrite Hatt. cbn [fst snd]. now apply IH.
Qed.

(** When an attempt generates its row but a key field is not a column
    of that row, the loop raises the [KeyError] at once. *)
Lemma attempt_loop_key_error : forall n cols keys seen_keys r row r1 e,
  nonempty keys = true ->
  fill_row cols [] r = Ok (row, r1) ->
  composite_key row keys = Err e ->
  attempt_loop (S n) cols keys seen_keys r = Err e.
Proof.
  intros n cols keys seen_keys r row r1 e Hk Hrow Hcomp.
  cbn [attempt_loop]. unfold bind. now rewrite Hrow, Hk, Hcomp.
Qed.

Lemma customer_only_schemas :
  parse_schema_dir [("customer.sql", customer_file)]
    = [("Customer", customer_cols)].
Proof. vm_compute. reflexivity. Qed.

(** C4, the failing input.  One table [Customer (id, code)], key field
    [uid], one row asked for: the parent table is [Customer] by default,
    and the first attempt raises [KeyError] on [uid]; nothing is written
    and no attempt was a duplicate. *)
Theorem missing_key_field_raises_key_error :
  forall (r : rng),
    written (main_cli [("customer.sql", customer_file)] "uid" 1
                      EmptyString EmptyString r) = [] /\
    ended (main_cli [("customer.sql", customer_file)] "uid" 1
                    EmptyString EmptyString r) = Err (KeyError "uid") /\
    ~ some_row_exhausted 1 customer_cols ["uid"] [] r.
Proof.
  intro r.
  destruct (fill_row_total customer_cols [] r customer_cols_safe)
    as (row & r1 & Hrow).
  destruct (customer_row_shape _ _ _ Hrow) as (z & s & ->).
  assert (Hatt : attempt_loop 200 customer_cols ["uid"] [] r
                 = Err (KeyError "uid")).
  { change 200%nat with (S 199).
    eapply attempt_loop_key_error; [reflexivity | exact Hrow | reflexivity]. }
  assert (Hrun : main_cli [("customer.sql", customer_file)] "uid" 1
                   EmptyString EmptyString r
                 = mkRun [] (Err (KeyError "uid"))).
  { unfold main_cli. cbv zeta. rewrite customer_only_schemas.
    change (select_parent [("Customer", customer_cols)] "uid")
      with (Some "Customer").
    cbv iota beta.
    change (dict_get "Customer" [("Customer", customer_cols)])
      with (Some customer_cols).
    cbv iota beta.
    change (key_list "uid") with ["uid"].
    unfold gen_parent_rows. change (Z.to_nat 1) with 1%nat.
    cbn [parent_loop]. unfold bind. rewrite Hatt. reflexivity. }
  rewrite Hrun. cbn [written ended]. repeat split.
  cbn [some_row_exhausted]. intros [H | (row & seen' & r2 & H & [])].
  apply attempt_loop_exhausted in H; [|discriminate].
  rewrite Hatt in H. discriminate.
Qed.

End Exhaustion.

(** ** The end-to-end scenario *)

Lemma parse_customer_file :
  parse_schema_file customer_file = (Some "Customer", customer_cols).
Proof. vm_compute. reflexivity. Qed.

Lemma parse_order_file :
  parse_schema_file order_file = (Some "Order", order_cols).
Proof. vm_compute. reflexivity. Qed.

Lemma scenario_schemas : forall f1 f2,
  endswith ".sql" (lower f1) = true -> endswith ".sql" (lower f2) = true ->
  parse_schema_dir [(f1, customer_file); (f2, order_file)]
    = [("Customer", customer_cols); ("Order", order_cols)].
Proof.
  intros f1 f2 H1 H2. unfold parse_schema_dir. cbn [schema_dir_loop].
  rewrite H1, H2, parse_customer_file, parse_order_file. reflexivity.
Qed.

Lemma tuple_int_neq : forall a b,
  tuple_eq [VInt a] [VInt b] = false -> a <> b.
Proof.
  intros a b H ->. unfold tuple_eq, py_eq, exact_of, exact_eqb in H.
  rewrite Z.eqb_refl in H. discriminate.
Qed.

Section ScenarioProof.
Context {RT : Runtime}.

Lemma children_of_customer : forall rows outs r,
  children_loop [("Customer", customer_cols); ("Order", order_cols)] "Customer"
                [("Order", 2)] [("customer_id", "id")] rows outs r
  = match gen_child_rows order_cols [("customer_id", "id")] 2 rows r with
    | Err e => mkRun outs (Err e)
    | Ok (child_rows, r') =>
        match write_outputs "Order" order_cols child_rows with
        | Err e => mkRun outs (Err e)
        | Ok out => mkRun (outs ++ [out]) (Ok r')
        end
    end.
Proof.
  intros rows outs r. cbn [children_loop].
  change (String.eqb "Customer" "Customer") with true.
  change (String.eqb "Order" "Customer") with false.
  change (dict_get "Order" [("Order", 2)]) with (Some 2).
  cbv iota.
  destruct (gen_child_rows order_cols [("customer_id", "id")] 2 rows r)
    as [[child_rows r']|e]; [|reflexivity].
  now destruct (write_outputs "Order" order_cols child_rows).
Qed.

Lemma order_row_customer_id : forall a s crow,
  child_row_ok order_cols [("customer_id", "id")]
               [("id", VInt a); ("code", VStr s)] crow ->
  dict_get "customer_id" crow = Some (VInt a) /\
  (forall c, In c order_cols -> dict_mem (name c) crow = true).
Proof.
  intros a s crow H. split.
  - destruct (H (mkCol "customer_id" "integer" EmptyString))
      as (v & Hget & Hv); [right; now left|].
    cbn [name] in *. unfold child_value_ok in Hv.
    change (dict_get "customer_id" [("customer_id", "id")]) with (Some "id") in Hv.
    cbv iota in Hv.
    change (dict_get "id" [("id", VInt a); ("code", VStr s)])
      with (Some (VInt a)) in Hv.
    cbv iota in Hv. now subst v.
  - intros c Hc. destruct (H c Hc) as (v & Hget & _).
    unfold dict_mem. now rewrite Hget.
Qed.

(** C1, as the code has it.  The two schema files are laid out one
    column per line and the directory lists the [Customer] file first.
    Then, for every outcome of the random draws, either some [Customer]
    row runs out of its 200 attempts, each repeating an [id] already
    accepted, and the run ends with the duplicate-key error before
    anything is written, or it writes
    [Customer] with three rows of pairwise distinct [id] and then [Order]
    with six rows whose [customer_id] are the three [id], each twice in a
    row. *)
Theorem scenario_customer_first : forall f1 f2 r,
  endswith ".sql" (lower f1) = true -> endswith ".sql" (lower f2) = true ->
  scenario_outcome (run_scenario [(f1, customer_file); (f2, order_file)] r) \/
  (some_row_exhausted 3 customer_cols ["id"] [] r /\
   ended (run_scenario [(f1, customer_file); (f2, order_file)] r)
     = Err duplicate_key_error /\
   written (run_scenario [(f1, customer_file); (f2, order_file)] r) = []).
Proof.
  intros f1 f2 r H1 H2. unfold run_scenario, main_cli. cbv zeta.
  rewrite (scenario_schemas f1 f2 H1 H2).
  change (select_parent [("Customer", customer_cols); ("Order", order_cols)] "id")
    with (Some "Customer").
  cbv iota beta.
  change (dict_get "Customer" [("Customer", customer_cols); ("Order", order_cols)])
    with (Some customer_cols).
  cbv iota beta.
  change (key_list "id") with ["id"].
  assert (Hincl : incl ["id"] (map name customer_cols)).
  { intros k [<-|[]]. now left. }
  unfold gen_parent_rows. change (Z.to_nat 3) with 3%nat.
  destruct (parent_loop_safe 3 customer_cols ["id"] [] [] r
              customer_cols_safe Hincl) as [(rows & r1 & Hp) | Hp];
    rewrite Hp;
    [|right; split; [|now split];
      now apply (parent_loop_exhausted 3 customer_cols ["id"] [] [] r)].
  left. cbv iota beta.
  (* the three parent rows *)
  destruct (parent_loop_length _ _ _ _ _ _ _ _ Hp) as (new & Hrows & Hlen & Hshape).
  cbn [app] in Hrows. subst new.
  destruct rows as [|ra [|rb [|rc [|? ?]]]]; try discriminate Hlen.
  inversion Hshape as [|? ? (r0 & r0' & Ha) Hs1]; subst.
  inversion Hs1 as [|? ? (r2 & r2' & Hb) Hs2]; subst.
  inversion Hs2 as [|? ? (r3 & r3' & Hc) _]; subst.
  apply customer_row_shape in Ha as (a & sa & ->).
  apply customer_row_shape in Hb as (b & sb & ->).
  apply customer_row_shape in Hc as (c & sc & ->).
  (* their keys differ *)
  destruct (gen_parent_rows_distinct customer_cols ["id"] 3 r _ r1
              ltac:(discriminate) Hp) as (ts & Hts & Hd).
  cbn in Hts. injection Hts as <-.
  assert (Hab : a <> b) by (apply tuple_int_neq; now apply (Hd 0%nat 1%nat)).
  assert (Hac : a <> c) by (apply tuple_int_neq; now apply (Hd 0%nat 2%nat)).
  assert (Hbc : b <> c) by (apply tuple_int_neq; now apply (Hd 1%nat 2%nat)).
  (* the parent output *)
  match goal with
  | |- context [write_outputs ?t ?cs ?rs] =>
      destruct (write_outputs_total t cs rs) as [sql Hw]
  end.
  { intros row [<-|[<-|[<-|[]]]] col [<-|[<-|[]]]; reflexivity. }
  rewrite Hw.
  change (int_values (parse_keyval_map "Order=2")) with (Ok [("Order", 2)]).
  change (parse_keyval_map "customer_id=id") with [("customer_id", "id")].
  cbv iota beta. rewrite children_of_customer.
  (* the child rows *)
  unfold gen_child_rows.
  match goal with
  | |- context [child_loop ?ps ?m ?cs ?fk ?acc ?r0] =>
      destruct (child_loop_total ps m cs fk acc r0 order_cols_safe)
        as (crows & r4 & Hc)
  end.
  rewrite Hc. cbv iota beta.
  destruct (child_loop_ok _ _ _ _ _ _ _ _ Hc) as (blocks & Hcrows & HF).
  cbn [app] in Hcrows.
  inversion HF as [|? b1 ? bs1 [Hl1 Ha1] HF1]; subst.
  inversion HF1 as [|? b2 ? bs2 [Hl2 Ha2] HF2]; subst.
  inversion HF2 as [|? b3 ? bs3 [Hl3 Ha3] HF3]; subst.
  inversion HF3; subst.
  change (Z.to_nat 2) with 2%nat in *.
  destruct b1 as [|x1 [|y1 [|? ?]]]; try discriminate Hl1.
  destruct b2 as [|x2 [|y2 [|? ?]]]; try discriminate Hl2.
  destruct b3 as [|x3 [|y3 [|? ?]]]; try discriminate Hl3.
  repeat match goal with
         | H : Forall _ (_ :: _) |- _ => inversion H; subst; clear H
         | H : Forall _ [] |- _ => clear H
         end.
  repeat match goal with
         | H : child_row_ok _ _ _ _ |- _ =>
             apply order_row_customer_id in H as [? ?]
         end.
  cbn [List.concat app].
  match goal with
  | |- context [write_outputs ?t ?cs ?rs] =>
      destruct (write_outputs_total t cs rs) as [osql Hwo]
  end.
  { intros row Hrow col Hcol. cbn in Hrow.
    repeat destruct Hrow as [<-|Hrow]; auto; contradiction. }
  rewrite Hwo. cbn [app].
  unfold scenario_outcome. cbn [ended written].
  eexists _, _, _, a, b, c.
  split; [reflexivity|].
  split; [left; reflexivity|]. split; [right; left; reflexivity|].
  cbn [ended written o_table o_rows]. unfold column_values. cbn [map].
  repeat split; try assumption; try reflexivity.
  repeat match goal with H : dict_get "customer_id" _ = _ |- _ => rewrite H; clear H end.
  reflexivity.
Qed.

End ScenarioProof.

(** The same two files with the [Order] file listed first: [id] is a
    column of [Order] too, so [Order] becomes the parent table, with three
    rows, and [Customer] a child with three rows. *)
Lemma scenario_order_first_fails :
  ~ scenario_outcome
      (run_scenario (RT := Tape.runtime)
         [("1_order.sql", order_file); ("2_customer.sql", customer_file)]
         scenario_tape).
Proof.
  intros (r' & cust & ord & a & b & c & _ & _ & Hord & _ & Ht & _ & _ & _ & _
          & Hvals).
  vm_compute in Hord. destruct Hord as [<-|[<-|[]]].
  - vm_compute in Hvals. discriminate Hvals.
  - vm_compute in Ht. discriminate Ht.
Qed.

(** The declaration written on one line gives a table name and no
    column, so the file is skipped; with both files so written the run
    stops for want of schemas. *)
Example scenario_one_line_files :
  parse_schema_file customer_file_one_line = (Some "Customer", []) /\
  forall (RT : Runtime) (r : rng),
    ended (run_scenario [("customer.sql", customer_file_one_line)] r)
      = Err no_schema_error.
Proof. split; [vm_compute; reflexivity | intros; reflexivity]. Qed.

(** A random source that always draws the same number exhausts the 200
    attempts at the second row. *)
Example scenario_constant_draws :
  ended (run_scenario (RT := Tape.runtime)
           [("customer.sql", customer_file); ("order.sql", order_file)] [])
    = Err duplicate_key_error.
Proof. vm_compute. reflexivity. Qed.

(** ** Fixed-point decimals *)

















Section DecimalGenerator.
Context {RT : Runtime}.


End DecimalGenerator.

(** *** The text of a generated decimal *)





(** *** Scales beyond the precision of the context *)




Lemma dec_pow10_overflow : forall S, 1000000 <= S -> dec_pow10 S = None.
Proof.
  intros S HS. unfold dec_pow10.
  destruct (nat_str_spec S ltac:(lia)) as (_ & _ & _ & Hb).
  destruct (Hb ltac:(lia)) as [_ Hhi].
  assert (7 <= ndigits S).
  { destruct (Z_le_gt_dec 7 (ndigits S)); [assumption|].
    assert (10 ^ ndigits S <= 10 ^ 6) by (apply Z.pow_le_mono_r; lia).
    change (10 ^ 6) with 1000000 in *. lia. }
  change (ndigits Emax) with 6.
  destruct (Z.geb_spec (ndigits S - 1) 6) as [_|]; [|lia].
  reflexivity.
Qed.





Section DecimalGeneratorLarge.
Context {RT : Runtime}.


Lemma decimal_random_overflow : forall P S r,
  1000000 <= S -> _decimal_random P S r = Err DecimalSignal.
Proof.
  intros P S r HS. unfold _decimal_random. cbv zeta.
  destruct (Z.ltb_spec S 0) as [|_]; [lia|].
  destruct (Z.gtb_spec S 0) as [_|]; [|lia].
  unfold try_or, bind.
  match goal with
  | |- context [if ?b then draw ?f else ret 0] => destruct b
  end; unfold draw, ret, raise;
  repeat match goal with
  | |- context [randint ?a ?b ?t] => destruct (randint a b t)
  end;
  now rewrite (dec_pow10_overflow S HS).
Qed.

End DecimalGeneratorLarge.

Section DecimalClaim.
Context {RT : Runtime}.

Lemma generate_decimal_column : forall col r P S,
  decimal_rule (normalize_type (type col)) = true ->
  precision_scale (strip (lens col)) = (P, S) ->
  generate_random col r =
    match _decimal_random P S r with
    | Ok (d, r') => Ok (VDecimal d, r')
    | Err e => Err e
    end.
Proof.
  intros col r P S Hrule Hps. unfold decimal_rule in Hrule.
  repeat (apply andb_true_iff in Hrule as [Hrule ?]).
  repeat match goal with H : negb _ = true |- _ => apply negb_true_iff in H end.
  unfold generate_random.
  repeat match goal with H : _ = false |- _ => rewrite H; clear H end.
  match goal with H : _ = true |- _ => rewrite H; clear H end.
  rewrite Hps. unfold bind.
  now destruct (_decimal_random P S r) as [[d r']|e].
Qed.


(** From a scale of a million on, the power [Decimal(10) ** scale]
    overflows and the generator raises. *)
Lemma numeric_scale_overflow : forall (col : ColumnSpec) (r : rng) (P S : Z),
  decimal_rule (normalize_type (type col)) = true ->
  precision_scale (strip (lens col)) = (P, S) ->
  1000000 <= S ->
  generate_random col r = Err DecimalSignal.
Proof.
  intros col r P S Hrule Hps HS.
  rewrite (generate_decimal_column col r P S Hrule Hps).
  now rewrite (decimal_random_overflow P S r HS).
Qed.

End DecimalClaim.


(** Further cases: a declared precision of 0 is replaced by 10; a value
    below 1 is written with a leading 0; a precision beyond the 28
    digits of the context is rounded, which can add a digit before the
    point; a scale beyond 28 rounds the fraction. *)
Example numeric_precision_zero_is_ten :
  exists d t',
    generate_random (RT := Tape.runtime) (mkCol "n" "numeric" "0")
                    [1234567890] = Ok (VDecimal d, t') /\
    dec_str d = "1234567890".
Proof. exists (mkDec false 1234567890 0), []. split; vm_compute; reflexivity. Qed.

Example numeric_2_2_leading_zero :
  exists d t',
    generate_random (RT := Tape.runtime) (mkCol "n" "numeric" "2,2")
                    [37] = Ok (VDecimal d, t') /\
    dec_str d = "0.37" /\ digits_before_point (dec_str d) = 1%nat.
Proof.
  exists (mkDec false 37 (-2)), []. repeat split; vm_compute; reflexivity.
Qed.

Example numeric_30_29_rounded :
  exists d t',
    generate_random (RT := Tape.runtime) (mkCol "n" "numeric" "30,29")
                    [9; 10 ^ 29 - 1] = Ok (VDecimal d, t') /\
    dec_str d = "10.00000000000000000000000000" /\
    digits_before_point (dec_str d) = 2%nat.
Proof.
  exists (mkDec false (10 ^ 27) (-26)), [].
  repeat split; vm_compute; reflexivity.
Qed.

Example numeric_5_30_rounded :
  exists d t',
    generate_random (RT := Tape.runtime) (mkCol "n" "numeric" "5,30")
                    [123456789012345678901234567895] = Ok (VDecimal d, t') /\
    dec_str d = "0.1234567890123456789012345679".
Proof.
  exists (mkDec false 1234567890123456789012345679 (-28)), [].
  split; vm_compute; reflexivity.
Qed.

Example numeric_40_2_rounded :
  exists d t',
    generate_random (RT := Tape.runtime) (mkCol "n" "numeric" "40,2")
                    [10 ^ 38 - 1; 50] = Ok (VDecimal d, t') /\
    dec_str d = "1.000000000000000000000000000E+38".
Proof.
  exists (mkDec false (10 ^ 27) 11), []. split; vm_compute; reflexivity.
Qed.

(** A precision or scale written with more digits than [int] accepts,
    leading zeros counted, is not read: the pair falls back to
    [(10, 0)]. *)
Example numeric_long_numeral_is_default :
  precision_scale (strip (repeat_char "0" 4299 ++ "5,2")) = (5, 2) /\
  precision_scale (strip (repeat_char "0" 4300 ++ "5,2")) = (10, 0) /\
  precision_scale (strip ("5," ++ repeat_char "0" 4300 ++ "2")) = (10, 0).
Proof. repeat split; vm_compute; reflexivity. Qed.

(** * The theorems at concrete inputs *)

Lemma scenario_customer_first_witness :
  endswith ".sql" (lower "customer.sql") = true /\
  endswith ".sql" (lower "order.sql") = true /\
  (scenario_outcome
     (run_scenario (RT := Tape.runtime)
        [("customer.sql", customer_file); ("order.sql", order_file)]
        scenario_tape) \/
   (some_row_exhausted (RT := Tape.runtime) 3 customer_cols ["id"] []
      scenario_tape /\
    ended (run_scenario (RT := Tape.runtime)
             [("customer.sql", customer_file); ("order.sql", order_file)]
             scenario_tape) = Err duplicate_key_error /\
    written (run_scenario (RT := Tape.runtime)
               [("customer.sql", customer_file); ("order.sql", order_file)]
               scenario_tape) = [])).
Proof.
  split; [reflexivity|]. split; [reflexivity|].
  apply (scenario_customer_first (RT := Tape.runtime)
           "customer.sql" "order.sql" scenario_tape); reflexivity.
Defined.


Lemma parent_keys_pairwise_distinct_witness :
  ["id"] <> [] /\
  gen_parent_rows (RT := Tape.runtime) customer_cols ["id"] 3 [5; 3; 1; 2; 5; 9; 7]
    = Ok ([[("id", VInt 5); ("code", VStr "bcfj")];
           [("id", VInt 7); ("code", VStr "a")];
           [("id", VInt 0); ("code", VStr "a")]], []) /\
  exists ts,
    keys_of [[("id", VInt 5); ("code", VStr "bcfj")];
             [("id", VInt 7); ("code", VStr "a")];
             [("id", VInt 0); ("code", VStr "a")]] ["id"] = Ok ts /\
    pairwise_distinct ts.
Proof.
  assert (Hk : ["id"] <> []) by discriminate.
  assert (Hrun : gen_parent_rows (RT := Tape.runtime) customer_cols ["id"] 3
                   [5; 3; 1; 2; 5; 9; 7]
                 = Ok ([[("id", VInt 5); ("code", VStr "bcfj")];
                        [("id", VInt 7); ("code", VStr "a")];
                        [("id", VInt 0); ("code", VStr "a")]], []))
    by (vm_compute; reflexivity).
  split; [exact Hk|]. split; [exact Hrun|].
  exact (parent_keys_pairwise_distinct (RT := Tape.runtime)
           customer_cols ["id"] 3 [5; 3; 1; 2; 5; 9; 7] _ _ Hk Hrun).
Defined.

Lemma child_rows_by_parent_blocks_witness :
  0 <= 2 /\
  exists rows r' blocks,
    gen_child_rows (RT := Tape.runtime) order_cols [("customer_id", "id")] 2
                   [[("id", VInt 5)]; [("id", VInt 9)]] [1; 2; 3; 4]
      = Ok (rows, r') /\
    Z.of_nat (List.length rows) = Z.of_nat 2 * 2 /\
    rows = List.concat blocks /\
    Forall2 (fun prow block =>
               Z.of_nat (List.length block) = 2 /\
               Forall (child_row_ok (RT := Tape.runtime) order_cols
                         [("customer_id", "id")] prow) block)
            [[("id", VInt 5)]; [("id", VInt 9)]] blocks.
Proof.
  split; [lia|].
  apply (child_rows_by_parent_blocks (RT := Tape.runtime) order_cols
           [("customer_id", "id")] 2 [[("id", VInt 5)]; [("id", VInt 9)]]
           [1; 2; 3; 4]); [lia | exact order_cols_safe].
Defined.

Lemma integer_family_ranges_witness :
  (exists z r', generate_random (RT := Tape.runtime)
                  (mkCol "a" "BIGINT" EmptyString) [8999999999]
                = Ok (VInt z, r') /\ 0 <= z <= 9000000000) /\
  (exists z r', generate_random (RT := Tape.runtime)
                  (mkCol "b" "smallint" EmptyString) [32000]
                = Ok (VInt z, r') /\ 0 <= z <= 32000) /\
  (exists z r', generate_random (RT := Tape.runtime)
                  (mkCol "c" "integer NOT NULL" EmptyString) [7]
                = Ok (VInt z, r') /\ 0 <= z <= 1000000).
Proof.
  split; [|split].
  - apply (proj1 (integer_family_ranges (RT := Tape.runtime)
                    (mkCol "a" "BIGINT" EmptyString) [8999999999])).
    reflexivity.
  - apply (proj1 (proj2 (integer_family_ranges (RT := Tape.runtime)
                           (mkCol "b" "smallint" EmptyString) [32000])));
      reflexivity.
  - apply (proj2 (proj2 (integer_family_ranges (RT := Tape.runtime)
                           (mkCol "c" "integer NOT NULL" EmptyString) [7])));
      reflexivity.
Defined.


Lemma constraint_prefix_skips_column_witness :
  startswith_any constraint_starts (lower (strip "  key_id integer,")) = true /\
  parse_lines (Some "t") [] ["  key_id integer,"; "  name text"; ")"]
    = (if startswith ")" (strip "  key_id integer,")
          || endswith ");" (strip "  key_id integer,")
       then (Some "t", [])
       else parse_lines (Some "t") [] ["  name text"; ")"]) /\
  In "checksum" ["key_id"; "checksum"; "index_no"; "references_count"] /\
  startswith_any constraint_starts
    (lower (strip ("checksum" ++ " " ++ "varchar(32),"))) = true.
Proof.
  assert (H1 : startswith_any constraint_starts
                 (lower (strip "  key_id integer,")) = true) by reflexivity.
  assert (H2 : In "checksum" ["key_id"; "checksum"; "index_no"; "references_count"])
    by (right; left; reflexivity).
  destruct constraint_prefix_skips_column as (Hstep & Hnames & _).
  split; [exact H1|]. split; [exact (Hstep "t" [] _ _ H1)|].
  split; [exact H2 | exact (Hnames _ "varchar(32)," H2)].
Defined.

Lemma varchar_length_clamped_witness :
  varchar_rule (normalize_type "varchar") = true /\
  declared_len "0" 32 = Some 0 /\
  exists s r',
    generate_random (RT := Tape.runtime) (mkCol "code" "varchar" "0") [12; 50]
      = Ok (VStr s, r') /\
    1 <= Z.of_nat (String.length s) <= Z.min (Z.max 0 1) 255 /\
    (255 < 0 -> Z.of_nat (String.length s) <= 255) /\
    (0 = 0 -> String.length s = 1%nat).
Proof.
  split; [reflexivity|]. split; [reflexivity|].
  apply (varchar_length_clamped (RT := Tape.runtime)
           (mkCol "code" "varchar" "0") [12; 50] 0); reflexivity.
Defined.

(** Literals of the kinds of value the generator returns. *)
Example sql_literals :
  map (to_sql_literal (RT := Tape.runtime))
      [ VNone; VBool true; VInt (-7); VDecimal (mkDec false 125 (-1));
        VDateTime (mkDateTime (mkDate 2024 2 29) (mkTime 7 5 9 123456));
        VDate (mkDate 987 1 2); VTime (mkTime 0 0 0 0); VStr "O'Brien" ]
  = [ "NULL"; "TRUE"; "-7"; "12.5"; "'2024-02-29 07:05:09'";
      "'0987-01-02'"; "'00:00:00'"; "'O''Brien'" ].
Proof. vm_compute. reflexivity. Qed.

(** * Further properties of the code *)

(** ** The matcher against the meaning of the patterns *)

Lemma rmatch_eq : forall fuel n0 r s caps k,
  rmatch fuel n0 r s caps k =
  match r with
  | REps => k s caps
  | RLit c =>
      match s with
      | String d s' =>
          if Ascii.eqb (lower_char d) (lower_char c) then k s' caps else None
      | EmptyString => None
      end
  | RSet p =>
      match s with
      | String d s' => if p d then k s' caps else None
      | EmptyString => None
      end
  | RSeq a b => rmatch fuel n0 a s caps (fun s1 c1 => rmatch fuel n0 b s1 c1 k)
  | ROpt a =>
      match rmatch fuel n0 a s caps k with
      | Some m => Some m
      | None => k s caps
      end
  | RStar a =>
      match fuel with
      | O => k s caps
      | S f =>
          match rmatch fuel n0 a s caps
                  (fun s1 c1 =>
                     if (String.length s1 <? String.length s)%nat
                     then rmatch f n0 (RStar a) s1 c1 k
                     else None) with
          | Some m => Some m
          | None => k s caps
          end
      end
  | RGroup g a =>
      rmatch fuel n0 a s caps
        (fun s1 c1 =>
           k s1 ((g, take (String.length s - String.length s1) s) :: c1))
  | RBol => if (String.length s =? n0)%nat then k s caps else None
  | REol =>
      match s with
      | EmptyString => k s caps
      | String c EmptyString =>
          if Ascii.eqb c "010" then k s caps else None
      | _ => None
      end
  end.
Proof. intros fuel n0 r s caps k. destruct fuel; destruct r; reflexivity. Qed.

(** Whatever the matcher returns went through the continuation after a
    match of the pattern. *)
Lemma rmatch_sound : forall fuel n0 r s caps k m,
  rmatch fuel n0 r s caps k = Some m ->
  exists s1 c1, matches n0 r s caps s1 c1 /\ k s1 c1 = Some m.
Proof.
  induction fuel as [|f IHf]; intros n0 r;
    induction r as [|ch|p|a IHa b IHb|a IHa|a IHa|g a IHa| |];
    intros s caps k m H; rewrite rmatch_eq in H; cbv iota beta in H.
  all: try (exists s, caps; split; [constructor | exact H]; fail).
  all: try (destruct s as [|d s']; [discriminate|];
            match type of H with
            | (if ?b then _ else _) = _ => destruct b eqn:E; [|discriminate]
            end;
            exists s', caps; split; [constructor|exact H];
            first [now apply Ascii.eqb_eq in E | exact E]; fail).
  all: try (apply IHa in H as (s1 & c1 & Ha & H);
            apply IHb in H as (s2 & c2 & Hb & H);
            exists s2, c2; split; [econstructor; eassumption | exact H]; fail).
  all: try (destruct (rmatch _ n0 a s caps k) as [m'|] eqn:E;
            [ injection H as ->; apply IHa in E as (s1 & c1 & Ha & E);
              exists s1, c1; split; [now apply M_opt_some | exact E]
            | exists s, caps; split; [apply M_opt_none | exact H] ]; fail).
  all: try (apply IHa in H as (s1 & c1 & Ha & H);
            exists s1, ((g, take (String.length s - String.length s1) s) :: c1);
            split; [now constructor | exact H]; fail).
  all: try (destruct (String.length s =? n0)%nat eqn:E; [|discriminate];
            exists s, caps; split; [|exact H];
            constructor; apply Nat.eqb_eq; exact E; fail).
  all: try (destruct s as [|c [|c' s']];
            [ exists EmptyString, caps; split; [constructor; now left | exact H]
            | destruct (Ascii.eqb c "010") eqn:E; [|discriminate];
              apply Ascii.eqb_eq in E; subst c;
              exists (String "010" EmptyString), caps;
              split; [constructor; now right | exact H]
            | discriminate ]; fail).
  (* the star with fuel left *)
  match type of H with
  | match ?x with Some _ => _ | None => _ end = _ =>
      destruct x as [m'|] eqn:E
  end.
  - injection H as ->. apply IHa in E as (s1 & c1 & Ha & E).
    destruct (String.length s1 <? String.length s)%nat; [|discriminate].
    apply IHf in E as (s2 & c2 & Hs & E).
    exists s2, c2. split; [eapply M_star_cons; eassumption | exact E].
  - exists s, caps. split; [apply M_star_nil | exact H].
Qed.

(** ** What a match consumes *)

Lemma take_app_length : forall w s1 : string,
  take (String.length (w ++ s1) - String.length s1) (w ++ s1) = w.
Proof.
  intros w s1. rewrite str_length_app.
  replace (String.length w + String.length s1 - String.length s1)%nat
    with (String.length w) by lia.
  induction w as [|c w IH]; cbn.
  - now destruct s1.
  - now rewrite IH.
Qed.

Lemma all_chars_app : forall p a b,
  all_chars p (a ++ b) = all_chars p a && all_chars p b.
Proof.
  intros p a b. induction a as [|c a IH]; cbn; [reflexivity|].
  now rewrite IH, andb_assoc.
Qed.

Lemma all_chars_impl : forall (p q : ascii -> bool) s,
  (forall c, p c = true -> q c = true) ->
  all_chars p s = true -> all_chars q s = true.
Proof.
  intros p q s Hpq. induction s as [|c s IH]; cbn; [reflexivity|].
  intro H. apply andb_true_iff in H as [Hc Hs].
  now rewrite (Hpq c Hc), IH.
Qed.

(** A group-free pattern leaves the groups as they are. *)
Lemma matches_nocap : forall n0 r s c s1 c1,
  matches n0 r s c s1 c1 -> nocap r = true -> c1 = c.
Proof.
  intros n0 r s c s1 c1 H. induction H; cbn [nocap]; intro Hn;
    try reflexivity; try discriminate; auto.
  - apply andb_true_iff in Hn as [Ha Hb].
    rewrite (IHmatches2 Hb). now apply IHmatches1.
  - rewrite (IHmatches2 Hn). now apply IHmatches1.
Qed.

(** A match consumes a prefix of the input, made of characters the
    pattern allows. *)
Lemma matches_consumed : forall n0 p r s c s1 c1,
  matches n0 r s c s1 c1 -> only_chars p r ->
  exists w, s = w ++ s1 /\ all_chars p w = true.
Proof.
  intros n0 p r s c s1 c1 H. induction H; cbn [only_chars]; intro Ho;
    try (exists EmptyString; split; reflexivity).
  - exists (String d EmptyString). split; [reflexivity|].
    cbn. now rewrite (Ho d H).
  - exists (String d EmptyString). split; [reflexivity|].
    cbn. now rewrite (Ho d H).
  - destruct Ho as [Ha Hb].
    destruct (IHmatches1 Ha) as (w1 & -> & H1).
    destruct (IHmatches2 Hb) as (w2 & -> & H2).
    exists (w1 ++ w2). split; [now rewrite app_assoc_s|].
    now rewrite all_chars_app, H1, H2.
  - auto.
  - destruct (IHmatches1 Ho) as (w1 & -> & H1).
    destruct (IHmatches2 Ho) as (w2 & -> & H2).
    exists (w1 ++ w2). split; [now rewrite app_assoc_s|].
    now rewrite all_chars_app, H1, H2.
  - auto.
Qed.

(** One or more characters of a set: the prefix consumed is not empty. *)
Lemma matches_plus_set : forall n0 (p : ascii -> bool) s c s1 c1,
  matches n0 (RPlus (RSet p)) s c s1 c1 ->
  c1 = c /\
  exists w, s = w ++ s1 /\ w <> EmptyString /\ all_chars p w = true.
Proof.
  intros n0 p s c s1 c1 H. split.
  - now apply (matches_nocap _ _ _ _ _ _ H).
  - unfold RPlus in H. inversion H as [| | |a b s0 c0 s2 c2 s3 c3 Ha Hb| | | | | | |];
      subst.
    inversion Ha; subst.
    destruct (matches_consumed n0 p _ _ _ _ _ Hb) as (w & -> & Hw);
      [cbn; auto|].
    exists (String d w). split; [reflexivity|].
    split; [discriminate|]. cbn.
    match goal with Hd : p d = true |- _ => now rewrite Hd, Hw end.
Qed.

(** The first pattern of a sequence that consumes a non-empty prefix. *)
Lemma matches_seq_plus_set : forall n0 (p q : ascii -> bool) r s c s1 c1,
  matches n0 (RSeq (RPlus (RSet p)) r) s c s1 c1 ->
  nocap r = true -> only_chars q r -> (forall d, p d = true -> q d = true) ->
  c1 = c /\
  exists d w, s = String d w ++ s1 /\ p d = true /\ all_chars q w = true.
Proof.
  intros n0 p q r s c s1 c1 H Hn Ho Hpq.
  inversion H as [| | |a b s0 c0 s2 c2 s3 c3 Ha Hb| | | | | | |]; subst.
  apply matches_plus_set in Ha as (-> & w1 & -> & Hw1 & Hp1).
  pose proof (matches_nocap _ _ _ _ _ _ Hb Hn) as ->.
  destruct (matches_consumed n0 q _ _ _ _ _ Hb Ho) as (w2 & -> & Hw2).
  split; [reflexivity|].
  destruct w1 as [|d w1]; [congruence|]. cbn in Hp1.
  apply andb_true_iff in Hp1 as [Hd Hp1].
  exists d, (w1 ++ w2). split; [cbn; now rewrite app_assoc_s|].
  split; [exact Hd|].
  rewrite all_chars_app, Hw2, (all_chars_impl p q w1 Hpq Hp1). reflexivity.
Qed.

(** ** The groups of a column line *)

Ltac inv_seq H Ha Hb :=
  let Hx := fresh in
  inversion H as [| | |? ? ? ? ? ? ? ? Ha Hx| | | | | | |]; subst; clear H;
  rename Hx into Hb.

Ltac inv_group H Ha :=
  let Hx := fresh in
  inversion H as [| | | | | | | |? ? ? ? ? ? Hx| |]; subst; clear H;
  rename Hx into Ha.

Ltac same_groups H :=
  apply matches_nocap in H; [|reflexivity]; subst.

Lemma lit_is_comma : forall d, lower_char d = lower_char "," -> d = ","%char.
Proof.
  intros d H. destruct d as [[] [] [] [] [] [] [] []];
    vm_compute in H; try discriminate H; reflexivity.
Qed.

Lemma digit_is_type_char : forall d, is_digit d = true -> type_char d = true.
Proof.
  intros d H. destruct d as [[] [] [] [] [] [] [] []];
    vm_compute in H; try discriminate H; reflexivity.
Qed.

Lemma col_re_groups : forall n0 s s1 m,
  matches n0 col_re s [] s1 m ->
  exists col ty d w,
    group m "col" = Some col /\ word_string col /\
    group m "type" = Some ty /\ ty = String d w /\ type_char d = true /\
    all_chars type_or_space w = true /\
    lens_shaped (or_empty (group m "lens")).
Proof.
  intros n0 s s1 m H. unfold col_re in H. cbn [RSeqs] in H.
  inv_seq H H1 H. same_groups H1.
  inv_seq H H1 H. same_groups H1.
  inv_seq H H1 H. same_groups H1.
  inv_seq H Hcol H. inv_group Hcol Hcol.
  inv_seq H H1 H. same_groups H1.
  inv_seq H H1 H. same_groups H1.
  inv_seq H Hty H. inv_group Hty Hty.
  inv_seq H Hlens H.
  inv_seq H H1 H. same_groups H1.
  inv_seq H H1 H. same_groups H1.
  inv_seq H H1 H. same_groups H1.
  inv_seq H H1 H. same_groups H1. same_groups H.
  unfold word in Hcol.
  apply matches_plus_set in Hcol as (-> & wc & -> & Hwc & Hpc).
  rewrite take_app_length in *.
  apply (matches_seq_plus_set n0 type_char type_or_space) in Hty
    as (-> & d & wt & -> & Hd & Hwt).
  2: reflexivity.
  2: { cbn. unfold type_or_space. repeat split; intros x Hx.
       - unfold ws in Hx. cbn in Hx. rewrite Hx. apply orb_true_r.
       - unfold ws in Hx. cbn in Hx. rewrite Hx. apply orb_true_r.
       - now rewrite Hx.
       - now rewrite Hx. }
  2: { intros x Hx. unfold type_or_space. now rewrite Hx. }
  rewrite take_app_length in *.
  exists wc, (String d wt), d, wt.
  inversion Hlens as [| | | |? ? ? ? ? Hsome|? ? ?| | | | |]; subst; clear Hlens.
  2: { split; [reflexivity|]. split; [now split|].
       split; [reflexivity|]. split; [reflexivity|].
       split; [assumption|]. split; [assumption|]. now left. }
  inv_seq Hsome H1 Hsome. same_groups H1.
  inv_seq Hsome Hl Hsome. same_groups Hsome.
  inv_group Hl Hl.
  inv_seq Hl Hp Hq. unfold digit in Hp.
  apply matches_plus_set in Hp as (-> & wp & -> & Hwp & Hpp).
  pose proof (matches_nocap _ _ _ _ _ _ Hq eq_refl) as Hc1. subst c1.
  split; [reflexivity|]. split; [now split|].
  split; [reflexivity|]. split; [reflexivity|].
  split; [assumption|]. split; [assumption|].
  match goal with
  | |- lens_shaped (or_empty (group ((_, ?t) :: _) _)) =>
      change (lens_shaped t)
  end.
  inversion Hq as [| | | |? ? ? ? ? Hsome|? ? ?| | | | |]; subst; clear Hq.
  - inv_seq Hsome Hc Hsome.
    inversion Hc as [|? ? ? ? Hlit| | | | | | | | |]; subst; clear Hc.
    apply lit_is_comma in Hlit. subst.
    unfold digit in Hsome.
    apply matches_plus_set in Hsome as (_ & wq & -> & Hwq & Hpq).
    match goal with
    | |- context [wp ++ String "," (wq ++ ?t)] =>
        replace (wp ++ String "," (wq ++ t)) with ((wp ++ "," ++ wq) ++ t)
          by (rewrite !app_assoc_s; reflexivity)
    end.
    rewrite take_app_length. right. right.
    exists wp, wq. repeat split; assumption.
  - rewrite take_app_length. right. left. now split.
Qed.

Lemma table_re_groups : forall n0 s s1 m,
  matches n0 table_re s [] s1 m ->
  exists v, group m "name" = Some v /\ word_string v.
Proof.
  intros n0 s s1 m H. unfold table_re in H. cbn [RSeqs] in H.
  inv_seq H H1 H. same_groups H1.
  inv_seq H H1 H. same_groups H1.
  inv_seq H H1 H. same_groups H1.
  inv_seq H H1 H. same_groups H1.
  inv_seq H H1 H. same_groups H1.
  inv_seq H Hschema H.
  inv_seq H H1 H. same_groups H1.
  inv_seq H Hname H. same_groups H.
  inv_group Hname Hname. unfold word in Hname.
  apply matches_plus_set in Hname as (-> & w & -> & Hw & Hp).
  rewrite take_app_length.
  exists w. split; [reflexivity | now split].
Qed.

Lemma re_match_sound : forall r s m,
  re_match r s = Some m ->
  exists s1, matches (String.length s) r s [] s1 m.
Proof.
  intros r s m H. unfold re_match in H.
  apply rmatch_sound in H as (s1 & c1 & Hm & [= <-]). now exists s1.
Qed.

Lemma search_from_sound : forall r n0 s m,
  search_from r n0 s = Some m -> exists s0 s1, matches n0 r s0 [] s1 m.
Proof.
  intros r n0 s. induction s as [|c s IH]; intros m H; cbn [search_from] in H.
  - destruct (rmatch _ n0 r EmptyString [] _) as [m'|] eqn:E; [|discriminate].
    injection H as ->.
    apply rmatch_sound in E as (s1 & c1 & Hm & [= <-]). eexists _, _; eassumption.
  - destruct (rmatch _ n0 r (String c s) [] _) as [m'|] eqn:E.
    + injection H as ->.
      apply rmatch_sound in E as (s1 & c1 & Hm & [= <-]). eexists _, _; eassumption.
    + now apply IH.
Qed.

Lemma re_search_sound : forall r s m,
  re_search r s = Some m ->
  exists s0 s1, matches (String.length s) r s0 [] s1 m.
Proof. intros r s m H. now apply search_from_sound in H. Qed.

(** ** Trimming *)

Lemma all_chars_lstrip : forall p q s,
  all_chars q s = true -> all_chars q (lstrip_by p s) = true.
Proof.
  intros p q s. induction s as [|c s IH]; cbn; [reflexivity|].
  intro H. destruct (p c); [|exact H].
  apply andb_true_iff in H as [_ H]. now apply IH.
Qed.

Lemma all_chars_rstrip : forall p q s,
  all_chars q s = true -> all_chars q (rstrip_by p s) = true.
Proof.
  intros p q s. induction s as [|c s IH]; cbn [all_chars rstrip_by];
    [reflexivity|].
  intro H. apply andb_true_iff in H as [Hc H]. specialize (IH H).
  destruct (rstrip_by p s).
  - destruct (p c); cbn; [reflexivity | now rewrite Hc].
  - change (q c && all_chars q (String a s0) = true). now rewrite Hc, IH.
Qed.

Lemma rstrip_by_id : forall p s,
  all_chars (fun c => negb (p c)) s = true -> rstrip_by p s = s.
Proof.
  intros p s. induction s as [|c s IH]; cbn [all_chars]; [reflexivity|].
  intro H. apply andb_true_iff in H as [Hc H].
  apply negb_true_iff in Hc.
  rewrite (rstrip_by_keep p c s Hc). now rewrite IH.
Qed.

Lemma lstrip_by_id : forall p s,
  all_chars (fun c => negb (p c)) s = true -> lstrip_by p s = s.
Proof.
  intros p [|c s]; cbn; [reflexivity|].
  intro H. apply andb_true_iff in H as [Hc _].
  apply negb_true_iff in Hc. now rewrite Hc.
Qed.

Lemma strip_id : forall s,
  all_chars (fun c => negb (is_space c)) s = true -> strip s = s.
Proof.
  intros s H. unfold strip. rewrite (lstrip_by_id _ _ H).
  now apply rstrip_by_id.
Qed.

Lemma digit_not_space : forall c, is_digit c = true -> is_space c = false.
Proof.
  intros c H. destruct c as [[] [] [] [] [] [] [] []];
    vm_compute in H; try discriminate H; reflexivity.
Qed.

Lemma digit_not_c_space : forall c, is_digit c = true -> is_c_space c = false.
Proof.
  intros c H. destruct c as [[] [] [] [] [] [] [] []];
    vm_compute in H; try discriminate H; reflexivity.
Qed.

Lemma type_char_not_space : forall c, type_char c = true -> is_space c = false.
Proof.
  intros c H. unfold type_char in H. apply negb_true_iff in H.
  now apply orb_false_iff in H as [_ H].
Qed.

Lemma lens_shaped_no_space : forall s,
  lens_shaped s -> all_chars (fun c => negb (is_space c)) s = true.
Proof.
  assert (Hd : forall s, all_chars is_digit s = true ->
                 all_chars (fun c => negb (is_space c)) s = true).
  { intros s. apply all_chars_impl. intros c Hc.
    now rewrite (digit_not_space c Hc). }
  intros s [-> | [[_ H] | (p & q & -> & [_ Hp] & [_ Hq])]].
  - reflexivity.
  - now apply Hd.
  - rewrite all_chars_app, (Hd p Hp). cbn. now rewrite (Hd q Hq).
Qed.

(** ** The descriptors the parser builds *)

Lemma parse_lines_shaped : forall lines tbl cols,
  Forall column_shaped cols ->
  (forall t, tbl = Some t -> word_string t) ->
  Forall column_shaped (snd (parse_lines tbl cols lines)) /\
  (forall t, fst (parse_lines tbl cols lines) = Some t -> word_string t).
Proof.
  induction lines as [|raw rest IH]; intros tbl cols Hcols Htbl;
    cbn [parse_lines]; [now split|].
  destruct (is_empty (strip raw)); [now apply IH|].
  destruct tbl as [t|].
  - destruct (startswith ")" (strip raw) || endswith ");" (strip raw));
      [now split|].
    destruct (startswith_any constraint_starts (lower (strip raw)));
      [now apply IH|].
    destruct (re_match col_re (rstrip_comma (strip raw))) as [m|] eqn:Hm;
      [|now apply IH].
    apply IH; [|exact Htbl].
    apply Forall_app. split; [exact Hcols|]. constructor; [|constructor].
    apply re_match_sound in Hm as (s1 & Hm).
    apply col_re_groups in Hm
      as (col & ty & d & w & -> & Hcol & -> & -> & Hd & Hw & Hl).
    unfold column_shaped. cbn [name type lens or_empty].
    split; [exact Hcol|]. split.
    + unfold strip. rewrite (lstrip_by_keep _ d w (type_char_not_space d Hd)).
      rewrite (rstrip_by_keep _ d w (type_char_not_space d Hd)).
      split; [discriminate|].
      cbn [all_chars]. unfold type_or_space at 1. rewrite Hd. cbn [orb andb].
      now apply all_chars_rstrip.
    + now rewrite (strip_id _ (lens_shaped_no_space _ Hl)).
  - destruct (re_search table_re (strip raw)) as [m|] eqn:Hm.
    + apply IH; [exact Hcols|].
      intros t Ht. apply re_search_sound in Hm as (s0 & s1 & Hm).
      apply table_re_groups in Hm as (v & Hv & Hw).
      rewrite Hv in Ht. now injection Ht as <-.
    + apply IH; [exact Hcols | discriminate].
Qed.

(** ** More rules of the value generator *)

Section MoreRules.
Context {RT : Runtime}.

Ltac reach_rule Hrule :=
  repeat (apply andb_true_iff in Hrule as [Hrule ?]);
  repeat match goal with H : negb _ = true |- _ => apply negb_true_iff in H end;
  unfold generate_random;
  repeat match goal with H : _ = false |- _ => rewrite H; clear H end;
  repeat match goal with H : _ = true |- _ => rewrite H; clear H end.

Lemma char_exact_length : forall n r,
  exists s r', _char_exact n r = Ok (s, r') /\
    Z.of_nat (String.length s) = clamp_len n.
Proof.
  intros n r. unfold _char_exact, draw.
  pose proof (pystr_length (clamp_len n) (clamp_len n) r) as H.
  destruct (pystr (clamp_len n) (clamp_len n) r) as [s r'].
  exists s, r'. split; [reflexivity|].
  cbn [fst] in H. unfold clamp_len in *. lia.
Qed.

(** The three draws of a time of day, in the order hour, minute, second,
    always give a time. *)
Lemma random_time : forall r,
  exists h m s r1 r2 r3,
    randint 0 23 r = (h, r1) /\ randint 0 59 r1 = (m, r2) /\
    randint 0 59 r2 = (s, r3) /\
    0 <= h <= 23 /\ 0 <= m <= 59 /\ 0 <= s <= 59 /\
    bind (draw (randint 0 23)) (fun h =>
      bind (draw (randint 0 59)) (fun m =>
        bind (draw (randint 0 59)) (fun s =>
          bind (make_time h m s) (fun t => ret (VTime t))))) r
    = Ok (VTime (mkTime h m s 0), r3).
Proof.
  intro r.
  pose proof (randint_range 0 23 r ltac:(lia)) as Hh.
  destruct (randint 0 23 r) as [h r1] eqn:E1. cbn [fst] in Hh.
  pose proof (randint_range 0 59 r1 ltac:(lia)) as Hm.
  destruct (randint 0 59 r1) as [m r2] eqn:E2. cbn [fst] in Hm.
  pose proof (randint_range 0 59 r2 ltac:(lia)) as Hs.
  destruct (randint 0 59 r2) as [s r3] eqn:E3. cbn [fst] in Hs.
  exists h, m, s, r1, r2, r3.
  split; [reflexivity|]. split; [exact E2|]. split; [exact E3|].
  split; [lia|]. split; [lia|]. split; [lia|].
  unfold bind, draw. rewrite E1, E2, E3.
  unfold make_time.
  destruct (Z.leb_spec 0 h); [|lia]. destruct (Z.ltb_spec h 24); [|lia].
  destruct (Z.leb_spec 0 m); [|lia]. destruct (Z.ltb_spec m 60); [|lia].
  destruct (Z.leb_spec 0 s); [|lia]. destruct (Z.ltb_spec s 60); [|lia].
  reflexivity.
Qed.

(** X16.  A column dispatched to the [char] rule gets a string of
    exactly [min (max n 1) 255] characters, [n] being the declared
    length as [int] reads it, or 1 without one. *)
Theorem char_length_exact :
  forall (col : ColumnSpec) (r : rng) (n : Z),
    char_rule (normalize_type (type col)) = true ->
    declared_len (lens col) 1 = Some n ->
    exists s r',
      generate_random col r = Ok (VStr s, r') /\
      Z.of_nat (String.length s) = Z.min (Z.max n 1) 255.
Proof.
  intros col r n Hrule Hlen. unfold char_rule in Hrule.
  reach_rule Hrule.
  unfold bind. rewrite (first_len_declared _ _ _ r Hlen).
  destruct (char_exact_length n r) as (s & r' & He & Hs).
  rewrite He. exists s, r'. rewrite clamp_len_eq in Hs.
  split; [reflexivity | exact Hs].
Qed.

Lemma char_refused_length_raises : forall (col : ColumnSpec) (r : rng),
  char_rule (normalize_type (type col)) = true ->
  declared_len (lens col) 1 = None ->
  generate_random col r = Err ValueError.
Proof.
  intros col r Hrule Hlen. unfold char_rule in Hrule.
  reach_rule Hrule.
  unfold bind. now rewrite (first_len_refused _ _ r Hlen).
Qed.

(** X17.  A column dispatched to the [time] rule never fails: it gets
    the time of day made of three draws, hour in [0, 23], minute and
    second in [0, 59], with no microseconds. *)
Theorem time_column_in_range :
  forall (col : ColumnSpec) (r : rng),
    time_rule (normalize_type (type col)) = true ->
    exists t r',
      generate_random col r = Ok (VTime t, r') /\
      valid_time t /\ microsecond t = 0 /\
      time_shaped (time_iso_seconds t).
Proof.
  intros col r Hrule. unfold time_rule in Hrule.
  reach_rule Hrule.
  destruct (random_time r)
    as (h & m & s & r1 & r2 & r3 & _ & _ & _ & Hh & Hm & Hs & Hrun).
  rewrite Hrun. exists (mkTime h m s 0), r3.
  split; [reflexivity|]. split; [now repeat split|].
  split; [reflexivity|].
  apply time_iso_shaped. now repeat split.
Qed.

(** X18.  A column dispatched to the [bool] rule gets [True] or [False]. *)
Theorem bool_column_is_boolean :
  forall (col : ColumnSpec) (r : rng),
    bool_rule (normalize_type (type col)) = true ->
    exists b r', generate_random col r = Ok (VBool b, r').
Proof.
  intros col r Hrule. unfold bool_rule in Hrule.
  reach_rule Hrule.
  unfold draw.
  pose proof (choice_In [VBool true; VBool false] r ltac:(discriminate)) as H.
  destruct (choice [VBool true; VBool false] r) as [v r']. cbn [fst] in H.
  destruct H as [<- | [<- | []]]; now eexists _, _.
Qed.

End MoreRules.

(** ** Length specs and the conversion to [int] *)

Lemma int_digits_total : forall s acc b,
  all_chars is_digit s = true -> (s <> EmptyString \/ b = true) ->
  exists n, int_digits s acc b = Some n /\ (0 <= acc -> 0 <= n).
Proof.
  induction s as [|c s IH]; intros acc b Hs Hne; cbn [int_digits].
  - destruct Hne as [Hne | ->]; [congruence|]. now exists acc.
  - cbn [all_chars] in Hs. apply andb_true_iff in Hs as [Hc Hs].
    rewrite Hc.
    destruct (IH (10 * acc + digit_val c) true Hs (or_intror eq_refl))
      as (n & Hn & Hpos).
    exists n. split; [exact Hn|]. intro Ha. apply Hpos.
    assert (0 <= digit_val c); [|lia].
    unfold digit_val. unfold is_digit in Hc. cbv zeta in Hc.
    apply andb_true_iff in Hc as [Hlo _]. apply N.leb_le in Hlo. lia.
Qed.

Lemma count_digits_length : forall s,
  (count_digits s <= String.length s)%nat.
Proof.
  induction s as [|c s IH]; cbn [count_digits String.length]; [lia|].
  destruct (is_digit c); lia.
Qed.

(** A numeral without sign is read as it stands. *)
Lemma py_int_literal : forall s,
  digit_string s -> py_int s = int_literal s.
Proof.
  intros s [Hne Hs]. unfold py_int.
  assert (Hsp : all_chars (fun c => negb (is_c_space c)) s = true).
  { revert Hs. apply all_chars_impl. intros c Hc.
    now rewrite (digit_not_c_space c Hc). }
  rewrite (lstrip_by_id _ _ Hsp), (rstrip_by_id _ _ Hsp).
  destruct s as [|c s]; [congruence|].
  cbn [all_chars] in Hs. apply andb_true_iff in Hs as [Hc _].
  destruct c as [[] [] [] [] [] [] [] []]; try reflexivity;
    discriminate Hc.
Qed.

(** What [int] returns for a numeral is not negative. *)
Lemma py_int_digits_nonneg : forall s n,
  digit_string s -> py_int s = Some n -> 0 <= n.
Proof.
  intros s n Hd H. rewrite (py_int_literal s Hd) in H.
  unfold int_literal in H.
  destruct (count_digits s <=? int_max_str_digits)%nat; [|discriminate H].
  destruct Hd as [Hne Hs].
  destruct (int_digits_total s 0 false Hs (or_introl Hne)) as (m & Hm & Hpos).
  rewrite Hm in H. injection H as <-. apply Hpos. lia.
Qed.

(** A numeral within the limit of [int] is converted. *)
Lemma py_int_digits : forall s,
  digit_string s -> (String.length s <= int_max_str_digits)%nat ->
  exists n, py_int s = Some n /\ 0 <= n.
Proof.
  intros s Hd Hlen. rewrite (py_int_literal s Hd). unfold int_literal.
  pose proof (count_digits_length s) as Hc.
  destruct (Nat.leb_spec (count_digits s) int_max_str_digits) as [_|Hgt];
    [|exfalso; apply (Nat.lt_irrefl int_max_str_digits);
      eapply Nat.lt_le_trans; [exact Hgt|];
      eapply Nat.le_trans; [exact Hc | exact Hlen]].
  destruct Hd as [Hne Hs].
  destruct (int_digits_total s 0 false Hs (or_introl Hne)) as (n & Hn & Hpos).
  exists n. split; [exact Hn | apply Hpos; lia].
Qed.

Lemma count_digits_all : forall s,
  all_chars is_digit s = true -> count_digits s = String.length s.
Proof.
  induction s as [|c s IH]; intro Hs; [reflexivity|].
  cbn [all_chars] in Hs. apply andb_true_iff in Hs as [Hc Hs].
  cbn [count_digits String.length]. now rewrite Hc, (IH Hs).
Qed.

(** A numeral over the limit is refused. *)
Lemma py_int_over_limit : forall s,
  digit_string s -> (int_max_str_digits < String.length s)%nat ->
  py_int s = None.
Proof.
  intros s Hd Hlen. rewrite (py_int_literal s Hd). unfold int_literal.
  rewrite (count_digits_all s (proj2 Hd)).
  destruct (Nat.leb_spec (String.length s) int_max_str_digits) as [Hle|_];
    [|reflexivity].
  exfalso. apply (Nat.lt_irrefl int_max_str_digits).
  eapply Nat.lt_le_trans; [exact Hlen | exact Hle].
Qed.

Lemma split_no_sep : forall sep s,
  all_chars (fun c => negb (Ascii.eqb c sep)) s = true -> split sep s = [s].
Proof.
  intros sep s. induction s as [|c s IH]; cbn [all_chars split];
    [reflexivity|].
  intro H. apply andb_true_iff in H as [Hc H].
  apply negb_true_iff in Hc. rewrite Hc, (IH H). reflexivity.
Qed.

Lemma split_app_sep : forall sep p q,
  all_chars (fun c => negb (Ascii.eqb c sep)) p = true ->
  split sep (p ++ String sep q) = p :: split sep q.
Proof.
  intros sep p q. induction p as [|c p IH]; cbn [all_chars]; intro H.
  - cbn. now rewrite Ascii.eqb_refl.
  - apply andb_true_iff in H as [Hc H]. apply negb_true_iff in Hc.
    cbn. rewrite Hc, (IH H). reflexivity.
Qed.

Lemma digits_no_comma : forall s,
  all_chars is_digit s = true ->
  all_chars (fun c => negb (Ascii.eqb c ",")) s = true.
Proof.
  intro s. apply all_chars_impl. intros c Hc.
  destruct c as [[] [] [] [] [] [] [] []];
    vm_compute in Hc; try discriminate Hc; reflexivity.
Qed.

Lemma first_numeral_length : forall l,
  lens_shaped l -> (String.length (first_numeral l) <= String.length l)%nat.
Proof.
  intros l Hl. unfold first_numeral.
  rewrite (strip_id _ (lens_shaped_no_space _ Hl)).
  destruct Hl as [-> | [Hl | (p & q & -> & Hp & Hq)]].
  - apply Nat.le_refl.
  - rewrite (split_no_sep "," _ (digits_no_comma _ (proj2 Hl))).
    apply Nat.le_refl.
  - change (p ++ "," ++ q) with (p ++ String "," q).
    rewrite (split_app_sep "," _ _ (digits_no_comma _ (proj2 Hp))).
    cbn [hd]. rewrite str_length_app. apply Nat.le_add_r.
Qed.

Lemma first_numeral_digits : forall l,
  lens_shaped l -> l <> EmptyString ->
  digit_string (first_numeral l) /\ is_empty (strip l) = false.
Proof.
  intros l Hl Hne. unfold first_numeral.
  rewrite (strip_id _ (lens_shaped_no_space _ Hl)).
  destruct Hl as [-> | [Hl | (p & q & -> & Hp & Hq)]]; [congruence| |].
  - rewrite (split_no_sep "," _ (digits_no_comma _ (proj2 Hl))).
    split; [exact Hl | now destruct l].
  - change (p ++ "," ++ q) with (p ++ String "," q).
    rewrite (split_app_sep "," _ _ (digits_no_comma _ (proj2 Hp))).
    split; [exact Hp | now destruct p].
Qed.

(** The first number of a length spec the parser let through is the
    declared length, when it is within the limit of [int]. *)
Lemma lens_shaped_declared : forall l default,
  lens_shaped l -> 0 <= default ->
  (String.length (first_numeral l) <= int_max_str_digits)%nat ->
  exists n, declared_len l default = Some n /\ 0 <= n.
Proof.
  intros l default Hl Hd Hlen.
  destruct l as [|c l]; [now exists default|].
  destruct (first_numeral_digits _ Hl ltac:(discriminate)) as [Hdig Hne].
  unfold declared_len. rewrite Hne.
  exact (py_int_digits _ Hdig Hlen).
Qed.

(** Over the limit there is no declared length. *)
Lemma lens_shaped_over_limit : forall l default,
  lens_shaped l ->
  (int_max_str_digits < String.length (first_numeral l))%nat ->
  declared_len l default = None.
Proof.
  intros l default Hl Hlen.
  destruct l as [|c l]; [cbn in Hlen; exfalso; exact (Nat.nlt_0_r _ Hlen)|].
  destruct (first_numeral_digits _ Hl ltac:(discriminate)) as [Hdig Hne].
  unfold declared_len. rewrite Hne.
  exact (py_int_over_limit _ Hdig Hlen).
Qed.

(** The precision and scale read from a length spec the parser let
    through are not negative. *)
Lemma lens_shaped_precision_scale : forall l,
  lens_shaped l ->
  exists p s, precision_scale (strip l) = (p, s) /\ 0 <= p /\ 0 <= s.
Proof.
  intros l Hl. unfold precision_scale.
  rewrite (strip_id _ (lens_shaped_no_space _ Hl)).
  destruct Hl as [-> | [Hl | (p & q & -> & Hp & Hq)]].
  - exists 10, 0. cbn. repeat split; lia.
  - destruct l as [|c l]; [destruct Hl; congruence|]. cbn [is_empty].
    rewrite (split_no_sep "," _ (digits_no_comma _ (proj2 Hl))).
    destruct (py_int _) as [n|] eqn:En.
    + exists n, 0. pose proof (py_int_digits_nonneg _ _ Hl En).
      repeat split; lia.
    + exists 10, 0. repeat split; lia.
  - destruct p as [|c p]; [destruct Hp; congruence|]. cbn [is_empty append].
    change (String c (p ++ String "," q)) with (String c p ++ String "," q).
    rewrite (split_app_sep "," _ _ (digits_no_comma _ (proj2 Hp))).
    rewrite (split_no_sep "," _ (digits_no_comma _ (proj2 Hq))).
    destruct (py_int (String c p)) as [n|] eqn:En;
      [|exists 10, 0; repeat split; lia].
    destruct (py_int q) as [k|] eqn:Ek;
      [|exists 10, 0; repeat split; lia].
    pose proof (py_int_digits_nonneg _ _ Hp En).
    pose proof (py_int_digits_nonneg _ _ Hq Ek).
    exists n, k. repeat split; lia.
Qed.

Section ParsedColumns.
Context {RT : Runtime}.

(** Where the generator can raise: the rule for [numeric], whose
    arithmetic may signal, and the two character rules, when [int]
    refuses the length spec. *)
Lemma generate_random_raises :
  forall (col : ColumnSpec) (r : rng) (e : error),
    generate_random col r = Err e ->
    (e = DecimalSignal /\ decimal_rule (normalize_type (type col)) = true) \/
    (e = ValueError /\
     ((varchar_rule (normalize_type (type col)) = true /\
       declared_len (lens col) 32 = None) \/
      (char_rule (normalize_type (type col)) = true /\
       declared_len (lens col) 1 = None))).
Proof.
  intros col r e H. unfold generate_random in H. cbv zeta in H.
  unfold decimal_rule, varchar_rule, char_rule.
  destruct (contains_any ["bigint"; "int8"] _) eqn:E1;
    [apply bind_err in H as [H | (? & ? & _ & H)]; discriminate H|].
  destruct (contains_any ["smallint"; "int2"] _) eqn:E2;
    [apply bind_err in H as [H | (? & ? & _ & H)]; discriminate H|].
  destruct (contains_any ["integer"; "int"; "int4"] _) eqn:E3;
    [apply bind_err in H as [H | (? & ? & _ & H)]; discriminate H|].
  destruct (contains "numeric" _ || contains "decimal" _) eqn:E4.
  { left. destruct (precision_scale _) as [p s].
    apply bind_err in H as [H | (? & ? & _ & H)]; [|discriminate H].
    apply decimal_random_error in H. now split. }
  destruct (contains_any ["float"; "double"; "real"] _) eqn:E5;
    [apply bind_err in H as [H | (? & ? & _ & H)]; discriminate H|].
  destruct (contains "uuid" _) eqn:E6;
    [apply bind_err in H as [H | (? & ? & _ & H)]; discriminate H|].
  destruct (contains "bool" _) eqn:E7; [discriminate H|].
  destruct (String.eqb _ "date") eqn:E8;
    [apply bind_err in H as [H | (? & ? & _ & H)]; discriminate H|].
  destruct (contains "timestamp" _) eqn:E9;
    [apply bind_err in H as [H | (? & ? & _ & H)]; discriminate H|].
  destruct (String.eqb _ "time" || startswith "time " _) eqn:E10.
  { destruct (random_time r) as (h & m & s & r1 & r2 & r3 & Hrun).
    destruct Hrun as (_ & _ & _ & _ & _ & _ & Hrun).
    rewrite Hrun in H. discriminate H. }
  assert (Hlen : forall d (k : Z -> M value),
            bind (first_len (strip (lens col)) d) k r = Err e ->
            (forall n r1, k n r1 <> Err e) ->
            e = ValueError /\ declared_len (lens col) d = None).
  { intros d k Hb Hk. apply bind_err in Hb as [Hb | (n & r1 & _ & Hb)];
      [|now apply Hk in Hb].
    unfold first_len in Hb. unfold declared_len.
    destruct (is_empty (strip (lens col))); [discriminate Hb|].
    destruct (py_int _); [discriminate Hb|].
    apply try_or_error in Hb. now split. }
  cbn [negb andb].
  destruct (contains "varchar" _ || contains "nvarchar" _
            || contains "varying" _) eqn:E11.
  { right. destruct (Hlen _ _ H) as [He Hn].
    - intros n r1 Hk.
      apply bind_err in Hk as [Hk | (? & ? & _ & Hk)]; discriminate Hk.
    - split; [exact He|]. left. now split. }
  destruct (contains "bpchar" _ || startswith "char" _) eqn:E12.
  { right. destruct (Hlen _ _ H) as [He Hn].
    - intros n r1 Hk.
      apply bind_err in Hk as [Hk | (? & ? & _ & Hk)]; discriminate Hk.
    - split; [exact He|]. right. now split. }
  destruct (existsb _ _);
    apply bind_err in H as [H | (? & ? & _ & H)]; discriminate H.
Qed.

End ParsedColumns.

Section GeneratorErrors.
Context {RT : Runtime}.

(** X23.  The value generator can raise in two ways only: a signal of
    [decimal] in the rule for [numeric], and [ValueError] in one of the
    two character rules when [int] refuses the length spec, which is
    not an integer literal or has more than [int_max_str_digits]
    digits. Every other rule returns a value, the rule for [time]
    included. *)
Theorem generator_error_causes :
  forall (col : ColumnSpec) (r : rng) (e : error),
    generate_random col r = Err e ->
    (e = DecimalSignal /\ decimal_rule (normalize_type (type col)) = true) \/
    (e = ValueError /\
     ((varchar_rule (normalize_type (type col)) = true /\
       declared_len (lens col) 32 = None) \/
      (char_rule (normalize_type (type col)) = true /\
       declared_len (lens col) 1 = None))).
Proof.
  intros col r e H. exact (generate_random_raises col r e H).
Qed.

End GeneratorErrors.

(** ** Shape of what the parser returns *)

(** X1.  Whatever the lines of the file, the table name
    [parse_schema_file] returns (if any) is a non-empty word, and every
    column descriptor has a non-empty word as name, a non-empty type
    without parentheses or commas, and a length spec that is empty, a
    number, or two numbers separated by a comma. *)
Theorem parsed_schema_well_formed :
  forall (lines : list string),
    (forall t, fst (parse_schema_file lines) = Some t -> word_string t) /\
    Forall column_shaped (snd (parse_schema_file lines)).
Proof.
  intro lines. unfold parse_schema_file.
  destruct (parse_lines_shaped lines None []) as [Hc Ht];
    [constructor | discriminate | now split].
Qed.

Section ParsedGenerator.
Context {RT : Runtime}.

(** X2.  For a column that [parse_schema_file] returned and that is not
    dispatched to the rule for [numeric] (its length spec within the
    4300 digits [int] accepts), the generator always returns a value:
    the conversion of the length spec never fails. *)
Theorem parsed_column_generates :
  forall (lines : list string) (c : ColumnSpec) (r : rng),
    In c (snd (parse_schema_file lines)) ->
    (String.length (lens c) <= 4300)%nat ->
    decimal_rule (normalize_type (type c)) = false ->
    exists v r', generate_random c r = Ok (v, r').
Proof.
  intros lines c r Hin Hlen Hdec.
  destruct (parse_lines_shaped lines None [] (Forall_nil _) ltac:(discriminate)) as [Hall _].
  rewrite Forall_forall in Hall. apply Hall in Hin as (_ & _ & Hl).
  destruct (generate_random c r) as [[v r']|e] eqn:Hg; [now exists v, r'|].
  assert (Hfirst : (String.length (first_numeral (lens c))
                    <= int_max_str_digits)%nat)
    by (eapply Nat.le_trans; [apply first_numeral_length, Hl | exact Hlen]).
  exfalso.
  apply generate_random_raises in Hg as [[_ Hd] | [_ [[_ Hn] | [_ Hn]]]].
  - congruence.
  - destruct (lens_shaped_declared (lens c) 32 Hl ltac:(lia) Hfirst)
      as (n & Hn' & _).
    congruence.
  - destruct (lens_shaped_declared (lens c) 1 Hl ltac:(lia) Hfirst)
      as (n & Hn' & _).
    congruence.
Qed.

(** X29.  A character column of a parsed schema whose declared length
    is written with more digits than [int] accepts makes the generator
    raise [ValueError], whatever the random source. *)
Theorem long_length_spec_raises :
  forall (lines : list string) (c : ColumnSpec) (r : rng),
    In c (snd (parse_schema_file lines)) ->
    varchar_rule (normalize_type (type c)) = true \/
    char_rule (normalize_type (type c)) = true ->
    (int_max_str_digits < String.length (first_numeral (lens c)))%nat ->
    generate_random c r = Err ValueError.
Proof.
  intros lines c r Hin Hrule Hlen.
  destruct (parse_lines_shaped lines None [] (Forall_nil _)
              ltac:(discriminate)) as [Hall _].
  rewrite Forall_forall in Hall. apply Hall in Hin as (_ & _ & Hl).
  destruct Hrule as [Hrule | Hrule].
  - apply (varchar_refused_length_raises c r Hrule).
    now apply lens_shaped_over_limit.
  - apply (char_refused_length_raises c r Hrule).
    now apply lens_shaped_over_limit.
Qed.

End ParsedGenerator.

(** ** Lines the parser does not read *)

Lemma endswith_empty : forall p, p <> EmptyString -> endswith p EmptyString = false.
Proof.
  intros p Hp. unfold endswith. cbn.
  destruct (rev p) eqn:E; [|reflexivity].
  exfalso. apply Hp. unfold rev in E.
  destruct p as [|c p]; [reflexivity|]. cbn in E.
  assert (H : forall s acc, rev_acc s acc = EmptyString -> acc = EmptyString).
  { induction s as [|x s IH]; intros acc Ha; cbn in Ha; [exact Ha|].
    apply IH in Ha. discriminate. }
  apply H in E. discriminate.
Qed.

Lemma closes_not_blank : forall raw,
  closes_columns raw = true -> blank raw = false.
Proof.
  intros raw H. unfold closes_columns, blank in *.
  destruct (strip raw); [|reflexivity].
  rewrite endswith_empty in H by discriminate. discriminate.
Qed.

Lemma parser_stops : forall t cols pre l post,
  Forall (fun x => closes_columns x = false) pre ->
  closes_columns l = true ->
  parse_lines (Some t) cols (pre ++ l :: post)%list
  = parse_lines (Some t) cols pre.
Proof.
  intros t cols pre l post Hpre Hl. revert cols.
  induction Hpre as [|raw pre Hraw Hpre IH]; intro cols.
  - cbn [app parse_lines].
    pose proof (closes_not_blank l Hl) as Hb. unfold blank in Hb.
    rewrite Hb. unfold closes_columns in Hl. now rewrite Hl.
  - cbn [app parse_lines]. unfold closes_columns in Hraw. rewrite Hraw.
    destruct (is_empty (strip raw)); [apply IH|].
    destruct (startswith_any constraint_starts (lower (strip raw)));
      [apply IH|].
    destruct (re_match col_re (rstrip_comma (strip raw))); apply IH.
Qed.

(** X3.  Once the table name is known, the parser stops at the first
    line that, trimmed, starts with [)] or ends with [);]: that line
    adds no column, even if it declares one, and no later line is read. *)
Theorem parser_stops_at_closing_line :
  forall (t : string) (cols : list ColumnSpec) (pre : list string)
         (l : string) (post : list string),
    Forall (fun x => closes_columns x = false) pre ->
    closes_columns l = true ->
    parse_lines (Some t) cols (pre ++ l :: post)%list
    = parse_lines (Some t) cols pre.
Proof. exact parser_stops. Qed.

Lemma parse_lines_blank : forall lines tbl cols,
  Forall (fun l => blank l = true) lines ->
  parse_lines tbl cols lines = (tbl, cols).
Proof.
  intros lines tbl cols H. induction H as [|raw rest Hraw _ IH];
    cbn [parse_lines]; [reflexivity|].
  unfold blank in Hraw. now rewrite Hraw.
Qed.

Lemma count_lines_zero : forall lines,
  count_lines lines = O -> Forall (fun l => blank l = true) lines.
Proof.
  induction lines as [|raw rest IH]; intro H; [constructor|].
  unfold count_lines in *. cbn [filter] in H.
  destruct (blank raw) eqn:E; cbn [negb] in H; [|discriminate].
  constructor; [exact E | now apply IH].
Qed.

Lemma parse_lines_one_line : forall lines,
  (count_lines lines <= 1)%nat -> snd (parse_lines None [] lines) = [].
Proof.
  induction lines as [|raw rest IH]; intro H; [reflexivity|].
  cbn [parse_lines]. unfold count_lines in *. cbn [filter] in H.
  unfold blank in H at 1.
  destruct (is_empty (strip raw)); cbn [negb] in H; [now apply IH|].
  cbn [List.length] in H.
  assert (Hrest : Forall (fun l => blank l = true) rest)
    by (apply count_lines_zero; unfold count_lines; lia).
  destruct (re_search table_re (strip raw));
    now rewrite parse_lines_blank.
Qed.

(** X4.  The line that names the table declares no column: a file with
    at most one line that is not blank (a declaration written on a
    single line, say) yields no column, and the directory scan passes
    over it. *)
Theorem single_line_file_has_no_columns :
  forall (lines : list string),
    (count_lines lines <= 1)%nat ->
    snd (parse_schema_file lines) = [] /\
    forall fname rest,
      parse_schema_dir ((fname, lines) :: rest) = parse_schema_dir rest.
Proof.
  intros lines H. pose proof (parse_lines_one_line lines H) as Hs.
  split; [exact Hs|]. intros fname rest.
  unfold parse_schema_dir. cbn [schema_dir_loop].
  destruct (negb (endswith ".sql" (lower fname))); [reflexivity|].
  unfold parse_schema_file in *.
  destruct (parse_lines None [] lines) as [[t|] cols]; cbn [snd] in Hs;
    now subst.
Qed.

(** ** Dictionaries *)

Lemma dict_get_In : forall (V : Type) k (v : V) d,
  dict_get k d = Some v -> In (k, v) d.
Proof.
  intros V k v d. induction d as [|[k' v'] d IH]; cbn; [discriminate|].
  destruct (String.eqb_spec k k') as [->|_].
  - intros [= ->]. now left.
  - intro H. right. now apply IH.
Qed.

Lemma dict_get_key : forall (V : Type) k (d : list (string * V)),
  In k (map fst d) -> exists v, dict_get k d = Some v.
Proof.
  intros V k d. induction d as [|[k' v'] d IH]; cbn; [contradiction|].
  intros [->|H].
  - rewrite String.eqb_refl. now exists v'.
  - destruct (String.eqb k k'); [now exists v' | now apply IH].
Qed.

Lemma dict_get_none : forall (V : Type) k (d : list (string * V)),
  dict_get k d = None -> ~ In k (map fst d).
Proof.
  intros V k d H Hin. apply dict_get_key in Hin as [v Hv]. congruence.
Qed.

Lemma dict_set_keys : forall (V : Type) k (v : V) d,
  map fst (dict_set k v d) =
    if dict_mem k d then map fst d else (map fst d ++ [k])%list.
Proof.
  intros V k v d. unfold dict_mem.
  induction d as [|[k' v'] d IH]; cbn; [reflexivity|].
  destruct (String.eqb k k'); cbn; [reflexivity|].
  rewrite IH. now destruct (dict_get k d).
Qed.

Lemma dict_set_NoDup : forall (V : Type) k (v : V) d,
  NoDup (map fst d) -> NoDup (map fst (dict_set k v d)).
Proof.
  intros V k v d H. rewrite dict_set_keys. unfold dict_mem.
  destruct (dict_get k d) eqn:E; [exact H|].
  apply dict_get_none in E.
  apply NoDup_app; [exact H | repeat constructor; auto |].
  intros x Hx [<-|[]]. contradiction.
Qed.

Lemma dict_set_Forall : forall (V : Type) (P : string * V -> Prop) k v d,
  Forall P d -> P (k, v) -> Forall P (dict_set k v d).
Proof.
  intros V P k v d Hd Hk. induction Hd as [|[k' v'] d Hx Hd IH]; cbn.
  - now repeat constructor.
  - destruct (String.eqb_spec k k') as [<-|_]; constructor; auto.
Qed.

Lemma dict_set_In : forall (V : Type) k (v : V) d x,
  In x (dict_set k v d) -> In x d \/ x = (k, v).
Proof.
  intros V k v d x. induction d as [|[k' v'] d IH]; cbn.
  - intros [<-|[]]. now right.
  - destruct (String.eqb_spec k k') as [<-|_]; cbn.
    + intros [<-|H]; [now right | left; now right].
    + intros [<-|H]; [left; now left|].
      apply IH in H as [H|H]; [left; now right | now right].
Qed.

(** ** The directory scan *)

Lemma schema_dir_loop_ok : forall entries schemas,
  schemas_ok schemas -> schemas_ok (schema_dir_loop entries schemas).
Proof.
  induction entries as [|[fname lines] rest IH]; intros schemas Hs;
    cbn [schema_dir_loop]; [exact Hs|].
  destruct (negb (endswith ".sql" (lower fname))); [now apply IH|].
  destruct (parse_lines_shaped lines None [] (Forall_nil _)
              ltac:(discriminate)) as [Hcols Htbl].
  unfold parse_schema_file.
  destruct (parse_lines None [] lines) as [[tbl|] cols]; [|now apply IH].
  destruct cols as [|c cols]; [now apply IH|].
  destruct (is_empty tbl); [now apply IH|].
  apply IH. destruct Hs as [Hnd Hall]. split.
  - now apply dict_set_NoDup.
  - apply dict_set_Forall; [exact Hall|]. cbn [fst snd] in *.
    split; [now apply Htbl|]. split; [discriminate | exact Hcols].
Qed.

Lemma schema_dir_loop_from : forall entries schemas t cols,
  In (t, cols) (schema_dir_loop entries schemas) ->
  In (t, cols) schemas \/
  exists fname lines,
    In (fname, lines) entries /\ endswith ".sql" (lower fname) = true /\
    parse_schema_file lines = (Some t, cols).
Proof.
  induction entries as [|[fname lines] rest IH]; intros schemas t cols H;
    cbn [schema_dir_loop] in H; [now left|].
  assert (Hskip : In (t, cols) (schema_dir_loop rest schemas) ->
            In (t, cols) schemas \/
            exists fname0 lines0,
              In (fname0, lines0) ((fname, lines) :: rest) /\
              endswith ".sql" (lower fname0) = true /\
              parse_schema_file lines0 = (Some t, cols)).
  { intro H'. apply IH in H' as [H'|(f & l & Hin & He & Hp)]; [now left|].
    right. exists f, l. split; [now right | now split]. }
  destruct (endswith ".sql" (lower fname)) eqn:Hsql; cbn [negb] in H;
    [|now apply Hskip].
  destruct (parse_schema_file lines) as [[tbl|] cs] eqn:Hp; [|now apply Hskip].
  destruct cs as [|c cs]; [now apply Hskip|].
  destruct (is_empty tbl); [now apply Hskip|].
  apply IH in H as [H|(f & l & Hin & He & Hp')].
  - apply dict_set_In in H as [H|[= -> ->]]; [now left|].
    right. exists fname, lines. split; [now left | now split].
  - right. exists f, l. split; [now right | now split].
Qed.

(** X5.  The schema set of a directory: the table names are distinct,
    non-empty words, and every table has at least one column, each with
    a well-shaped descriptor. *)
Theorem parse_schema_dir_invariant :
  forall (entries : list (string * list string)),
    schemas_ok (parse_schema_dir entries).
Proof.
  intro entries. apply schema_dir_loop_ok. split; constructor.
Qed.

(** X6.  Every table of the schema set was parsed, name and columns,
    from a file of the listing whose name ends in [.sql], in any letter
    case. *)
Theorem parse_schema_dir_provenance :
  forall (entries : list (string * list string)) (t : string)
         (cols : list ColumnSpec),
    dict_get t (parse_schema_dir entries) = Some cols ->
    exists fname lines,
      In (fname, lines) entries /\
      endswith ".sql" (lower fname) = true /\
      parse_schema_file lines = (Some t, cols).
Proof.
  intros entries t cols H. apply dict_get_In in H.
  apply schema_dir_loop_from in H as [[]|H]. exact H.
Qed.

(** ** The parent table *)

Lemma choose_parent_member : forall keys items default,
  choose_parent keys items default = default \/
  In (choose_parent keys items default) (map fst items).
Proof.
  intros keys items default.
  induction items as [|[tname cols] rest IH]; cbn; [now left|].
  destruct (nonempty keys && issubset keys (map name cols)).
  - right. now left.
  - destruct IH as [IH|IH]; [now left | right; now right].
Qed.

Lemma select_parent_member : forall schemas key_fields parent,
  select_parent schemas key_fields = Some parent ->
  exists cols, dict_get parent schemas = Some cols.
Proof.
  intros schemas key_fields parent. unfold select_parent.
  destruct schemas as [|[first cols0] rest]; [discriminate|].
  intros [= <-]. apply dict_get_key.
  destruct (is_empty key_fields); [now left|].
  destruct (choose_parent_member (key_list key_fields)
              ((first, cols0) :: rest) first) as [E | H];
    [left; symmetry; exact E | exact H].
Qed.

(** X8.  The parent table chosen is a table of the schema set, so
    looking up its columns cannot fail; none is chosen only for an empty
    set. *)
Theorem select_parent_is_table :
  forall (schemas : Schemas) (key_fields : string),
    (select_parent schemas key_fields = None <-> schemas = []) /\
    (forall parent, select_parent schemas key_fields = Some parent ->
       exists cols, dict_get parent schemas = Some cols).
Proof.
  intros schemas key_fields. unfold select_parent.
  destruct schemas as [|[first cols0] rest].
  - split; [now split | discriminate].
  - split; [split; discriminate|].
    intros parent H.
    exact (select_parent_member ((first, cols0) :: rest) key_fields parent H).
Qed.

(** ** Two files for one table *)

Lemma schema_dir_loop_app : forall a b schemas,
  schema_dir_loop (a ++ b)%list schemas
  = schema_dir_loop b (schema_dir_loop a schemas).
Proof.
  induction a as [|[fname lines] a IH]; intros b schemas;
    cbn [app schema_dir_loop]; [reflexivity|].
  destruct (negb (endswith ".sql" (lower fname))); [apply IH|].
  destruct (parse_schema_file lines) as [[tbl|] [|c cols]]; try apply IH.
  destruct (is_empty tbl); apply IH.
Qed.

Lemma schema_dir_loop_keeps : forall entries schemas t cols,
  Forall (fun e => fst (parse_schema_file (snd e)) <> Some t) entries ->
  dict_get t schemas = Some cols ->
  dict_get t (schema_dir_loop entries schemas) = Some cols.
Proof.
  induction entries as [|[fname lines] rest IH]; intros schemas t cols H Hg;
    cbn [schema_dir_loop]; [exact Hg|].
  inversion H as [|? ? Hne Hrest]; subst. cbn [snd] in Hne.
  destruct (negb (endswith ".sql" (lower fname))); [now apply IH|].
  destruct (parse_schema_file lines) as [[tbl|] [|c cs]]; try now apply IH.
  destruct (is_empty tbl); [now apply IH|].
  apply IH; [exact Hrest|]. cbn [fst] in Hne.
  rewrite dict_get_set_other; [exact Hg|]. congruence.
Qed.

(** X7.  When several files of the listing declare the same table, the
    columns of the last one are kept: a [.sql] file that parses to table
    [t] with at least one column, followed by no file that parses to
    [t], gives [t] its columns. *)
Theorem last_file_of_a_table_wins :
  forall (pre post : list (string * list string)) (fname : string)
         (lines : list string) (t : string) (c : ColumnSpec)
         (cols : list ColumnSpec),
    endswith ".sql" (lower fname) = true ->
    parse_schema_file lines = (Some t, c :: cols) ->
    Forall (fun e => fst (parse_schema_file (snd e)) <> Some t) post ->
    dict_get t (parse_schema_dir (pre ++ (fname, lines) :: post)%list)
    = Some (c :: cols).
Proof.
  intros pre post fname lines t c cols Hsql Hp Hpost.
  unfold parse_schema_dir. rewrite schema_dir_loop_app.
  cbn [schema_dir_loop]. rewrite Hsql, Hp. cbn [negb].
  destruct (parse_lines_shaped lines None [] (Forall_nil _)
              ltac:(discriminate)) as [_ Ht].
  assert (Hw : word_string t).
  { apply Ht. unfold parse_schema_file in Hp. now rewrite Hp. }
  destruct t as [|x t]; [destruct Hw; congruence|]. cbn [is_empty].
  apply schema_dir_loop_keeps; [exact Hpost|].
  apply dict_get_set_same.
Qed.

Lemma dict_set_new : forall (V : Type) k (v : V) d,
  ~ In k (map fst d) -> dict_set k v d = (d ++ [(k, v)])%list.
Proof.
  intros V k v d. induction d as [|[k' v'] d IH]; intro H; cbn;
    [reflexivity|].
  destruct (String.eqb_spec k k') as [->|_]; [exfalso; apply H; now left|].
  rewrite IH; [reflexivity|]. intro Hin. apply H. now right.
Qed.

Lemma schema_dir_loop_distinct : forall entries schemas acc,
  Forall2 (fun e tc =>
             endswith ".sql" (lower (fst e)) = true /\
             parse_schema_file (snd e) = (Some (fst tc), snd tc) /\
             snd tc <> []) entries schemas ->
  NoDup (map fst (acc ++ schemas)%list) ->
  schema_dir_loop entries acc = (acc ++ schemas)%list.
Proof.
  intros entries schemas acc H. revert acc.
  induction H as [|[fname lines] [t cols] entries schemas (Hsql & Hp & Hc) _ IH];
    intros acc Hnd.
  - cbn. now rewrite app_nil_r.
  - cbn [fst snd] in *. cbn [schema_dir_loop]. rewrite Hsql, Hp. cbn [negb].
    destruct cols as [|c cols]; [congruence|].
    destruct (parse_lines_shaped lines None [] (Forall_nil _)
                ltac:(discriminate)) as [_ Ht].
    assert (Hw : word_string t).
    { apply Ht. unfold parse_schema_file in Hp. now rewrite Hp. }
    destruct t as [|x t]; [destruct Hw; congruence|]. cbn [is_empty].
    rewrite map_app in Hnd. cbn [map fst] in Hnd.
    rewrite dict_set_new.
    + rewrite IH; [now rewrite <- app_assoc|].
      rewrite <- app_assoc, map_app. exact Hnd.
    + apply NoDup_remove_2 in Hnd. intro Hin. apply Hnd.
      apply in_or_app. now left.
Qed.

(** X27.  Files that declare distinct tables give the schema set one
    table per file, in the order of the listing: when every file of the
    listing is a [.sql] file that parses to a table with at least one
    column and no two tables have the same name, the schema set is the
    list of those tables with their columns. *)
Theorem schema_set_of_distinct_tables :
  forall (entries : list (string * list string)) (schemas : Schemas),
    Forall2 (fun e tc =>
               endswith ".sql" (lower (fst e)) = true /\
               parse_schema_file (snd e) = (Some (fst tc), snd tc) /\
               snd tc <> []) entries schemas ->
    NoDup (map fst schemas) ->
    parse_schema_dir entries = schemas.
Proof.
  intros entries schemas H Hnd.
  exact (schema_dir_loop_distinct entries schemas [] H Hnd).
Qed.

(** ** Outcomes of the parent loop *)

Section ParentOutcome.
Context {RT : Runtime}.

Lemma fill_row_has_columns : forall cols r row r',
  fill_row cols [] r = Ok (row, r') ->
  has_columns cols row /\
  (forall k, dict_get k row = None <-> ~ In k (map name cols)).
Proof.
  intros cols r row r' H.
  destruct (fill_row_names _ _ _ _ _ H) as (_ & Hnew & Hold).
  split; [exact Hnew|]. intro k. split.
  - intros Hk Hin. apply in_map_iff in Hin as (c & <- & Hc).
    specialize (Hnew c Hc). unfold dict_mem in Hnew. now rewrite Hk in Hnew.
  - intro Hk. destruct (dict_get k row) as [v|] eqn:E; [|reflexivity].
    exfalso. destruct (Hold k) as [Hm|Hm].
    + unfold dict_mem. now rewrite E.
    + discriminate Hm.
    + contradiction.
Qed.

Lemma composite_key_error : forall (row : Row) keys e,
  composite_key row keys = Err e ->
  exists k, e = KeyError k /\ In k keys /\ dict_get k row = None.
Proof.
  intros row keys. unfold composite_key.
  induction keys as [|k keys IH]; intros e H; cbn [map_result] in H;
    [discriminate|].
  unfold row_get at 1 in H. destruct (dict_get k row) eqn:E.
  - destruct (map_result (row_get row) keys); [discriminate|].
    injection H as <-. destruct (IH e0 eq_refl) as (k' & -> & Hin & Hk).
    exists k'. repeat split; [now right | exact Hk].
  - injection H as <-. exists k. repeat split; [now left | exact E].
Qed.

Lemma composite_key_first_missing : forall (row : Row) pre k post,
  (forall k', In k' pre -> dict_get k' row <> None) ->
  dict_get k row = None ->
  composite_key row (pre ++ k :: post) = Err (KeyError k).
Proof.
  intros row pre k post. unfold composite_key.
  induction pre as [|k' pre IH]; intros Hpre Hk; cbn [app map_result];
    unfold row_get at 1.
  - now rewrite Hk.
  - destruct (dict_get k' row) eqn:E; [|now apply (Hpre k') in E; [|left]].
    rewrite IH; [reflexivity | | exact Hk].
    intros k2 H2. apply Hpre. now right.
Qed.

Lemma parent_loop_no_keys : forall n cols seen_keys acc r,
  Forall never_raises cols ->
  exists rows r', parent_loop n cols [] seen_keys acc r = Ok (rows, r').
Proof.
  induction n as [|n IH]; intros cols seen_keys acc r Hs; cbn [parent_loop].
  - now exists acc, r.
  - change 200%nat with (S 199). cbn [attempt_loop nonempty]. unfold bind.
    destruct (fill_row_total cols [] r Hs) as (row & r1 & ->).
    cbn [fst snd ret]. now apply IH.
Qed.

(** X9.  When every key field is a column of the parent table and no
    column's generator can raise, the parent loop returns exactly
    [num_rows] rows, each with an entry for every column, or it raises
    the duplicate-key error; without key fields it always returns the
    rows. *)
Theorem parent_rows_or_duplicate_error :
  forall (cols : list ColumnSpec) (keys : list string) (num_rows : Z)
         (r : rng),
    Forall never_raises cols ->
    incl keys (map name cols) ->
    (exists rows r',
       gen_parent_rows cols keys num_rows r = Ok (rows, r') /\
       List.length rows = Z.to_nat num_rows /\
       Forall (has_columns cols) rows) \/
    (keys <> [] /\
     gen_parent_rows cols keys num_rows r = Err duplicate_key_error).
Proof.
  intros cols keys num_rows r Hs Hk. unfold gen_parent_rows.
  assert (Hok : forall rows r',
            parent_loop (Z.to_nat num_rows) cols keys [] [] r = Ok (rows, r') ->
            List.length rows = Z.to_nat num_rows /\
            Forall (has_columns cols) rows).
  { intros rows r' H. apply parent_loop_length in H as (new & -> & Hlen & Hall).
    cbn [app]. split; [exact Hlen|].
    eapply Forall_impl; [|exact Hall].
    intros row (r0 & r1 & Hf).
    exact (proj1 (fill_row_has_columns _ _ _ _ Hf)). }
  destruct (parent_loop_safe (Z.to_nat num_rows) cols keys [] [] r Hs Hk)
    as [(rows & r' & H) | H].
  - left. exists rows, r'. split; [exact H | exact (Hok rows r' H)].
  - destruct keys as [|k keys]; [|right; split; [discriminate | exact H]].
    destruct (parent_loop_no_keys (Z.to_nat num_rows) cols [] [] r Hs)
      as (rows & r' & H'). congruence.
Qed.

(** X10.  When a key field is not a column of the parent table (and no
    column's generator can raise), asking for at least one row raises
    [KeyError] on the first key field that is missing, those before it
    being columns. The first attempt at the first row raises it: so
    does the attempt loop with a single attempt allowed, whatever keys
    were seen before. *)
Theorem missing_key_field_is_key_error :
  forall (cols : list ColumnSpec) (pre post : list string) (k : string)
         (num_rows : Z) (r : rng),
    Forall never_raises cols ->
    0 < num_rows ->
    incl pre (map name cols) -> ~ In k (map name cols) ->
    gen_parent_rows cols (pre ++ k :: post) num_rows r = Err (KeyError k) /\
    forall attempts seen_keys,
      attempt_loop (S attempts) cols (pre ++ k :: post) seen_keys r
      = Err (KeyError k).
Proof.
  intros cols pre post k num_rows r Hs Hn Hpre Hmiss.
  assert (Hatt : forall attempts seen_keys,
            attempt_loop (S attempts) cols (pre ++ k :: post) seen_keys r
            = Err (KeyError k)).
  { intros attempts seen_keys. cbn [attempt_loop]. unfold bind.
    destruct (fill_row_total cols [] r Hs) as (row & r1 & Hrow).
    rewrite Hrow.
    destruct (fill_row_has_columns _ _ _ _ Hrow) as [_ Hnone].
    assert (Hne : nonempty (pre ++ k :: post) = true) by now destruct pre.
    rewrite Hne, (composite_key_first_missing row pre k post);
      [reflexivity | | now apply Hnone].
    intros k' Hk' Hk. apply Hnone in Hk. apply Hk, Hpre, Hk'. }
  split; [|exact Hatt].
  unfold gen_parent_rows.
  destruct (Z.to_nat num_rows) as [|n] eqn:En; [lia|].
  cbn [parent_loop]. change 200%nat with (S 199). unfold bind.
  now rewrite Hatt.
Qed.

(** *** Every way the loops can raise *)

Lemma fill_row_raises : forall cols row0 r e,
  fill_row cols row0 r = Err e -> column_raises cols e.
Proof.
  induction cols as [|c cols IH]; intros row0 r e H; cbn [fill_row] in H;
    [discriminate|].
  apply bind_err in H as [H | (v & r1 & _ & H)].
  - exists c, r. split; [now left | exact H].
  - apply IH in H as (c' & r' & Hin & H). exists c', r'. split; [now right | exact H].
Qed.

Lemma attempt_loop_raises : forall n cols keys seen_keys r e,
  attempt_loop n cols keys seen_keys r = Err e ->
  (e = duplicate_key_error /\ (keys <> [] \/ n = O)) \/
  (exists k, e = KeyError k /\ In k keys /\ ~ In k (map name cols)) \/
  column_raises cols e.
Proof.
  induction n as [|n IH]; intros cols keys seen_keys r e H;
    cbn [attempt_loop] in H.
  - injection H as <-. left. split; [reflexivity | now right].
  - apply bind_err in H as [H | (row & r1 & Hrow & H)].
    + right. right. now apply fill_row_raises in H.
    + destruct keys as [|k keys]; cbn [nonempty] in H; [discriminate H|].
      destruct (composite_key row (k :: keys)) as [comp|e'] eqn:Hc.
      * destruct (key_seen comp seen_keys); [|discriminate H].
        apply IH in H as [[-> _] | H]; [|now right].
        left. split; [reflexivity | left; discriminate].
      * injection H as <-. right. left.
        apply composite_key_error in Hc as (k' & -> & Hin & Hk).
        exists k'. repeat split; [exact Hin|].
        now apply (proj2 (fill_row_has_columns _ _ _ _ Hrow) k').
Qed.

Lemma parent_loop_raises : forall n cols keys seen_keys acc r e,
  parent_loop n cols keys seen_keys acc r = Err e ->
  (e = duplicate_key_error /\ keys <> []) \/
  (exists k, e = KeyError k /\ In k keys /\ ~ In k (map name cols)) \/
  column_raises cols e.
Proof.
  induction n as [|n IH]; intros cols keys seen_keys acc r e H;
    cbn [parent_loop] in H; [discriminate|].
  apply bind_err in H as [H | (rs & r1 & _ & H)]; [|now apply IH in H].
  apply attempt_loop_raises in H as [[-> [Hk|Hk]] | H];
    [left; now split | discriminate Hk | now right].
Qed.

Lemma parent_loop_rows : forall n cols keys seen_keys r rows r',
  parent_loop n cols keys seen_keys [] r = Ok (rows, r') ->
  List.length rows = n /\ Forall (has_columns cols) rows.
Proof.
  intros n cols keys seen_keys r rows r' H.
  apply parent_loop_length in H as (new & -> & Hlen & Hall).
  cbn [app]. split; [exact Hlen|].
  eapply Forall_impl; [|exact Hall].
  intros row (r0 & r1 & Hf).
  exact (proj1 (fill_row_has_columns _ _ _ _ Hf)).
Qed.

Lemma fill_child_row_raises : forall fkey_map prow cols crow0 r e,
  fill_child_row cols fkey_map prow crow0 r = Err e -> column_raises cols e.
Proof.
  intros fkey_map prow cols.
  induction cols as [|c cols IH]; intros crow0 r e H;
    cbn [fill_child_row] in H; [discriminate|].
  assert (Hrest : forall row r1,
            fill_child_row cols fkey_map prow row r1 = Err e ->
            column_raises (c :: cols) e).
  { intros row r1 H'. apply IH in H' as (c' & r' & Hin & H').
    exists c', r'. split; [now right | exact H']. }
  assert (Hgen : bind (generate_random c)
                   (fun v => fill_child_row cols fkey_map prow
                               (dict_set (name c) v crow0)) r = Err e ->
                 column_raises (c :: cols) e).
  { intro H'. apply bind_err in H' as [H' | (v & r1 & _ & H')].
    - exists c, r. split; [now left | exact H'].
    - now apply Hrest in H'. }
  destruct (dict_get (name c) fkey_map) as [pcol|]; [|now apply Hgen].
  destruct (dict_get pcol prow) as [pv|]; [now apply Hrest in H | now apply Hgen].
Qed.

Lemma repeat_child_raises : forall cols fkey_map prow m acc r e,
  repeat_child m cols fkey_map prow acc r = Err e -> column_raises cols e.
Proof.
  intros cols fkey_map prow m. induction m as [|m IH]; intros acc r e H;
    cbn [repeat_child] in H; [discriminate|].
  apply bind_err in H as [H | (crow & r1 & _ & H)].
  - now apply fill_child_row_raises in H.
  - now apply IH in H.
Qed.

Lemma child_loop_raises : forall prows m cols fkey_map acc r e,
  child_loop prows m cols fkey_map acc r = Err e -> column_raises cols e.
Proof.
  induction prows as [|prow prows IH]; intros m cols fkey_map acc r e H;
    cbn [child_loop] in H; [discriminate|].
  apply bind_err in H as [H | (rows & r1 & _ & H)].
  - now apply repeat_child_raises in H.
  - now apply IH in H.
Qed.

Lemma child_loop_rows : forall prows m cols fkey_map r rows r',
  child_loop prows m cols fkey_map [] r = Ok (rows, r') ->
  Forall (has_columns cols) rows.
Proof.
  intros prows m cols fkey_map r rows r' H.
  apply child_loop_ok in H as (blocks & -> & HF). cbn [app].
  induction HF as [|prow block prows blocks [_ Hb] _ IH]; cbn [List.concat];
    [constructor|].
  apply Forall_app. split; [|exact IH].
  eapply Forall_impl; [|exact Hb].
  intros crow Hrow c Hc. destruct (Hrow c Hc) as (v & Hv & _).
  unfold dict_mem. now rewrite Hv.
Qed.

Lemma write_outputs_has_columns : forall table cols (rows : list Row),
  Forall (has_columns cols) rows ->
  exists sql, write_outputs table cols rows = Ok (mkOutput table cols rows sql).
Proof.
  intros table cols rows H. apply write_outputs_total.
  intros row Hrow. rewrite Forall_forall in H. now apply H.
Qed.

End ParentOutcome.

Section NoChildRows.
Context {RT : Runtime}.

Lemma child_loop_no_rows : forall prows m cols fkey_map acc r,
  m <= 0 -> child_loop prows m cols fkey_map acc r = Ok (acc, r).
Proof.
  induction prows as [|prow prows IH]; intros m cols fkey_map acc r Hm;
    cbn [child_loop]; [reflexivity|].
  replace (Z.to_nat m) with O by lia. cbn [repeat_child]. unfold bind, ret.
  now apply IH.
Qed.

(** X11.  A multiplier of 0 or less gives a child table no row at all,
    without a draw ([range] of it is empty), so its SQL text is empty. *)
Theorem nonpositive_multiplier_no_child_rows :
  forall (cols : list ColumnSpec) (fkey_map : list (string * string)) (m : Z)
         (parent_rows : list Row) (r : rng) (tbl : string),
    m <= 0 ->
    gen_child_rows cols fkey_map m parent_rows r = Ok ([], r) /\
    write_outputs tbl cols [] = Ok (mkOutput tbl cols [] EmptyString).
Proof.
  intros cols fkey_map m parent_rows r tbl Hm. split; [|reflexivity].
  unfold gen_child_rows. now apply child_loop_no_rows.
Qed.

End NoChildRows.

(** ** Runs of the command line *)

Section Runs.
Context {RT : Runtime}.

Lemma int_values_error : forall kvs e,
  int_values kvs = Err e -> e = ValueError.
Proof.
  induction kvs as [|[k v] kvs IH]; intros e H; cbn [int_values] in H;
    [discriminate|].
  destruct (py_int v); [|now injection H].
  destruct (int_values kvs) as [out|e'] eqn:E; [discriminate|].
  injection H as <-. now apply IH.
Qed.

(** A multiplier of more digits than [int] accepts is refused like one
    that is not a number. *)
Example int_values_long_multiplier :
  int_values (parse_keyval_map ("Order=" ++ repeat_char "9" 4301))
  = Err ValueError.
Proof. vm_compute. reflexivity. Qed.

Lemma dict_get_of_In : forall (V : Type) k (v : V) d,
  NoDup (map fst d) -> In (k, v) d -> dict_get k d = Some v.
Proof.
  intros V k v d. induction d as [|[k' v'] d IH]; cbn; [contradiction|].
  intros Hnd [[= -> ->] | Hin].
  - now rewrite String.eqb_refl.
  - inversion Hnd as [|? ? Hk' Hnd']; subst.
    destruct (String.eqb_spec k k') as [->|_]; [|now apply IH].
    exfalso. apply Hk'. apply in_map_iff. now exists (k', v).
Qed.

(** The loop over the child tables: what it writes and how it can
    raise. *)
Lemma children_loop_spec : forall items parent mult_map fkey_map prows outs r,
  let run := children_loop items parent mult_map fkey_map prows outs r in
  (exists new rest,
     written run = (outs ++ new)%list /\
     filter (fun t => negb (String.eqb t parent)) (map fst items)
       = (map o_table new ++ rest)%list /\
     (forall r', ended run = Ok r' -> rest = []) /\
     Forall (fun o => In (o_table o, o_cols o) items) new) /\
  (forall e, ended run = Err e ->
     exists tbl cols, In (tbl, cols) items /\ column_raises cols e).
Proof.
  induction items as [|[tbl cols] items IH];
    intros parent mult_map fkey_map prows outs r; cbn zeta.
  - cbn. split; [|discriminate].
    exists [], []. rewrite app_nil_r. repeat split; constructor.
  - cbn [children_loop map filter fst].
    assert (Hlift : forall outs' r1,
      let run' := children_loop items parent mult_map fkey_map prows outs' r1 in
      forall e, ended run' = Err e ->
        exists tbl0 cols0, In (tbl0, cols0) ((tbl, cols) :: items) /\
                           column_raises cols0 e).
    { intros outs' r1 run' e He.
      destruct (IH parent mult_map fkey_map prows outs' r1) as [_ Herr].
      destruct (Herr e He) as (t0 & c0 & Hin & Hc).
      exists t0, c0. split; [now right | exact Hc]. }
    destruct (String.eqb tbl parent) eqn:Ep; cbn [negb].
    + split; [|apply Hlift].
      destruct (IH parent mult_map fkey_map prows outs r)
        as [(new & rest & Hw & Hf & Hok & Hin) _].
      exists new, rest. repeat split; try assumption.
      eapply Forall_impl; [|exact Hin]. intros o Ho. now right.
    + set (m := match dict_get tbl mult_map with Some m => m | None => 1 end).
      unfold gen_child_rows.
      destruct (child_loop prows m cols fkey_map [] r) as [[rows r1]|e] eqn:Hc.
      * destruct (write_outputs_has_columns tbl cols rows
                    (child_loop_rows _ _ _ _ _ _ _ Hc)) as [sql ->].
        split; [|apply Hlift].
        destruct (IH parent mult_map fkey_map prows
                    (outs ++ [mkOutput tbl cols rows sql])%list r1)
          as [(new & rest & Hw & Hf & Hok & Hin) _].
        exists (mkOutput tbl cols rows sql :: new), rest.
        split; [rewrite Hw, <- app_assoc; reflexivity|].
        split; [cbn [map o_table app]; now rewrite Hf|].
        split; [exact Hok|].
        constructor; [now left|].
        eapply Forall_impl; [|exact Hin]. intros o Ho. now right.
      * cbn [written ended]. split.
        -- exists [], (tbl :: filter (fun t => negb (String.eqb t parent))
                                     (map fst items)).
           rewrite app_nil_r. repeat split; [discriminate | constructor].
        -- intros e' [= <-]. exists tbl, cols. split; [now left|].
           now apply child_loop_raises in Hc.
Qed.

Lemma children_loop_no_parents : forall items parent mult_map fkey_map outs r,
  children_loop items parent mult_map fkey_map [] outs r =
  mkRun (outs ++ map (fun tc => mkOutput (fst tc) (snd tc) [] EmptyString)
                     (filter (fun tc => negb (String.eqb (fst tc) parent))
                             items))%list
        (Ok r).
Proof.
  induction items as [|[tbl cols] items IH];
    intros parent mult_map fkey_map outs r; cbn [children_loop filter map fst].
  - now rewrite app_nil_r.
  - destruct (String.eqb tbl parent); cbn [negb]; [apply IH|].
    cbn. rewrite IH, <- app_assoc. reflexivity.
Qed.

Lemma filter_map_fst : forall (parent : string) (items : Schemas),
  map fst (filter (fun tc => negb (String.eqb (fst tc) parent)) items)
  = filter (fun t => negb (String.eqb t parent)) (map fst items).
Proof.
  intros parent items. induction items as [|[t c] items IH]; cbn;
    [reflexivity|].
  destruct (String.eqb t parent); cbn; now rewrite IH.
Qed.

(** X12.  The outputs of a run are written in a fixed order: the parent
    table first, then the other tables in the order of the schema set; a
    run that raises has written a prefix of them, and every output
    carries the columns of its table. *)
Theorem outputs_in_schema_order :
  forall (entries : list (string * list string)) (key_fields : string)
         (num_rows : Z) (multipliers foreign_map : string) (r : rng)
         (parent : string),
    let schemas := parse_schema_dir entries in
    let run := main_cli entries key_fields num_rows multipliers foreign_map r in
    select_parent schemas key_fields = Some parent ->
    (exists rest,
       expected_tables parent schemas
         = (map o_table (written run) ++ rest)%list /\
       (forall r', ended run = Ok r' -> rest = [])) /\
    Forall (fun o => dict_get (o_table o) schemas = Some (o_cols o))
           (written run).
Proof.
  intros entries key_fields num_rows multipliers foreign_map r parent
         schemas run Hsel.
  destruct (schema_dir_loop_ok entries [] (conj (NoDup_nil _) (Forall_nil _)))
    as [Hnd _].
  change (schema_dir_loop entries []) with (parse_schema_dir entries) in Hnd.
  fold schemas in Hnd.
  destruct (select_parent_member schemas key_fields parent Hsel)
    as [pcols Hp].
  unfold run, main_cli. fold schemas. cbv zeta. rewrite Hsel, Hp.
  unfold expected_tables.
  destruct (gen_parent_rows pcols (key_list key_fields) num_rows r)
    as [[rows r1]|e] eqn:Hg.
  2: { cbn [written ended]. split; [|constructor].
       eexists. split; [reflexivity | discriminate]. }
  destruct (write_outputs_has_columns parent pcols rows
              (proj2 (parent_loop_rows _ _ _ _ _ _ _ Hg))) as [sql ->].
  destruct (int_values (parse_keyval_map multipliers)) as [mult_map|e].
  2: { cbn [written ended map o_table]. split.
       - eexists. split; [reflexivity | discriminate].
       - constructor; [exact Hp | constructor]. }
  destruct (children_loop_spec schemas parent mult_map
              (parse_keyval_map foreign_map) rows
              [mkOutput parent pcols rows sql] r1)
    as [(new & rest & Hw & Hf & Hok & Hin) _].
  rewrite Hw. split.
  - exists rest. split; [|exact Hok].
    cbn [app map o_table]. now rewrite Hf.
  - constructor; [exact Hp|].
    eapply Forall_impl; [|exact Hin].
    intros o Ho. now apply dict_get_of_In.
Qed.

(** X13.  With [num_rows] at most 0 (and multipliers that [int]
    accepts: integer literals of at most [int_max_str_digits] digits),
    the run ends well without a single draw and writes one output per
    table, each with no row and an empty SQL text. *)
Theorem no_rows_requested :
  forall (entries : list (string * list string)) (key_fields : string)
         (num_rows : Z) (multipliers foreign_map : string) (r : rng)
         (parent : string) (mult_map : list (string * Z)),
    let schemas := parse_schema_dir entries in
    let run := main_cli entries key_fields num_rows multipliers foreign_map r in
    num_rows <= 0 ->
    select_parent schemas key_fields = Some parent ->
    int_values (parse_keyval_map multipliers) = Ok mult_map ->
    ended run = Ok r /\
    map o_table (written run) = expected_tables parent schemas /\
    Forall (fun o => o_rows o = [] /\ o_sql o = EmptyString) (written run).
Proof.
  intros entries key_fields num_rows multipliers foreign_map r parent mult_map
         schemas run Hn Hsel Hm.
  destruct (select_parent_member schemas key_fields parent Hsel)
    as [pcols Hp].
  unfold run, main_cli. fold schemas. cbv zeta. rewrite Hsel, Hp.
  unfold gen_parent_rows. replace (Z.to_nat num_rows) with O by lia.
  cbn [parent_loop ret write_outputs emit_insert_sql]. rewrite Hm.
  rewrite children_loop_no_parents. cbn [ended written].
  split; [reflexivity|]. split.
  - unfold expected_tables. cbn [app map o_table]. f_equal.
    rewrite map_map. cbn [o_table]. apply filter_map_fst.
  - constructor; [now split|].
    apply Forall_forall. intros o Ho. apply in_map_iff in Ho as (tc & <- & _).
    now split.
Qed.

(** X14.  A multiplier that [int] refuses (not an integer literal, or
    one of more than [int_max_str_digits] digits) is only found after
    the parent table is done: unless the parent rows themselves fail,
    the run writes the parent output, raises [ValueError], and writes
    no child table. *)
Theorem bad_multiplier_after_parent :
  forall (entries : list (string * list string)) (key_fields : string)
         (num_rows : Z) (multipliers foreign_map : string) (r : rng)
         (parent : string) (e0 : error),
    let schemas := parse_schema_dir entries in
    let run := main_cli entries key_fields num_rows multipliers foreign_map r in
    select_parent schemas key_fields = Some parent ->
    int_values (parse_keyval_map multipliers) = Err e0 ->
    exists pcols,
      dict_get parent schemas = Some pcols /\
      ((exists e,
          gen_parent_rows pcols (key_list key_fields) num_rows r = Err e /\
          written run = [] /\ ended run = Err e) \/
       (exists rows r1 sql,
          gen_parent_rows pcols (key_list key_fields) num_rows r
            = Ok (rows, r1) /\
          written run = [mkOutput parent pcols rows sql] /\
          ended run = Err ValueError)).
Proof.
  intros entries key_fields num_rows multipliers foreign_map r parent e0
         schemas run Hsel Hm.
  destruct (select_parent_member schemas key_fields parent Hsel)
    as [pcols Hp].
  exists pcols. split; [exact Hp|].
  unfold run, main_cli. fold schemas. cbv zeta. rewrite Hsel, Hp.
  destruct (gen_parent_rows pcols (key_list key_fields) num_rows r)
    as [[rows r1]|e] eqn:Hg.
  - right. exists rows, r1.
    destruct (write_outputs_has_columns parent pcols rows
                (proj2 (parent_loop_rows _ _ _ _ _ _ _ Hg))) as [sql ->].
    exists sql. rewrite Hm. rewrite (int_values_error _ _ Hm).
    now repeat split.
  - left. exists e. now repeat split.
Qed.

Lemma children_loop_counts : forall items parent mult_map fkey_map prows outs r,
  exists new,
    written (children_loop items parent mult_map fkey_map prows outs r)
      = (outs ++ new)%list /\
    Forall (fun o =>
              o_table o <> parent /\
              List.length (o_rows o)
              = (List.length prows
                 * Z.to_nat (multiplier_of mult_map (o_table o)))%nat) new.
Proof.
  induction items as [|[tbl cols] items IH];
    intros parent mult_map fkey_map prows outs r.
  - exists []. cbn. now rewrite app_nil_r.
  - cbn [children_loop].
    destruct (String.eqb_spec tbl parent) as [_|Hne]; [apply IH|].
    fold (multiplier_of mult_map tbl). unfold gen_child_rows.
    destruct (child_loop prows (multiplier_of mult_map tbl) cols fkey_map [] r)
      as [[rows r1]|e] eqn:Hc.
    + destruct (write_outputs_has_columns tbl cols rows
                  (child_loop_rows _ _ _ _ _ _ _ Hc)) as [sql ->].
      destruct (IH parent mult_map fkey_map prows
                  (outs ++ [mkOutput tbl cols rows sql])%list r1)
        as (new & Hw & Hall).
      exists (mkOutput tbl cols rows sql :: new).
      split; [rewrite Hw, <- app_assoc; reflexivity|].
      constructor; [|exact Hall]. cbn [o_table o_rows].
      split; [exact Hne|].
      apply child_loop_ok in Hc as (blocks & -> & HF). cbn [app].
      exact (concat_blocks_length _ _ _ _ _ _ HF).
    + exists []. cbn. now rewrite app_nil_r.
Qed.

(** X28.  What a run that ends well has written: first the parent table
    with exactly [num_rows] rows (none for a negative number), whose
    composite keys are pairwise distinct when key fields are given; then
    every other table with as many rows as parent rows times its
    multiplier (1 without one, none for a multiplier below 1). *)
Theorem successful_run_row_counts :
  forall (entries : list (string * list string)) (key_fields : string)
         (num_rows : Z) (multipliers foreign_map : string) (r r' : rng),
    let schemas := parse_schema_dir entries in
    let run := main_cli entries key_fields num_rows multipliers foreign_map r in
    ended run = Ok r' ->
    exists parent pcols prows sql mult_map outs,
      select_parent schemas key_fields = Some parent /\
      dict_get parent schemas = Some pcols /\
      int_values (parse_keyval_map multipliers) = Ok mult_map /\
      written run = mkOutput parent pcols prows sql :: outs /\
      List.length prows = Z.to_nat num_rows /\
      (key_list key_fields <> [] ->
       exists ts, keys_of prows (key_list key_fields) = Ok ts /\
                  pairwise_distinct ts) /\
      map o_table outs
        = filter (fun t => negb (String.eqb t parent)) (map fst schemas) /\
      Forall (fun o =>
                List.length (o_rows o)
                = (Z.to_nat num_rows
                   * Z.to_nat (multiplier_of mult_map (o_table o)))%nat) outs.
Proof.
  intros entries key_fields num_rows multipliers foreign_map r r' schemas run
         Hend.
  unfold run, main_cli in Hend |- *. clear run.
  fold schemas in Hend |- *. cbv zeta in Hend |- *.
  destruct (select_parent schemas key_fields) as [parent|] eqn:Hsel;
    [|discriminate Hend].
  destruct (select_parent_member schemas key_fields parent Hsel)
    as [pcols Hp].
  rewrite Hp in Hend |- *.
  destruct (gen_parent_rows pcols (key_list key_fields) num_rows r)
    as [[prows r1]|e] eqn:Hg; [|discriminate Hend].
  pose proof Hg as Hg'. unfold gen_parent_rows in Hg'.
  destruct (parent_loop_rows _ _ _ _ _ _ _ Hg') as [Hlen Hcols].
  destruct (write_outputs_has_columns parent pcols prows Hcols) as [sql Hw].
  rewrite Hw in Hend |- *.
  destruct (int_values (parse_keyval_map multipliers)) as [mult_map|e] eqn:Hm;
    [|discriminate Hend].
  destruct (children_loop_spec schemas parent mult_map
              (parse_keyval_map foreign_map) prows
              [mkOutput parent pcols prows sql] r1)
    as [(new & rest & Hwr & Hf & Hok & _) _].
  destruct (children_loop_counts schemas parent mult_map
              (parse_keyval_map foreign_map) prows
              [mkOutput parent pcols prows sql] r1)
    as (new' & Hwr' & Hcnt).
  assert (new' = new) by (rewrite Hwr in Hwr'; now apply app_inv_head in Hwr').
  subst new'.
  exists parent, pcols, prows, sql, mult_map, new.
  split; [reflexivity|]. split; [exact Hp|]. split; [reflexivity|].
  split; [exact Hwr|]. split; [exact Hlen|]. split.
  - intro Hk. exact (gen_parent_rows_distinct _ _ _ _ _ _ Hk Hg).
  - split.
    + rewrite Hf, (Hok r' Hend). now rewrite app_nil_r.
    + eapply Forall_impl; [|exact Hcnt].
      intros o [_ Ho]. now rewrite Ho, Hlen.
Qed.

End Runs.

Section RunErrors.
Context {RT : Runtime}.

(** On the columns of a schema set the generator raises on such a
    column only. *)
Lemma column_raises_cause : forall schemas t cols e,
  schemas_ok schemas -> In (t, cols) schemas -> column_raises cols e ->
  exists c, In c cols /\ failing_column e c.
Proof.
  intros schemas t cols e [_ Hall] Hin (c & r & Hc & Hg).
  rewrite Forall_forall in Hall. destruct (Hall _ Hin) as (_ & _ & Hcols).
  cbn [snd] in Hcols. rewrite Forall_forall in Hcols.
  destruct (Hcols c Hc) as (_ & _ & Hl).
  exists c. split; [exact Hc|].
  assert (Hover : forall d, declared_len (lens c) d = None -> 0 <= d ->
            (int_max_str_digits < String.length (first_numeral (lens c)))%nat).
  { intros d Hn Hd. apply Nat.nle_gt. intro Hle.
    destruct (lens_shaped_declared (lens c) d Hl Hd Hle) as (n & Hn' & _).
    congruence. }
  apply generate_random_raises in Hg as [[-> Hd] | [-> [[Hv Hn] | [Hv Hn]]]].
  - left. now split.
  - right. split; [reflexivity|]. split; [now left|].
    apply (Hover 32 Hn). lia.
  - right. split; [reflexivity|]. split; [now right|].
    apply (Hover 1 Hn). lia.
Qed.

(** X15.  Every way a run over a directory can fail: no schema at all;
    200 duplicate keys in a row; a key field that is not a column of
    the parent table; a multiplier that [int] refuses (not an integer
    literal, or one of more than [int_max_str_digits] digits); a signal
    of [decimal] on a [numeric] column; a character column whose
    declared length [int] refuses, having more than
    [int_max_str_digits] digits. The first three leave nothing
    written. *)
Theorem run_error_causes :
  forall (entries : list (string * list string)) (key_fields : string)
         (num_rows : Z) (multipliers foreign_map : string) (r : rng)
         (e : error),
    let schemas := parse_schema_dir entries in
    let run := main_cli entries key_fields num_rows multipliers foreign_map r in
    ended run = Err e ->
    (e = no_schema_error /\ schemas = [] /\ written run = []) \/
    (e = duplicate_key_error /\ key_list key_fields <> [] /\
     written run = []) \/
    (exists k parent pcols,
       e = KeyError k /\ In k (key_list key_fields) /\
       select_parent schemas key_fields = Some parent /\
       dict_get parent schemas = Some pcols /\
       ~ In k (map name pcols) /\ written run = []) \/
    (e = ValueError /\
     int_values (parse_keyval_map multipliers) = Err ValueError) \/
    (exists t cols c,
       In (t, cols) schemas /\ In c cols /\ failing_column e c).
Proof.
  intros entries key_fields num_rows multipliers foreign_map r e schemas run
         Hend.
  assert (Hok : schemas_ok schemas)
    by (apply schema_dir_loop_ok; split; constructor).
  assert (Hdec : forall t cols, In (t, cols) schemas -> column_raises cols e ->
            exists t cols c,
              In (t, cols) schemas /\ In c cols /\ failing_column e c).
  { intros t cols Hin Hc.
    destruct (column_raises_cause schemas t cols e Hok Hin Hc)
      as (c & Hc' & Hd).
    now exists t, cols, c. }
  unfold run, main_cli in *. fold schemas in Hend |- *. cbv zeta in Hend |- *.
  destruct (select_parent schemas key_fields) as [parent|] eqn:Hsel.
  2: { cbn [ended written] in *. injection Hend as <-. left.
       repeat split. unfold select_parent in Hsel.
       destruct schemas as [|[? ?] ?]; [reflexivity | discriminate]. }
  destruct (select_parent_member schemas key_fields parent Hsel)
    as [pcols Hp].
  rewrite Hp in Hend |- *.
  pose proof (dict_get_In _ _ _ _ Hp) as Hin.
  unfold gen_parent_rows in *.
  destruct (parent_loop (Z.to_nat num_rows) pcols (key_list key_fields) [] [] r)
    as [[rows r1]|e'] eqn:Hg.
  2: { cbn [ended written] in *. injection Hend as ->.
       apply parent_loop_raises in Hg
         as [[-> Hk] | [(k & -> & Hk & Hmiss) | Hc]].
       - right. left. now repeat split.
       - right. right. left. exists k, parent, pcols. now repeat split.
       - do 4 right. now apply (Hdec parent pcols). }
  destruct (write_outputs_has_columns parent pcols rows
              (proj2 (parent_loop_rows _ _ _ _ _ _ _ Hg))) as [sql Hw].
  rewrite Hw in Hend |- *.
  destruct (int_values (parse_keyval_map multipliers)) as [mult_map|e'] eqn:Hm.
  2: { cbn [ended] in Hend. injection Hend as ->.
       pose proof (int_values_error _ _ Hm) as ->.
       do 3 right. left. now split. }
  destruct (children_loop_spec schemas parent mult_map
              (parse_keyval_map foreign_map) rows
              [mkOutput parent pcols rows sql] r1) as [_ Herr].
  destruct (Herr e Hend) as (t & cols & Ht & Hc).
  do 4 right. now apply (Hdec t cols).
Qed.

End RunErrors.

(** ** Trimming, splitting and joining *)

Lemma lstrip_by_app : forall p a c b,
  p c = false ->
  lstrip_by p (a ++ String c b) = lstrip_by p a ++ String c b.
Proof.
  intros p a c b Hc. induction a as [|x a IH]; cbn.
  - now rewrite Hc.
  - destruct (p x); [exact IH | reflexivity].
Qed.

Lemma rstrip_by_app : forall p a c b,
  p c = false ->
  rstrip_by p (a ++ String c b) = a ++ String c (rstrip_by p b).
Proof.
  intros p a c b Hc. induction a as [|x a IH].
  - cbn [append]. now apply rstrip_by_keep.
  - cbn [append rstrip_by]. rewrite IH.
    now destruct a.
Qed.

Lemma lstrip_by_idem : forall p s, lstrip_by p (lstrip_by p s) = lstrip_by p s.
Proof.
  intros p s. induction s as [|c s IH]; cbn; [reflexivity|].
  destruct (p c) eqn:E; [exact IH|]. cbn. now rewrite E.
Qed.

Lemma rstrip_by_idem : forall p s, rstrip_by p (rstrip_by p s) = rstrip_by p s.
Proof.
  intros p s. induction s as [|c s IH]; cbn [rstrip_by]; [reflexivity|].
  destruct (rstrip_by p s) as [|d t] eqn:E.
  - destruct (p c) eqn:Ec; cbn; [reflexivity | now rewrite Ec].
  - cbn [rstrip_by]. cbn [rstrip_by] in IH.
    destruct (rstrip_by p t) as [|d' t'].
    + destruct (p d); [discriminate IH | now rewrite IH].
    + now rewrite IH.
Qed.

Lemma strip_commute : forall p s,
  lstrip_by p (rstrip_by p s) = rstrip_by p (lstrip_by p s).
Proof.
  intros p s. induction s as [|c s IH]; [reflexivity|].
  destruct (p c) eqn:Ec.
  - cbn [lstrip_by]. rewrite Ec, <- IH. cbn [rstrip_by].
    destruct (rstrip_by p s) as [|d t]; [now rewrite Ec|].
    cbn [lstrip_by]. now rewrite Ec.
  - rewrite (rstrip_by_keep p c s Ec), !(lstrip_by_keep p c _ Ec).
    now rewrite (rstrip_by_keep p c s Ec).
Qed.

Lemma strip_idem : forall s, strip (strip s) = strip s.
Proof.
  intro s. unfold strip.
  now rewrite strip_commute, lstrip_by_idem, rstrip_by_idem.
Qed.

Lemma strip_lstrip : forall s, strip (lstrip_by is_space s) = strip s.
Proof. intro s. unfold strip. now rewrite lstrip_by_idem. Qed.

Lemma strip_rstrip : forall s, strip (rstrip_by is_space s) = strip s.
Proof.
  intro s. unfold strip. now rewrite strip_commute, rstrip_by_idem.
Qed.

(** A pair with an equals sign between, trimmed. *)
Lemma strip_pair : forall k v,
  strip (k ++ "=" ++ v)
  = lstrip_by is_space k ++ "=" ++ rstrip_by is_space v.
Proof.
  intros k v. unfold strip. cbn [append].
  rewrite lstrip_by_app by reflexivity.
  now rewrite rstrip_by_app by reflexivity.
Qed.

Lemma contains_app_sep : forall a c b,
  contains (String c EmptyString) (a ++ String c b) = true.
Proof.
  intros a c b. induction a as [|x a IH]; cbn [append contains].
  - cbn. destruct (ascii_dec c c); [|congruence]. now rewrite prefix_empty.
  - rewrite IH. apply orb_true_r.
Qed.

Lemma split1_app_sep : forall sep a b,
  all_chars (fun c => negb (Ascii.eqb c sep)) a = true ->
  split1 sep (a ++ String sep b) = [a; b].
Proof.
  intros sep a b. induction a as [|x a IH]; cbn [all_chars]; intro H.
  - cbn. now rewrite Ascii.eqb_refl.
  - apply andb_true_iff in H as [Hx H]. apply negb_true_iff in Hx.
    cbn. rewrite Hx, (IH H). reflexivity.
Qed.

Lemma split_join : forall sep xs,
  xs <> [] ->
  Forall (fun x => all_chars (fun c => negb (Ascii.eqb c sep)) x = true) xs ->
  split sep (join (String sep EmptyString) xs) = xs.
Proof.
  intros sep xs Hne H. induction H as [|x xs Hx Hxs IH]; [congruence|].
  destruct xs as [|y ys].
  - cbn [join]. now apply split_no_sep.
  - change (join (String sep EmptyString) (x :: y :: ys))
      with (x ++ String sep (join (String sep EmptyString) (y :: ys))).
    rewrite (split_app_sep sep x _ Hx). f_equal. apply IH. discriminate.
Qed.

(** ** The map of a configuration string *)

Lemma keyval_loop_pairs : forall kvs out,
  Forall (fun kv => no_equals (fst kv) = true) kvs ->
  keyval_loop (map (fun kv => fst kv ++ "=" ++ snd kv) kvs) out
  = assign_pairs kvs out.
Proof.
  intros kvs out H. revert out.
  induction H as [|[k v] kvs Hk _ IH]; intro out; [reflexivity|].
  cbn [map keyval_loop assign_pairs fold_left fst snd] in *.
  rewrite strip_pair.
  set (k' := lstrip_by is_space k). set (v' := rstrip_by is_space v).
  assert (Hk' : no_equals k' = true) by (now apply all_chars_lstrip).
  assert (Hne : is_empty (k' ++ "=" ++ v') = false) by (now destruct k').
  rewrite Hne. cbn [append].
  rewrite contains_app_sep. cbn [negb].
  rewrite (split1_app_sep "=" k' v' Hk').
  unfold k', v'. rewrite strip_lstrip, strip_rstrip. apply IH.
Qed.

Lemma parse_keyval_map_render :
  forall (kvs : list (string * string)),
    Forall (fun kv => no_comma (fst kv) = true /\ no_equals (fst kv) = true /\
                      no_comma (snd kv) = true) kvs ->
    parse_keyval_map (render_pairs kvs) = assign_pairs kvs [].
Proof.
  intros kvs H. unfold parse_keyval_map, render_pairs.
  destruct kvs as [|kv kvs]; [reflexivity|].
  assert (Hne : is_empty (join "," (map (fun kv0 => fst kv0 ++ "=" ++ snd kv0)
                                        (kv :: kvs))) = false).
  { cbn [map join]. destruct (fst kv); destruct (map _ kvs); reflexivity. }
  rewrite Hne. rewrite split_join.
  - apply keyval_loop_pairs.
    eapply Forall_impl; [|exact H]. now intros x (_ & Hx & _).
  - discriminate.
  - apply Forall_map. eapply Forall_impl; [|exact H].
    intros [k v] (Hk & _ & Hv). cbn [fst snd] in *.
    unfold no_comma in *. rewrite all_chars_app, Hk. cbn. exact Hv.
Qed.

(** X19.  Reading back a list of pairs written as [k=v,k=v,...] (keys
    without comma or equals sign, values without comma) gives the dict
    that assigning the pairs in order builds, keys and values trimmed: a
    later pair for the same key replaces the value and keeps the key's
    place. *)
Theorem parse_keyval_map_of_pairs :
  forall (kvs : list (string * string)),
    Forall (fun kv => no_comma (fst kv) = true /\ no_equals (fst kv) = true /\
                      no_comma (snd kv) = true) kvs ->
    parse_keyval_map (render_pairs kvs) = assign_pairs kvs [].
Proof. intros kvs H. now apply parse_keyval_map_render. Qed.

Lemma keyval_loop_keys : forall pieces out,
  NoDup (map fst out) ->
  Forall (fun kv => strip (fst kv) = fst kv /\ strip (snd kv) = snd kv) out ->
  NoDup (map fst (keyval_loop pieces out)) /\
  Forall (fun kv => strip (fst kv) = fst kv /\ strip (snd kv) = snd kv)
         (keyval_loop pieces out).
Proof.
  induction pieces as [|p pieces IH]; intros out Hnd Hall;
    cbn [keyval_loop]; [now split|].
  destruct (is_empty (strip p)); [now apply IH|].
  destruct (negb (contains "=" (strip p))); [now apply IH|].
  destruct (split1 "=" (strip p)) as [|k [|v rest]]; try now apply IH.
  apply IH; [now apply dict_set_NoDup|].
  apply dict_set_Forall; [exact Hall|]. cbn [fst snd].
  now rewrite !strip_idem.
Qed.

(** X20.  Whatever the string, the keys of the map are distinct, and
    keys and values carry no white space at either end. *)
Theorem parse_keyval_map_keys :
  forall (s : string),
    NoDup (map fst (parse_keyval_map s)) /\
    Forall (fun kv => strip (fst kv) = fst kv /\ strip (snd kv) = snd kv)
           (parse_keyval_map s).
Proof.
  intro s. unfold parse_keyval_map.
  destruct (is_empty s); [split; constructor|].
  apply keyval_loop_keys; constructor.
Qed.

(** *** Writing a map and reading it back *)

Lemma split_pieces_no_sep : forall sep s,
  Forall (fun x => all_chars (fun c => negb (Ascii.eqb c sep)) x = true)
         (split sep s).
Proof.
  intros sep s. induction s as [|c s IH]; cbn [split].
  - now repeat constructor.
  - destruct (Ascii.eqb c sep) eqn:E; [now constructor|].
    destruct (split sep s) as [|h t]; [repeat constructor; cbn; now rewrite E|].
    inversion IH as [|? ? Hh Ht]; subst.
    constructor; [|exact Ht]. cbn. now rewrite E, Hh.
Qed.

Lemma split1_parts : forall (q : ascii -> bool) sep s k v rest,
  all_chars q s = true -> split1 sep s = k :: v :: rest ->
  all_chars q k = true /\ all_chars q v = true /\
  all_chars (fun c => negb (Ascii.eqb c sep)) k = true.
Proof.
  intros q sep s. induction s as [|c s IH]; intros k v rest Hq H;
    cbn [split1] in H; [discriminate|].
  cbn [all_chars] in Hq. apply andb_true_iff in Hq as [Hc Hs].
  destruct (Ascii.eqb c sep) eqn:E.
  - injection H as <- <- <-. now repeat split.
  - destruct (split1 sep s) as [|h [|v' t]] eqn:Es; try discriminate H.
    injection H as <- <- <-.
    destruct (IH h v' t Hs eq_refl) as (Hh & Hv & Hn).
    repeat split; [cbn; now rewrite Hc, Hh | exact Hv | cbn; now rewrite E, Hn].
Qed.

Lemma all_chars_strip : forall q s,
  all_chars q s = true -> all_chars q (strip s) = true.
Proof.
  intros q s H. unfold strip. now apply all_chars_rstrip, all_chars_lstrip.
Qed.

(** What every entry of a map read from a string satisfies. *)
Lemma keyval_loop_entries : forall pieces out,
  Forall (fun p => no_comma p = true) pieces ->
  Forall (fun kv => no_comma (fst kv) = true /\ no_equals (fst kv) = true /\
                    no_comma (snd kv) = true) out ->
  Forall (fun kv => no_comma (fst kv) = true /\ no_equals (fst kv) = true /\
                    no_comma (snd kv) = true) (keyval_loop pieces out).
Proof.
  intros pieces out Hp. revert out.
  induction Hp as [|p pieces Hc _ IH]; intros out Hout;
    cbn [keyval_loop]; [exact Hout|].
  destruct (is_empty (strip p)); [now apply IH|].
  destruct (negb (contains "=" (strip p))); [now apply IH|].
  destruct (split1 "=" (strip p)) as [|k [|v rest]] eqn:Es; try now apply IH.
  apply IH. apply dict_set_Forall; [exact Hout|]. cbn [fst snd].
  assert (Hs : no_comma (strip p) = true) by (now apply all_chars_strip).
  destruct (split1_parts _ "=" _ _ _ _ Hs Es) as (Hk & Hv & Hn).
  unfold no_comma, no_equals.
  repeat split; now apply all_chars_strip.
Qed.

Lemma assign_pairs_id : forall kvs out,
  NoDup (map fst (out ++ kvs)%list) ->
  Forall (fun kv => strip (fst kv) = fst kv /\ strip (snd kv) = snd kv) kvs ->
  assign_pairs kvs out = (out ++ kvs)%list.
Proof.
  intros kvs. induction kvs as [|[k v] kvs IH]; intros out Hnd Hs.
  - cbn. now rewrite app_nil_r.
  - inversion Hs as [|? ? [Hk Hv] Hs']; subst. cbn [fst snd] in *.
    cbn [assign_pairs fold_left fst snd]. rewrite Hk, Hv.
    rewrite map_app in Hnd. cbn [map fst] in Hnd.
    rewrite dict_set_new.
    + change (fold_left _ kvs ?a) with (assign_pairs kvs a).
      rewrite IH; [now rewrite <- app_assoc | | exact Hs'].
      rewrite <- app_assoc, map_app. exact Hnd.
    + apply NoDup_remove_2 in Hnd. intro Hin. apply Hnd.
      apply in_or_app. now left.
Qed.

(** X24.  Writing the map read from a string as [k=v,k=v,...] and
    reading that back gives the same map, entry for entry and in the
    same order. *)
Theorem parse_keyval_map_round_trip :
  forall (s : string),
    parse_keyval_map (render_pairs (parse_keyval_map s)) = parse_keyval_map s.
Proof.
  intro s.
  assert (He : Forall (fun kv => no_comma (fst kv) = true /\
                                 no_equals (fst kv) = true /\
                                 no_comma (snd kv) = true)
                      (parse_keyval_map s)).
  { unfold parse_keyval_map. destruct (is_empty s); [constructor|].
    apply keyval_loop_entries; [apply split_pieces_no_sep | constructor]. }
  rewrite (parse_keyval_map_render _ He).
  assert (Hk : NoDup (map fst (parse_keyval_map s)) /\
               Forall (fun kv => strip (fst kv) = fst kv /\
                                 strip (snd kv) = snd kv)
                      (parse_keyval_map s)).
  { unfold parse_keyval_map. destruct (is_empty s); [split; constructor|].
    apply keyval_loop_keys; constructor. }
  destruct Hk as [Hnd Hs].
  now rewrite (assign_pairs_id _ [] Hnd Hs).
Qed.

(** ** SQL text *)

Lemma double_quotes_inj : forall a b,
  double_quotes a = double_quotes b -> a = b.
Proof.
  induction a as [|c a IH]; intros [|d b] H; cbn [double_quotes] in H.
  - reflexivity.
  - destruct (Ascii.eqb d "'"); discriminate H.
  - destruct (Ascii.eqb c "'"); discriminate H.
  - destruct (Ascii.eqb_spec c "'") as [->|Hc];
      destruct (Ascii.eqb_spec d "'") as [->|Hd].
    + injection H as H. f_equal. now apply IH.
    + injection H as <- _. congruence.
    + injection H as -> _. congruence.
    + injection H as -> H. f_equal. now apply IH.
Qed.

Lemma app_inv_tail_char : forall (a b : string) c,
  a ++ String c EmptyString = b ++ String c EmptyString -> a = b.
Proof.
  induction a as [|x a IH]; intros [|y b] c H; cbn [append] in H.
  - reflexivity.
  - injection H as _ H. now destruct b.
  - injection H as _ H. now destruct a.
  - injection H as -> H. f_equal. now apply (IH b c).
Qed.

Section SqlText.
Context {RT : Runtime}.

(** X21.  Quoting loses nothing: two strings with the same SQL literal
    are the same string. *)
Theorem sql_string_literal_injective :
  forall (a b : string),
    to_sql_literal (VStr a) = to_sql_literal (VStr b) -> a = b.
Proof.
  intros a b H. cbn [to_sql_literal] in H. unfold sq in H.
  rewrite !replace_quote in H. cbn [append] in H. injection H as H.
  apply app_inv_tail_char in H. now apply double_quotes_inj.
Qed.



End SqlText.

(** ** Lines the column pattern accepts *)

Lemma rmatch_seq : forall fuel n0 a b s caps k,
  rmatch fuel n0 (RSeq a b) s caps k
  = rmatch fuel n0 a s caps (fun s1 c1 => rmatch fuel n0 b s1 c1 k).
Proof. intros. now rewrite rmatch_eq. Qed.

Lemma rmatch_group : forall fuel n0 g a s caps k,
  rmatch fuel n0 (RGroup g a) s caps k
  = rmatch fuel n0 a s caps
      (fun s1 c1 =>
         k s1 ((g, take (String.length s - String.length s1) s) :: c1)).
Proof. intros. now rewrite rmatch_eq. Qed.

Lemma rmatch_set_stops : forall fuel n0 p s caps k,
  stops p s -> rmatch fuel n0 (RSet p) s caps k = None.
Proof.
  intros fuel n0 p s caps k H. rewrite rmatch_eq.
  destruct s as [|c s]; [reflexivity|]. cbn in H. now rewrite H.
Qed.

Lemma rmatch_lit_stops : forall fuel n0 c s caps k,
  stops (fun d => Ascii.eqb (lower_char d) (lower_char c)) s ->
  rmatch fuel n0 (RLit c) s caps k = None.
Proof.
  intros fuel n0 c s caps k H. rewrite rmatch_eq.
  destruct s as [|d s]; [reflexivity|]. cbn in H. now rewrite H.
Qed.

Lemma rmatch_lit_same : forall fuel n0 c s caps k,
  rmatch fuel n0 (RLit c) (String c s) caps k = k s caps.
Proof. intros. rewrite rmatch_eq. now rewrite Ascii.eqb_refl. Qed.

Lemma rmatch_opt_skip : forall fuel n0 a s caps k,
  rmatch fuel n0 a s caps k = None ->
  rmatch fuel n0 (ROpt a) s caps k = k s caps.
Proof. intros fuel n0 a s caps k H. rewrite rmatch_eq. now rewrite H. Qed.

Lemma rmatch_opt_take : forall fuel n0 a s caps k m,
  rmatch fuel n0 a s caps k = Some m ->
  rmatch fuel n0 (ROpt a) s caps k = Some m.
Proof. intros fuel n0 a s caps k m H. rewrite rmatch_eq. now rewrite H. Qed.

Lemma rmatch_star_skip : forall fuel n0 a s caps k,
  (forall k', rmatch fuel n0 a s caps k' = None) ->
  rmatch fuel n0 (RStar a) s caps k = k s caps.
Proof.
  intros fuel n0 a s caps k H. rewrite rmatch_eq.
  destruct fuel; [reflexivity|]. now rewrite H.
Qed.

(** The greedy star of a set takes the whole run of characters of the
    set when what follows lets the match go on. *)
Lemma rmatch_star_set : forall n0 p w fuel rest caps k m,
  all_chars p w = true -> stops p rest ->
  (String.length w <= fuel)%nat ->
  k rest caps = Some m ->
  rmatch fuel n0 (RStar (RSet p)) (w ++ rest) caps k = Some m.
Proof.
  intros n0 p w. induction w as [|c w IH];
    intros fuel rest caps k m Hw Hr Hf Hk.
  - cbn [append]. rewrite rmatch_star_skip; [exact Hk|].
    intro k'. now apply rmatch_set_stops.
  - cbn [all_chars] in Hw. apply andb_true_iff in Hw as [Hc Hw].
    destruct fuel as [|f]; [cbn in Hf; lia|]. cbn [String.length] in Hf.
    rewrite rmatch_eq. cbv iota beta.
    replace (rmatch (S f) n0 (RSet p) (String c w ++ rest) caps
               (fun s1 c1 =>
                  if (String.length s1 <? String.length (String c w ++ rest))%nat
                  then rmatch f n0 (RStar (RSet p)) s1 c1 k else None))
      with (Some m); [reflexivity|].
    symmetry. rewrite rmatch_eq. cbn [append]. rewrite Hc.
    assert (Hlt : (String.length (w ++ rest)
                   <? String.length (String c (w ++ rest)))%nat = true)
      by (apply Nat.ltb_lt; cbn; lia).
    rewrite Hlt. apply IH; [exact Hw | exact Hr | lia | exact Hk].
Qed.

Lemma rmatch_plus_set : forall n0 p w fuel rest caps k m,
  w <> EmptyString -> all_chars p w = true -> stops p rest ->
  (String.length w <= fuel)%nat ->
  k rest caps = Some m ->
  rmatch fuel n0 (RPlus (RSet p)) (w ++ rest) caps k = Some m.
Proof.
  intros n0 p w fuel rest caps k m Hne Hw Hr Hf Hk.
  destruct w as [|c w]; [congruence|].
  cbn [all_chars] in Hw. apply andb_true_iff in Hw as [Hc Hw].
  unfold RPlus. rewrite rmatch_seq, rmatch_eq. cbn [append]. rewrite Hc.
  apply rmatch_star_set; [exact Hw | exact Hr | cbn in Hf; lia | exact Hk].
Qed.

Lemma word_not_quote : forall c,
  is_word c = true ->
  Ascii.eqb (lower_char c) (lower_char (ascii_of_N 34)) = false /\
  is_space c = false.
Proof.
  intros c H. destruct c as [[] [] [] [] [] [] [] []];
    vm_compute in H; try discriminate H; split; reflexivity.
Qed.

Lemma space_not_word : forall c,
  is_space c = true ->
  is_word c = false /\ type_char c = false /\
  Ascii.eqb (lower_char c) (lower_char (ascii_of_N 34)) = false.
Proof.
  intros c H. destruct c as [[] [] [] [] [] [] [] []];
    vm_compute in H; try discriminate H; repeat split; reflexivity.
Qed.

Lemma stops_app : forall p a b,
  a <> EmptyString -> stops p a -> stops p (a ++ b).
Proof. intros p [|c a] b Hne H; [congruence | exact H]. Qed.

(** The end of the column pattern on the written length spec. *)
Lemma lens_tail_matches : forall fuel n0 l caps,
  lens_shaped l -> (String.length (lens_text l) <= fuel)%nat ->
  rmatch fuel n0
    (RSeqs [ ROpt (RSeqs [ RLit "(";
                           RGroup "lens"
                             (RSeq (RPlus digit)
                                   (ROpt (RSeq (RLit ",") (RPlus digit))));
                           RLit ")" ]);
             RStar ws; ROpt (RLit ","); RStar ws; REol ])
    (lens_text l) caps (fun _ c => Some c)
  = Some (if is_empty l then caps else ("lens", l) :: caps).
Proof.
  intros fuel n0 l caps Hl Hf.
  assert (Hend : forall c0,
    rmatch fuel n0 (RSeqs [RStar ws; ROpt (RLit ","); RStar ws; REol])
           EmptyString c0 (fun _ c => Some c) = Some c0).
  { intro c0. cbn [RSeqs]. rewrite rmatch_seq.
    rewrite rmatch_star_skip
      by (intro k'; now apply rmatch_set_stops).
    rewrite rmatch_seq, rmatch_opt_skip by (now rewrite rmatch_eq).
    rewrite rmatch_seq.
    rewrite rmatch_star_skip
      by (intro k'; now apply rmatch_set_stops).
    rewrite rmatch_seq. now rewrite !rmatch_eq. }
  cbn [RSeqs] in *. rewrite rmatch_seq.
  destruct Hl as [-> | Hl].
  { cbn [lens_text is_empty].
    rewrite rmatch_opt_skip by (now rewrite rmatch_seq, rmatch_eq).
    apply Hend. }
  assert (Hne : is_empty l = false).
  { destruct Hl as [[Hne _] | (p & q & -> & [Hp _] & _)];
      [now destruct l | now destruct p]. }
  unfold lens_text in *. rewrite Hne in *.
  apply rmatch_opt_take.
  cbn [append]. rewrite rmatch_seq, rmatch_lit_same.
  rewrite rmatch_seq, rmatch_group, rmatch_seq.
  assert (Hclose : forall c0,
    rmatch fuel n0 (RSeq (RLit ")") REps) ")" c0
      (fun s1 c1 =>
         rmatch fuel n0
           (RSeq (RStar ws)
              (RSeq (ROpt (RLit ",")) (RSeq (RStar ws) (RSeq REol REps))))
           s1 c1 (fun _ c => Some c)) = Some c0).
  { intro c0. rewrite rmatch_seq, rmatch_lit_same.
    rewrite rmatch_eq. apply Hend. }
  destruct Hl as [[Hp Hd] | (p & q & -> & [Hp Hdp] & [Hq Hdq])];
    cbn [String.length append] in Hf; rewrite ?str_length_app in Hf;
    cbn [String.length append] in Hf; rewrite ?str_length_app in Hf;
    cbn [String.length] in Hf.
  - apply rmatch_plus_set; [exact Hp | exact Hd | reflexivity | lia |].
    rewrite rmatch_opt_skip
      by (rewrite rmatch_seq; now apply rmatch_lit_stops).
    rewrite take_app_length. apply Hclose.
  - replace ((p ++ "," ++ q) ++ ")") with (p ++ ("," ++ q ++ ")"))
      by (now rewrite !app_assoc_s).
    apply rmatch_plus_set; [exact Hp | exact Hdp | reflexivity | lia |].
    apply rmatch_opt_take.
    cbn [append]. rewrite rmatch_seq, rmatch_lit_same.
    apply rmatch_plus_set; [exact Hq | exact Hdq | reflexivity | lia |].
    replace (p ++ String "," (q ++ ")")) with ((p ++ "," ++ q) ++ ")")
      by (now rewrite !app_assoc_s).
    rewrite take_app_length. apply Hclose.
Qed.

Lemma stops_more_words : forall more rest,
  Forall (fun sw => white (fst sw) /\ type_word (snd sw)) more ->
  stops type_char rest -> stops type_char (more_words more ++ rest).
Proof.
  intros more rest H Hr. destruct H as [|[sp w] more [[Hsp Hs] _] _];
    [exact Hr|].
  cbn [more_words fst] in *. destruct sp as [|b sp]; [congruence|].
  cbn [all_chars] in Hs. apply andb_true_iff in Hs as [Hb _].
  cbn. now destruct (space_not_word b Hb) as (_ & Ht & _).
Qed.

(** The greedy star over the further words of a type takes them all. *)
Lemma rmatch_star_words : forall n0 more fuel rest caps k m,
  Forall (fun sw => white (fst sw) /\ type_word (snd sw)) more ->
  stops is_space rest -> stops type_char rest ->
  (String.length (more_words more) <= fuel)%nat ->
  k rest caps = Some m ->
  rmatch fuel n0 (RStar (RSeq (RPlus ws) (RPlus (RSet type_char))))
         (more_words more ++ rest) caps k = Some m.
Proof.
  intros n0 more. induction more as [|[sp w] more IH];
    intros fuel rest caps k m Hm Hrs Hrt Hf Hk.
  - cbn [more_words append]. rewrite rmatch_star_skip; [exact Hk|].
    intro k'. rewrite rmatch_seq. unfold RPlus, ws. rewrite rmatch_seq.
    now apply rmatch_set_stops.
  - inversion Hm as [|? ? [[Hsp Hsps] [Hw Hws]] Hm']; subst.
    cbn [fst snd] in *. cbn [more_words] in *.
    rewrite !str_length_app in Hf.
    assert (Hlsp : (0 < String.length sp)%nat)
      by (destruct sp; [congruence | cbn; lia]).
    assert (Hlw : (0 < String.length w)%nat)
      by (destruct w; [congruence | cbn; lia]).
    destruct fuel as [|f]; [lia|].
    rewrite rmatch_eq. cbv iota beta.
    match goal with
    | |- match ?x with Some _ => _ | None => _ end = _ =>
        replace x with (Some m); [reflexivity|]
    end.
    symmetry. rewrite rmatch_seq.
    rewrite !app_assoc_s.
    assert (Hws' : stops is_space (w ++ more_words more ++ rest)).
    { destruct w as [|x w]; [congruence|]. cbn [all_chars] in Hws.
      apply andb_true_iff in Hws as [Hx _]. cbn.
      now apply type_char_not_space. }
    unfold ws.
    apply rmatch_plus_set; [exact Hsp | exact Hsps | exact Hws' | lia |].
    apply rmatch_plus_set;
      [exact Hw | exact Hws | now apply stops_more_words | lia |].
    assert (Hlt : (String.length (more_words more ++ rest)
                   <? String.length (sp ++ w ++ more_words more ++ rest))%nat
                  = true)
      by (apply Nat.ltb_lt; rewrite !str_length_app; lia).
    rewrite Hlt. apply IH; try assumption. lia.
Qed.

Lemma more_words_chars : forall more,
  Forall (fun sw => white (fst sw) /\ type_word (snd sw)) more ->
  all_chars type_or_space (more_words more) = true.
Proof.
  intros more H. induction H as [|[sp w] more [[_ Hs] [_ Hw]] _ IH];
    [reflexivity|].
  cbn [more_words fst snd] in *. rewrite !all_chars_app, IH.
  rewrite (all_chars_impl is_space type_or_space sp), 
          (all_chars_impl type_char type_or_space w); try assumption;
    try reflexivity; intros c Hc; unfold type_or_space; rewrite Hc;
    [reflexivity | apply orb_true_r].
Qed.

(** A type of one or more words starts and ends with a character that
    is not white space, so trimming leaves it as it is. *)
Lemma last_char : forall (p : ascii -> bool) s,
  s <> EmptyString -> all_chars p s = true ->
  exists a c, s = a ++ String c EmptyString /\ p c = true.
Proof.
  intros p s. induction s as [|x s IH]; intros Hne Hs; [congruence|].
  cbn [all_chars] in Hs. apply andb_true_iff in Hs as [Hx Hs].
  destruct s as [|y s].
  - exists EmptyString, x. now split.
  - destruct (IH ltac:(discriminate) Hs) as (a & c & -> & Hc).
    exists (String x a), c. now split.
Qed.

Lemma type_text_last : forall ty more,
  type_word ty ->
  Forall (fun sw => white (fst sw) /\ type_word (snd sw)) more ->
  exists a c, type_text ty more = a ++ String c EmptyString /\
              type_char c = true.
Proof.
  intros ty more Hty H. unfold type_text. revert ty Hty.
  induction H as [|[sp w] more [_ Hw] _ IH]; intros ty [Hne Hs].
  - cbn [more_words]. rewrite app_empty_r. now apply last_char.
  - cbn [more_words fst snd] in *.
    destruct (IH w Hw) as (a & c & E & Hc).
    exists (ty ++ sp ++ a), c. split; [|exact Hc].
    now rewrite E, !app_assoc_s.
Qed.

Lemma strip_type_text : forall ty more,
  type_word ty ->
  Forall (fun sw => white (fst sw) /\ type_word (snd sw)) more ->
  strip (type_text ty more) = type_text ty more.
Proof.
  intros ty more Hty Hm.
  destruct (type_text_last ty more Hty Hm) as (a & c & E & Hc).
  unfold strip.
  assert (Hl : lstrip_by is_space (type_text ty more) = type_text ty more).
  { unfold type_text. destruct Hty as [Hne Hs].
    destruct ty as [|x ty]; [congruence|]. cbn [all_chars] in Hs.
    apply andb_true_iff in Hs as [Hx _]. cbn [append].
    apply lstrip_by_keep. now apply type_char_not_space. }
  rewrite Hl, E.
  rewrite rstrip_by_app by (now apply type_char_not_space). reflexivity.
Qed.

(** The column pattern accepts a name, white space, a type of one or
    more words and a length spec, and its groups are these. *)
Lemma col_re_accepts : forall name sp ty more l,
  word_string name -> white sp -> type_word ty ->
  Forall (fun sw => white (fst sw) /\ type_word (snd sw)) more ->
  lens_shaped l ->
  re_match col_re (name ++ sp ++ type_text ty more ++ lens_text l)
  = Some ((if is_empty l then [] else [("lens", l)])
          ++ [("type", type_text ty more); ("col", name)])%list.
Proof.
  intros name sp ty more l [Hn Hw] [Hsp Hsps] [Hty Htys] Hmore Hl.
  unfold re_match.
  set (L := name ++ sp ++ type_text ty more ++ lens_text l).
  set (F := S (String.length L)). set (n0 := String.length L).
  assert (HL : String.length L
               = (String.length name + (String.length sp
                  + ((String.length ty + String.length (more_words more))
                     + String.length (lens_text l))))%nat)
    by (unfold L, type_text; now rewrite !str_length_app).
  destruct name as [|c name]; [congruence|].
  cbn [all_chars] in Hw. pose proof Hw as Hw'.
  apply andb_true_iff in Hw' as [Hc _].
  destruct (word_not_quote c Hc) as [Hcq Hcs].
  destruct sp as [|b sp]; [congruence|].
  cbn [all_chars] in Hsps. pose proof Hsps as Hsps'.
  apply andb_true_iff in Hsps' as [Hb _].
  destruct (space_not_word b Hb) as (Hbw & Hbt & Hbq).
  destruct ty as [|x ty]; [congruence|].
  cbn [all_chars] in Htys. pose proof Htys as Htys'.
  apply andb_true_iff in Htys' as [Hx _].
  pose proof (type_char_not_space x Hx) as Hxs.
  unfold col_re. cbn [RSeqs].
  (* start of the input, leading white space, opening quote *)
  rewrite rmatch_seq, rmatch_eq. fold n0. rewrite Nat.eqb_refl.
  rewrite rmatch_seq.
  rewrite rmatch_star_skip
    by (intro k'; apply rmatch_set_stops; exact Hcs).
  rewrite rmatch_seq.
  rewrite rmatch_opt_skip by (apply rmatch_lit_stops; exact Hcq).
  (* the name *)
  rewrite rmatch_seq, rmatch_group.
  apply rmatch_plus_set;
    [discriminate | exact Hw | exact Hbw | unfold F; lia |].
  fold L. unfold L at 1 2. rewrite take_app_length.
  rewrite rmatch_seq.
  rewrite rmatch_opt_skip by (apply rmatch_lit_stops; exact Hbq).
  (* white space, then the type *)
  rewrite rmatch_seq.
  apply rmatch_plus_set;
    [discriminate | exact Hsps | exact Hxs | unfold F; lia |].
  rewrite rmatch_seq, rmatch_group, rmatch_seq.
  assert (Htail : stops type_char (lens_text l) /\
                  stops is_space (lens_text l)).
  { unfold lens_text. destruct (is_empty l); now split. }
  unfold type_text at 1 2. rewrite !app_assoc_s.
  apply rmatch_plus_set;
    [discriminate | exact Htys | | unfold F; lia |].
  { apply stops_more_words; [exact Hmore | exact (proj1 Htail)]. }
  apply rmatch_star_words;
    [exact Hmore | exact (proj2 Htail) | exact (proj1 Htail)
    | unfold F; lia |].
  replace (String x ty ++ more_words more ++ lens_text l)
    with (type_text (String x ty) more ++ lens_text l)
    by (unfold type_text; now rewrite app_assoc_s).
  rewrite take_app_length.
  (* the length spec and the end of the line *)
  pose proof (lens_tail_matches F n0 l
                [("type", type_text (String x ty) more);
                 ("col", String c name)] Hl
                ltac:(unfold F; lia)) as Ht.
  cbn [RSeqs] in Ht. rewrite Ht. now destruct (is_empty l).
Qed.

Lemma column_line_parsed :
  forall (t : string) (cols : list ColumnSpec) (raw : string)
         (rest : list string) (name sp ty : string)
         (more : list (string * string)) (l : string),
    word_string name -> white sp -> type_word ty ->
    Forall (fun sw => white (fst sw) /\ type_word (snd sw)) more ->
    lens_shaped l ->
    rstrip_comma (strip raw)
      = name ++ sp ++ type_text ty more ++ lens_text l ->
    closes_columns raw = false ->
    startswith_any constraint_starts (lower (strip raw)) = false ->
    parse_lines (Some t) cols (raw :: rest)
    = parse_lines (Some t) (cols ++ [mkCol name (type_text ty more) l])%list
                  rest.
Proof.
  intros t cols raw rest name sp ty more l Hn Hsp Hty Hmore Hl Hline
         Hclose Hcons.
  cbn [parse_lines].
  assert (Hne : is_empty (strip raw) = false).
  { destruct (strip raw); [|reflexivity].
    cbn in Hline. destruct Hn as [Hn _]. now destruct name. }
  unfold closes_columns in Hclose. rewrite Hne, Hclose, Hcons, Hline.
  rewrite (col_re_accepts name sp ty more l Hn Hsp Hty Hmore Hl).
  pose proof (strip_type_text ty more Hty Hmore) as Hst.
  pose proof (strip_id l (lens_shaped_no_space l Hl)) as Hsl.
  destruct l as [|x l].
  - change (parse_lines (Some t)
              (cols ++ [mkCol name (strip (type_text ty more))
                              (strip EmptyString)]) rest
            = parse_lines (Some t)
                (cols ++ [mkCol name (type_text ty more) EmptyString]) rest).
    now rewrite Hst.
  - change (parse_lines (Some t)
              (cols ++ [mkCol name (strip (type_text ty more))
                              (strip (String x l))]) rest
            = parse_lines (Some t)
                (cols ++ [mkCol name (type_text ty more) (String x l)]) rest).
    now rewrite Hst, Hsl.
Qed.

(** X25.  A line that, trimmed and without its trailing commas, reads as
    a name, white space, a type of one or more words and an optional
    length spec in parentheses (and that neither closes the column list
    nor starts with a constraint keyword) adds exactly that column. *)
Theorem column_line_is_parsed :
  forall (t : string) (cols : list ColumnSpec) (raw : string)
         (rest : list string) (name sp ty : string)
         (more : list (string * string)) (l : string),
    word_string name -> white sp -> type_word ty ->
    Forall (fun sw => white (fst sw) /\ type_word (snd sw)) more ->
    lens_shaped l ->
    rstrip_comma (strip raw)
      = name ++ sp ++ type_text ty more ++ lens_text l ->
    closes_columns raw = false ->
    startswith_any constraint_starts (lower (strip raw)) = false ->
    parse_lines (Some t) cols (raw :: rest)
    = parse_lines (Some t) (cols ++ [mkCol name (type_text ty more) l])%list
                  rest.
Proof. exact column_line_parsed. Qed.

(** ** The line that names the table *)

Lemma lit_is_dot : forall d, lower_char d = lower_char "." -> d = "."%char.
Proof.
  intros d H. destruct d as [[] [] [] [] [] [] [] []];
    vm_compute in H; try discriminate H; reflexivity.
Qed.

Lemma word_not_dot : forall c,
  is_word c = true -> negb (Ascii.eqb c ".") = true.
Proof.
  intros c H. destruct c as [[] [] [] [] [] [] [] []];
    vm_compute in H; try discriminate H; reflexivity.
Qed.

Lemma all_chars_app_mid : forall p a c b,
  all_chars p (a ++ String c b) = true -> p c = true.
Proof.
  intros p a c b. rewrite all_chars_app. cbn [all_chars].
  intro H. apply andb_true_iff in H as [_ H].
  now apply andb_true_iff in H as [H _].
Qed.

(** The optional schema prefix needs a dot: it matches nowhere in a text
    without one. *)
Lemma schema_prefix_needs_dot : forall fuel n0 s caps k,
  all_chars (fun c => negb (Ascii.eqb c ".")) s = true ->
  rmatch fuel n0
    (RSeqs [ RGroup "schema" (RSeqs [ROpt dquote; RPlus word; ROpt dquote]);
             RLit "." ]) s caps k = None.
Proof.
  intros fuel n0 s caps k Hs.
  destruct (rmatch fuel n0 _ s caps k) as [m|] eqn:E; [|reflexivity].
  exfalso. apply rmatch_sound in E as (s1 & c1 & Hm & _).
  cbn [RSeqs] in Hm.
  inv_seq Hm Hg Hm. inv_seq Hm Hdot Hm.
  inversion Hdot as [|? ? ? ? Hlit| | | | | | | | |]; subst; clear Hdot.
  apply lit_is_dot in Hlit. subst.
  destruct (matches_consumed n0 (fun _ => true) _ _ _ _ _ Hg) as (w & -> & _).
  { cbn. auto. }
  apply all_chars_app_mid in Hs. discriminate Hs.
Qed.

(** The table pattern finds the quoted name of the opening line. *)
Lemma table_re_accepts : forall t,
  word_string t ->
  exists m, re_search table_re (header_text t) = Some m /\
            group m "name" = Some t.
Proof.
  intros t [Hne Hw]. exists [("name", t)]. split; [|reflexivity].
  unfold re_search, header_text, dq. cbn [append search_from].
  set (L := String "C" _).
  set (F := S (String.length L)). set (n0 := String.length L).
  replace (rmatch F n0 table_re L [] (fun _ c => Some c))
    with (Some [("name", t)]); [reflexivity|].
  symmetry. unfold table_re, L. cbn [RSeqs RWord].
  assert (HF : (String.length t < F)%nat).
  { unfold F, L. cbn [String.length]. rewrite str_length_app. lia. }
  (* CREATE, white space, TABLE, white space *)
  rewrite rmatch_seq.
  repeat (rewrite rmatch_seq, rmatch_lit_same). rewrite rmatch_eq.
  rewrite rmatch_seq.
  match goal with
  | |- rmatch _ _ _ (String " " ?r) _ _ = _ => change (String " " r) with (" " ++ r)
  end.
  unfold ws.
  apply rmatch_plus_set; [discriminate | reflexivity | reflexivity
                         | unfold F; cbn; lia |].
  rewrite rmatch_seq.
  repeat (rewrite rmatch_seq, rmatch_lit_same). rewrite rmatch_eq.
  rewrite rmatch_seq.
  match goal with
  | |- rmatch _ _ _ (String " " ?r) _ _ = _ => change (String " " r) with (" " ++ r)
  end.
  apply rmatch_plus_set; [discriminate | reflexivity | reflexivity
                         | unfold F; cbn; lia |].
  (* no IF NOT EXISTS, no schema *)
  rewrite rmatch_seq.
  rewrite rmatch_opt_skip
    by (rewrite !rmatch_seq; now apply rmatch_lit_stops).
  rewrite rmatch_seq.
  rewrite rmatch_opt_skip.
  2: { apply schema_prefix_needs_dot. cbn [all_chars].
       rewrite all_chars_app.
       rewrite (all_chars_impl is_word _ t word_not_dot Hw). reflexivity. }
  (* the quoted name *)
  rewrite rmatch_seq. apply rmatch_opt_take. unfold dquote.
  rewrite rmatch_lit_same.
  rewrite rmatch_seq, rmatch_group. unfold word.
  apply rmatch_plus_set; [exact Hne | exact Hw | reflexivity | lia |].
  rewrite take_app_length.
  rewrite rmatch_seq. apply rmatch_opt_take.
  rewrite rmatch_lit_same. now rewrite rmatch_eq.
Qed.

(** ** A schema file read back *)

Lemma parse_column_lines : forall t raws cols acc closing post,
  Forall2 column_line raws cols ->
  closes_columns closing = true ->
  parse_lines (Some t) acc (raws ++ closing :: post)%list
  = (Some t, (acc ++ cols)%list).
Proof.
  intros t raws cols acc closing post H Hc. revert acc.
  induction H as [|raw c raws cols Hline _ IH]; intro acc.
  - cbn [app]. rewrite app_nil_r.
    exact (parser_stops t acc [] closing post (Forall_nil _) Hc).
  - destruct Hline as (sp & ty & more & Hn & Hsp & Hty & Hmore & Htype & Hl
                       & Htext & Hclose & Hcons).
    cbn [app].
    rewrite (column_line_parsed t acc raw (raws ++ closing :: post)
               (name c) sp ty more (lens c) Hn Hsp Hty Hmore Hl).
    + rewrite IH. rewrite <- app_assoc. cbn [app]. do 3 f_equal.
      destruct c as [n ty0 l0]. cbn [name type lens] in *. now subst.
    + unfold column_text in Htext. now rewrite Htype in Htext.
    + exact Hclose.
    + exact Hcons.
Qed.

(** X26.  A schema file written in the usual layout reads back as what
    it declares: after a line that opens table [t] (the name in double
    quotes), lines that each declare a column, and a line that closes
    the list, [parse_schema_file] returns [t] and exactly those columns,
    in order, whatever follows. *)
Theorem schema_file_read_back :
  forall (t : string) (cols : list ColumnSpec) (header : string)
         (raws : list string) (closing : string) (post : list string),
    word_string t ->
    strip header = header_text t ->
    Forall2 column_line raws cols ->
    closes_columns closing = true ->
    parse_schema_file (header :: raws ++ closing :: post)%list
    = (Some t, cols).
Proof.
  intros t cols header raws closing post Ht Hh Hcols Hc.
  unfold parse_schema_file. cbn [parse_lines]. rewrite Hh.
  destruct (table_re_accepts t Ht) as (m & -> & ->).
  change (is_empty (header_text t)) with false. cbv iota.
  now rewrite (parse_column_lines t raws cols [] closing post Hcols Hc).
Qed.

(** * The further properties at concrete inputs *)

Lemma parsed_column_generates_witness :
  In (mkCol "code" "varchar" "5") (snd (parse_schema_file customer_file)) /\
  (String.length (lens (mkCol "code" "varchar" "5")) <= 4300)%nat /\
  decimal_rule (normalize_type (type (mkCol "code" "varchar" "5"))) = false /\
  exists v r',
    generate_random (RT := Tape.runtime) (mkCol "code" "varchar" "5") [3]
    = Ok (v, r').
Proof.
  assert (H1 : In (mkCol "code" "varchar" "5")
                  (snd (parse_schema_file customer_file)))
    by (right; left; reflexivity).
  assert (H2 : (String.length (lens (mkCol "code" "varchar" "5")) <= 4300)%nat)
    by (cbn; lia).
  assert (H3 : decimal_rule (normalize_type (type (mkCol "code" "varchar" "5")))
               = false) by reflexivity.
  split; [exact H1|]. split; [exact H2|]. split; [exact H3|].
  exact (parsed_column_generates (RT := Tape.runtime) customer_file
           (mkCol "code" "varchar" "5") [3] H1 H2 H3).
Defined.

Lemma parser_stops_at_closing_line_witness :
  Forall (fun x => closes_columns x = false) ["  id integer,"] /\
  closes_columns "  code varchar(5));" = true /\
  parse_lines (Some "Customer") []
    (["  id integer,"] ++ "  code varchar(5));" :: ["  note text"])%list
  = parse_lines (Some "Customer") [] ["  id integer,"].
Proof.
  assert (H1 : Forall (fun x => closes_columns x = false) ["  id integer,"])
    by (constructor; [reflexivity | constructor]).
  assert (H2 : closes_columns "  code varchar(5));" = true) by reflexivity.
  split; [exact H1|]. split; [exact H2|].
  exact (parser_stops_at_closing_line "Customer" [] ["  id integer,"]
           "  code varchar(5));" ["  note text"] H1 H2).
Defined.

Lemma single_line_file_has_no_columns_witness :
  (count_lines customer_file_one_line <= 1)%nat /\
  snd (parse_schema_file customer_file_one_line) = [] /\
  forall fname rest,
    parse_schema_dir ((fname, customer_file_one_line) :: rest)
    = parse_schema_dir rest.
Proof.
  assert (H : (count_lines customer_file_one_line <= 1)%nat)
    by (vm_compute; lia).
  split; [exact H|].
  exact (single_line_file_has_no_columns customer_file_one_line H).
Defined.

Lemma parse_schema_dir_provenance_witness :
  dict_get "Order"
    (parse_schema_dir [("customer.sql", customer_file);
                       ("notes.txt", order_file);
                       ("ORDER.SQL", order_file)]) = Some order_cols /\
  exists fname lines,
    In (fname, lines) [("customer.sql", customer_file);
                       ("notes.txt", order_file);
                       ("ORDER.SQL", order_file)] /\
    endswith ".sql" (lower fname) = true /\
    parse_schema_file lines = (Some "Order", order_cols).
Proof.
  assert (H : dict_get "Order"
                (parse_schema_dir [("customer.sql", customer_file);
                                   ("notes.txt", order_file);
                                   ("ORDER.SQL", order_file)])
              = Some order_cols) by (vm_compute; reflexivity).
  split; [exact H|].
  exact (parse_schema_dir_provenance _ "Order" order_cols H).
Defined.

Lemma last_file_of_a_table_wins_witness :
  endswith ".sql" (lower "customer.sql") = true /\
  parse_schema_file customer_file
    = (Some "Customer", mkCol "id" "integer" EmptyString
                        :: [mkCol "code" "varchar" "5"]) /\
  Forall (fun e => fst (parse_schema_file (snd e)) <> Some "Customer")
         [("order.sql", order_file)] /\
  dict_get "Customer"
    (parse_schema_dir
       ([("old.sql", ["create table Customer ("; "  legacy text"; ")"])]
        ++ ("customer.sql", customer_file) :: [("order.sql", order_file)])%list)
  = Some (mkCol "id" "integer" EmptyString :: [mkCol "code" "varchar" "5"]).
Proof.
  assert (H1 : endswith ".sql" (lower "customer.sql") = true) by reflexivity.
  assert (H2 : parse_schema_file customer_file
               = (Some "Customer", mkCol "id" "integer" EmptyString
                                   :: [mkCol "code" "varchar" "5"]))
    by (vm_compute; reflexivity).
  assert (H3 : Forall (fun e => fst (parse_schema_file (snd e))
                                <> Some "Customer")
                      [("order.sql", order_file)])
    by (constructor; [vm_compute; discriminate | constructor]).
  split; [exact H1|]. split; [exact H2|]. split; [exact H3|].
  exact (last_file_of_a_table_wins
           [("old.sql", ["create table Customer ("; "  legacy text"; ")"])]
           [("order.sql", order_file)] "customer.sql" customer_file
           "Customer" _ _ H1 H2 H3).
Defined.

Lemma parent_rows_or_duplicate_error_witness :
  Forall (never_raises (RT := Tape.runtime)) customer_cols /\
  incl ["id"] (map name customer_cols) /\
  ((exists rows r',
      gen_parent_rows (RT := Tape.runtime) customer_cols ["id"] 3
                      [5; 3; 1; 2; 5; 9; 7] = Ok (rows, r') /\
      List.length rows = Z.to_nat 3 /\
      Forall (has_columns customer_cols) rows) \/
   (["id"] <> [] /\
    gen_parent_rows (RT := Tape.runtime) customer_cols ["id"] 3
                    [5; 3; 1; 2; 5; 9; 7] = Err duplicate_key_error)).
Proof.
  assert (H1 : Forall (never_raises (RT := Tape.runtime)) customer_cols)
    by exact customer_cols_safe.
  assert (H2 : incl ["id"] (map name customer_cols))
    by (intros k [<-|[]]; left; reflexivity).
  split; [exact H1|]. split; [exact H2|].
  exact (parent_rows_or_duplicate_error (RT := Tape.runtime) customer_cols
           ["id"] 3 [5; 3; 1; 2; 5; 9; 7] H1 H2).
Defined.

Lemma missing_key_field_is_key_error_witness :
  Forall (never_raises (RT := Tape.runtime)) customer_cols /\
  0 < 2 /\ incl ["id"] (map name customer_cols) /\
  ~ In "uid" (map name customer_cols) /\
  gen_parent_rows (RT := Tape.runtime) customer_cols ["id"; "uid"; "zid"] 2
                  [4; 1]
  = Err (KeyError "uid") /\
  forall attempts seen_keys,
    attempt_loop (RT := Tape.runtime) (S attempts) customer_cols
                 ["id"; "uid"; "zid"] seen_keys [4; 1]
    = Err (KeyError "uid").
Proof.
  assert (H1 : Forall (never_raises (RT := Tape.runtime)) customer_cols)
    by exact customer_cols_safe.
  assert (H2 : 0 < 2) by lia.
  assert (H3 : incl ["id"] (map name customer_cols))
    by (intros k [<-|[]]; left; reflexivity).
  assert (H4 : ~ In "uid" (map name customer_cols))
    by (intros [H|[H|[]]]; discriminate H).
  split; [exact H1|]. split; [exact H2|]. split; [exact H3|].
  split; [exact H4|].
  exact (missing_key_field_is_key_error (RT := Tape.runtime) customer_cols
           ["id"] ["zid"] "uid" 2 [4; 1] H1 H2 H3 H4).
Defined.

Lemma char_length_exact_witness :
  char_rule (normalize_type "character") = true /\
  declared_len "300" 1 = Some 300 /\
  exists s r',
    generate_random (RT := Tape.runtime) (mkCol "tag" "character" "300") [7]
      = Ok (VStr s, r') /\
    Z.of_nat (String.length s) = Z.min (Z.max 300 1) 255.
Proof.
  split; [reflexivity|]. split; [reflexivity|].
  apply (char_length_exact (RT := Tape.runtime)
           (mkCol "tag" "character" "300") [7] 300); reflexivity.
Defined.

Lemma time_column_in_range_witness :
  time_rule (normalize_type "time without time zone") = true /\
  exists t r',
    generate_random (RT := Tape.runtime)
      (mkCol "at" "time without time zone" EmptyString) [23; 59; 58]
      = Ok (VTime t, r') /\
    valid_time t /\ microsecond t = 0 /\ time_shaped (time_iso_seconds t).
Proof.
  split; [reflexivity|].
  apply (time_column_in_range (RT := Tape.runtime)
           (mkCol "at" "time without time zone" EmptyString) [23; 59; 58]).
  reflexivity.
Defined.

Lemma bool_column_is_boolean_witness :
  bool_rule (normalize_type "BOOLEAN") = true /\
  exists b r',
    generate_random (RT := Tape.runtime) (mkCol "ok" "BOOLEAN" EmptyString) [1]
    = Ok (VBool b, r').
Proof.
  split; [reflexivity|].
  apply (bool_column_is_boolean (RT := Tape.runtime)
           (mkCol "ok" "BOOLEAN" EmptyString) [1]).
  reflexivity.
Defined.

Lemma parse_keyval_map_of_pairs_witness :
  Forall (fun kv => no_comma (fst kv) = true /\ no_equals (fst kv) = true /\
                    no_comma (snd kv) = true)
         [(" Order ", " 2"); ("Item", "3 "); ("Order", "5=five")] /\
  parse_keyval_map
    (render_pairs [(" Order ", " 2"); ("Item", "3 "); ("Order", "5=five")])
  = assign_pairs [(" Order ", " 2"); ("Item", "3 "); ("Order", "5=five")] [].
Proof.
  assert (H : Forall (fun kv => no_comma (fst kv) = true /\
                                no_equals (fst kv) = true /\
                                no_comma (snd kv) = true)
                [(" Order ", " 2"); ("Item", "3 "); ("Order", "5=five")])
    by (repeat constructor).
  split; [exact H|].
  exact (parse_keyval_map_of_pairs _ H).
Defined.

Lemma sql_string_literal_injective_witness :
  to_sql_literal (RT := Tape.runtime) (VStr "O'Brien")
  = to_sql_literal (RT := Tape.runtime) (VStr ("O'" ++ "Brien")) /\
  "O'Brien" = "O'" ++ "Brien".
Proof.
  assert (H : to_sql_literal (RT := Tape.runtime) (VStr "O'Brien")
              = to_sql_literal (RT := Tape.runtime) (VStr ("O'" ++ "Brien")))
    by reflexivity.
  split; [exact H|].
  exact (sql_string_literal_injective (RT := Tape.runtime) _ _ H).
Defined.

Lemma outputs_in_schema_order_witness :
  let entries := [("order.sql", order_file); ("customer.sql", customer_file)] in
  let schemas := parse_schema_dir entries in
  let run := main_cli (RT := Tape.runtime) entries "code" 2 "Order=2"
                      "customer_id=id" [5; 3; 1; 2] in
  select_parent schemas "code" = Some "Customer" /\
  (exists rest,
     expected_tables "Customer" schemas
       = (map o_table (written run) ++ rest)%list /\
     (forall r', ended run = Ok r' -> rest = [])) /\
  Forall (fun o => dict_get (o_table o) schemas = Some (o_cols o))
         (written run).
Proof.
  cbv zeta.
  assert (H : select_parent
                (parse_schema_dir [("order.sql", order_file);
                                   ("customer.sql", customer_file)]) "code"
              = Some "Customer") by (vm_compute; reflexivity).
  split; [exact H|].
  exact (outputs_in_schema_order (RT := Tape.runtime)
           [("order.sql", order_file); ("customer.sql", customer_file)]
           "code" 2 "Order=2" "customer_id=id" [5; 3; 1; 2] "Customer" H).
Defined.

Lemma no_rows_requested_witness :
  let entries := [("customer.sql", customer_file); ("order.sql", order_file)] in
  let schemas := parse_schema_dir entries in
  let run := main_cli (RT := Tape.runtime) entries "id" 0 "Order=2"
                      "customer_id=id" [5; 3] in
  0 <= 0 /\
  select_parent schemas "id" = Some "Customer" /\
  int_values (parse_keyval_map "Order=2") = Ok [("Order", 2)] /\
  ended run = Ok [5; 3] /\
  map o_table (written run) = expected_tables "Customer" schemas /\
  Forall (fun o => o_rows o = [] /\ o_sql o = EmptyString) (written run).
Proof.
  cbv zeta.
  assert (H1 : 0 <= 0) by lia.
  assert (H2 : select_parent
                 (parse_schema_dir [("customer.sql", customer_file);
                                    ("order.sql", order_file)]) "id"
               = Some "Customer") by (vm_compute; reflexivity).
  assert (H3 : int_values (parse_keyval_map "Order=2") = Ok [("Order", 2)])
    by (vm_compute; reflexivity).
  split; [exact H1|]. split; [exact H2|]. split; [exact H3|].
  exact (no_rows_requested (RT := Tape.runtime)
           [("customer.sql", customer_file); ("order.sql", order_file)]
           "id" 0 "Order=2" "customer_id=id" [5; 3] "Customer" _ H1 H2 H3).
Defined.

Lemma bad_multiplier_after_parent_witness :
  let entries := [("customer.sql", customer_file); ("order.sql", order_file)] in
  let schemas := parse_schema_dir entries in
  let run := main_cli (RT := Tape.runtime) entries "id" 1 "Order=two"
                      EmptyString [5; 3] in
  select_parent schemas "id" = Some "Customer" /\
  int_values (parse_keyval_map "Order=two") = Err ValueError /\
  exists pcols,
    dict_get "Customer" schemas = Some pcols /\
    ((exists e,
        gen_parent_rows (RT := Tape.runtime) pcols (key_list "id") 1 [5; 3]
          = Err e /\
        written run = [] /\ ended run = Err e) \/
     (exists rows r1 sql,
        gen_parent_rows (RT := Tape.runtime) pcols (key_list "id") 1 [5; 3]
          = Ok (rows, r1) /\
        written run = [mkOutput "Customer" pcols rows sql] /\
        ended run = Err ValueError)).
Proof.
  cbv zeta.
  assert (H1 : select_parent
                 (parse_schema_dir [("customer.sql", customer_file);
                                    ("order.sql", order_file)]) "id"
               = Some "Customer") by (vm_compute; reflexivity).
  assert (H2 : int_values (parse_keyval_map "Order=two") = Err ValueError)
    by (vm_compute; reflexivity).
  split; [exact H1|]. split; [exact H2|].
  exact (bad_multiplier_after_parent (RT := Tape.runtime)
           [("customer.sql", customer_file); ("order.sql", order_file)]
           "id" 1 "Order=two" EmptyString [5; 3] "Customer" ValueError H1 H2).
Defined.

Lemma run_error_causes_witness :
  let entries := [("customer.sql", customer_file); ("order.sql", order_file)] in
  let schemas := parse_schema_dir entries in
  let run := main_cli (RT := Tape.runtime) entries "id,uid" 1 "Order=2"
                      EmptyString [5; 3] in
  ended run = Err (KeyError "uid") /\
  ((KeyError "uid" = no_schema_error /\ schemas = [] /\ written run = []) \/
   (KeyError "uid" = duplicate_key_error /\ key_list "id,uid" <> [] /\
    written run = []) \/
   (exists k parent pcols,
      KeyError "uid" = KeyError k /\ In k (key_list "id,uid") /\
      select_parent schemas "id,uid" = Some parent /\
      dict_get parent schemas = Some pcols /\
      ~ In k (map name pcols) /\ written run = []) \/
   (KeyError "uid" = ValueError /\
    int_values (parse_keyval_map "Order=2") = Err ValueError) \/
   (exists t cols c,
      In (t, cols) schemas /\ In c cols /\
      failing_column (KeyError "uid") c)).
Proof.
  cbv zeta.
  assert (H : ended (main_cli (RT := Tape.runtime)
                       [("customer.sql", customer_file);
                        ("order.sql", order_file)]
                       "id,uid" 1 "Order=2" EmptyString [5; 3])
              = Err (KeyError "uid")) by (vm_compute; reflexivity).
  split; [exact H|].
  exact (run_error_causes (RT := Tape.runtime)
           [("customer.sql", customer_file); ("order.sql", order_file)]
           "id,uid" 1 "Order=2" EmptyString [5; 3] (KeyError "uid") H).
Defined.


Lemma nonpositive_multiplier_no_child_rows_witness :
  -1 <= 0 /\
  gen_child_rows (RT := Tape.runtime) order_cols [("customer_id", "id")] (-1)
                 [[("id", VInt 5)]; [("id", VInt 9)]] [1; 2]
    = Ok ([], [1; 2]) /\
  write_outputs (RT := Tape.runtime) "Order" order_cols []
    = Ok (mkOutput "Order" order_cols [] EmptyString).
Proof.
  assert (H : -1 <= 0) by lia.
  split; [exact H|].
  exact (nonpositive_multiplier_no_child_rows (RT := Tape.runtime) order_cols
           [("customer_id", "id")] (-1) [[("id", VInt 5)]; [("id", VInt 9)]]
           [1; 2] "Order" H).
Defined.

Lemma generator_error_causes_witness :
  generate_random (RT := Tape.runtime) (mkCol "tag" "char" "1_") [7]
    = Err ValueError /\
  ((ValueError = DecimalSignal /\
    decimal_rule (normalize_type (type (mkCol "tag" "char" "1_"))) = true) \/
   (ValueError = ValueError /\
    ((varchar_rule (normalize_type (type (mkCol "tag" "char" "1_"))) = true /\
      declared_len (lens (mkCol "tag" "char" "1_")) 32 = None) \/
     (char_rule (normalize_type (type (mkCol "tag" "char" "1_"))) = true /\
      declared_len (lens (mkCol "tag" "char" "1_")) 1 = None)))).
Proof.
  assert (H : generate_random (RT := Tape.runtime) (mkCol "tag" "char" "1_") [7]
              = Err ValueError) by (vm_compute; reflexivity).
  split; [exact H|].
  exact (generator_error_causes (RT := Tape.runtime)
           (mkCol "tag" "char" "1_") [7] ValueError H).
Defined.

Lemma column_line_is_parsed_witness :
  word_string "label" /\ white "  " /\ type_word "character" /\
  Forall (fun sw => white (fst sw) /\ type_word (snd sw)) [(" ", "varying")] /\
  lens_shaped "20" /\
  rstrip_comma (strip "  label  character varying(20),")
    = "label" ++ "  " ++ type_text "character" [(" ", "varying")]
      ++ lens_text "20" /\
  closes_columns "  label  character varying(20)," = false /\
  startswith_any constraint_starts
    (lower (strip "  label  character varying(20),")) = false /\
  parse_lines (Some "Item") [] ["  label  character varying(20),"; ");"]
  = parse_lines (Some "Item")
      ([] ++ [mkCol "label" (type_text "character" [(" ", "varying")]) "20"])
      [");"].
Proof.
  assert (H1 : word_string "label") by (split; [discriminate | reflexivity]).
  assert (H2 : white "  ") by (split; [discriminate | reflexivity]).
  assert (H3 : type_word "character")
    by (split; [discriminate | reflexivity]).
  assert (H4 : Forall (fun sw => white (fst sw) /\ type_word (snd sw))
                      [(" ", "varying")]).
  { constructor; [|constructor].
    split; split; solve [discriminate | reflexivity]. }
  assert (H5 : lens_shaped "20")
    by (right; left; split; [discriminate | reflexivity]).
  assert (H6 : rstrip_comma (strip "  label  character varying(20),")
               = "label" ++ "  " ++ type_text "character" [(" ", "varying")]
                 ++ lens_text "20") by reflexivity.
  assert (H7 : closes_columns "  label  character varying(20)," = false)
    by reflexivity.
  assert (H8 : startswith_any constraint_starts
                 (lower (strip "  label  character varying(20),")) = false)
    by reflexivity.
  repeat (split; [assumption|]).
  exact (column_line_is_parsed "Item" [] "  label  character varying(20),"
           [");"] "label" "  " "character" [(" ", "varying")] "20"
           H1 H2 H3 H4 H5 H6 H7 H8).
Defined.

Lemma schema_file_read_back_witness :
  let cols := [ mkCol "id" "integer" EmptyString;
                mkCol "label" "character varying" "20";
                mkCol "price" "numeric" "10,2" ] in
  let raws := [ "  id integer,";
                "  label  character varying(20),";
                "  price numeric(10,2)" ] in
  let header := "  " ++ header_text "Item" in
  word_string "Item" /\
  strip header = header_text "Item" /\
  Forall2 column_line raws cols /\
  closes_columns ");" = true /\
  parse_schema_file (header :: raws ++ ");" :: ["-- no more"])%list
  = (Some "Item", cols).
Proof.
  cbv zeta.
  assert (H1 : word_string "Item") by (split; [discriminate | reflexivity]).
  assert (H2 : strip ("  " ++ header_text "Item") = header_text "Item")
    by reflexivity.
  assert (H3 : Forall2 column_line
                 [ "  id integer,"; "  label  character varying(20),";
                   "  price numeric(10,2)" ]
                 [ mkCol "id" "integer" EmptyString;
                   mkCol "label" "character varying" "20";
                   mkCol "price" "numeric" "10,2" ]).
  { constructor; [|constructor; [|constructor; [|constructor]]].
    - exists " ", "integer", [].
      repeat split; try discriminate; try reflexivity;
        [constructor | now left].
    - exists "  ", "character", [(" ", "varying")].
      repeat split; try discriminate; try reflexivity.
      + constructor; [|constructor].
        split; split; solve [discriminate | reflexivity].
      + right. left. split; [discriminate | reflexivity].
    - exists " ", "numeric", [].
      repeat split; try discriminate; try reflexivity; [constructor|].
      right. right. exists "10", "2".
      repeat split; solve [discriminate | reflexivity]. }
  assert (H4 : closes_columns ");" = true) by reflexivity.
  repeat (split; [assumption|]).
  exact (schema_file_read_back "Item" _ ("  " ++ header_text "Item") _ ");"
           ["-- no more"] H1 H2 H3 H4).
Defined.

Lemma schema_set_of_distinct_tables_witness :
  Forall2 (fun e tc =>
             endswith ".sql" (lower (fst e)) = true /\
             parse_schema_file (snd e) = (Some (fst tc), snd tc) /\
             snd tc <> [])
          [("order.SQL", order_file); ("customer.sql", customer_file)]
          [("Order", order_cols); ("Customer", customer_cols)] /\
  NoDup (map fst [("Order", order_cols); ("Customer", customer_cols)]) /\
  parse_schema_dir [("order.SQL", order_file); ("customer.sql", customer_file)]
  = [("Order", order_cols); ("Customer", customer_cols)].
Proof.
  assert (H1 : Forall2 (fun e tc =>
                 endswith ".sql" (lower (fst e)) = true /\
                 parse_schema_file (snd e) = (Some (fst tc), snd tc) /\
                 snd tc <> [])
              [("order.SQL", order_file); ("customer.sql", customer_file)]
              [("Order", order_cols); ("Customer", customer_cols)]).
  { constructor; [|constructor; [|constructor]];
      (split; [reflexivity|]; split; [vm_compute; reflexivity | discriminate]). }
  assert (H2 : NoDup (map fst [("Order", order_cols);
                               ("Customer", customer_cols)])).
  { constructor; [intros [H|[]]; discriminate H|].
    constructor; [intros []|constructor]. }
  split; [exact H1|]. split; [exact H2|].
  exact (schema_set_of_distinct_tables _ _ H1 H2).
Defined.

Lemma successful_run_row_counts_witness :
  let entries := [("customer.sql", customer_file); ("order.sql", order_file)] in
  let schemas := parse_schema_dir entries in
  let run := main_cli (RT := Tape.runtime) entries "id" 3 "Order=2"
                      "customer_id=id" scenario_tape in
  ended run = Ok [] /\
  exists parent pcols prows sql mult_map outs,
    select_parent schemas "id" = Some parent /\
    dict_get parent schemas = Some pcols /\
    int_values (parse_keyval_map "Order=2") = Ok mult_map /\
    written run = mkOutput parent pcols prows sql :: outs /\
    List.length prows = Z.to_nat 3 /\
    (key_list "id" <> [] ->
     exists ts, keys_of prows (key_list "id") = Ok ts /\ pairwise_distinct ts) /\
    map o_table outs
      = filter (fun t => negb (String.eqb t parent)) (map fst schemas) /\
    Forall (fun o =>
              List.length (o_rows o)
              = (Z.to_nat 3 * Z.to_nat (multiplier_of mult_map (o_table o)))%nat)
           outs.
Proof.
  cbv zeta.
  assert (H : ended (main_cli (RT := Tape.runtime)
                       [("customer.sql", customer_file);
                        ("order.sql", order_file)]
                       "id" 3 "Order=2" "customer_id=id" scenario_tape)
              = Ok []) by (vm_compute; reflexivity).
  split; [exact H|].
  exact (successful_run_row_counts (RT := Tape.runtime)
           [("customer.sql", customer_file); ("order.sql", order_file)]
           "id" 3 "Order=2" "customer_id=id" scenario_tape [] H).
Defined.

Lemma long_length_spec_raises_witness :
  let lines := ["CREATE TABLE t (";
                "code varchar(" ++ repeat_char "9" 4301 ++ ")";
                ");"] in
  let c := mkCol "code" "varchar" (repeat_char "9" 4301) in
  In c (snd (parse_schema_file lines)) /\
  (varchar_rule (normalize_type (type c)) = true \/
   char_rule (normalize_type (type c)) = true) /\
  (int_max_str_digits < String.length (first_numeral (lens c)))%nat /\
  generate_random (RT := Tape.runtime) c [7] = Err ValueError.
Proof.
  cbv zeta.
  assert (E : snd (parse_schema_file
                     ["CREATE TABLE t (";
                      "code varchar(" ++ repeat_char "9" 4301 ++ ")";
                      ");"])
              = [mkCol "code" "varchar" (repeat_char "9" 4301)])
    by (vm_compute; reflexivity).
  assert (H1 : In (mkCol "code" "varchar" (repeat_char "9" 4301))
                  (snd (parse_schema_file
                          ["CREATE TABLE t (";
                           "code varchar(" ++ repeat_char "9" 4301 ++ ")";
                           ");"])))
    by (rewrite E; apply in_eq).
  assert (H2 : varchar_rule (normalize_type "varchar") = true \/
               char_rule (normalize_type "varchar") = true)
    by (left; vm_compute; reflexivity).
  assert (H3 : (int_max_str_digits
                < String.length (first_numeral (repeat_char "9" 4301)))%nat)
    by (apply Nat.ltb_lt; vm_compute; reflexivity).
  split; [exact H1|]. split; [exact H2|]. split; [exact H3|].
  exact (long_length_spec_raises (RT := Tape.runtime) _ _ [7] H1 H2 H3).
Defined.

